(** * Range-resolution transforms of the rich-text document model

    A shallow embedding of [src/transforms/at-range.js].  The functions of
    that file turn a selection-relative edit (delete this range, wrap
    these blocks, toggle this mark) into a sequence of key-addressed
    primitive calls on a [Transform].  Here a transform is an explicit
    state: the current [State], the list of primitive calls issued so far,
    and the counter of the key generator.  Every function of the file
    becomes a computation in a small state-and-failure monad over it. *)

From Stdlib Require Import ZArith NArith List String Ascii Bool Lia Permutation.
Import ListNotations.
Open Scope Z_scope.

Set Implicit Arguments.

(** ** Data model *)

(** Modelled from the spec: keys; the key generator is another module
    of the repository.  A key is a process-unique identifier issued by a
    monotonic generator; it is represented by the counter value it was
    issued from, and the code compares keys with [==]. *)
Definition Key := N.

(** Modelled from the spec: the mark model, "type + data". *)
Record Mark := { mark_type : string; mark_data : list (string * string) }.

Definition data_eqb (a b : list (string * string)) : bool :=
  if list_eq_dec (fun x y : string * string =>
       match string_dec (fst x) (fst y), string_dec (snd x) (snd y) with
       | left e1, left e2 =>
           left (eq_trans (surjective_pairing x)
                  (eq_trans (f_equal2 pair e1 e2) (eq_sym (surjective_pairing y))))
       | right n, _ => right (fun e => n (f_equal fst e))
       | _, right n => right (fun e => n (f_equal snd e))
       end) a b
  then true else false.

(** [m.equals(mark)]: marks are compared by structure, not by identity. *)
Definition mark_equals (m1 m2 : Mark) : bool :=
  String.eqb (mark_type m1) (mark_type m2) && data_eqb (mark_data m1) (mark_data m2).

(** Modelled from the spec: the characters of a text leaf, each with
    the marks attached to it. *)
Record Character := { char : ascii; marks : list Mark }.

(** Modelled from the spec: the [kind] discriminator of the node model,
    one of ['document'], ['block'], ['inline'], ['text']. *)
Inductive Kind := KDocument | KBlock | KInline | KText.

Definition Kind_eqb (a b : Kind) : bool :=
  match a, b with
  | KDocument, KDocument | KBlock, KBlock | KInline, KInline | KText, KText => true
  | _, _ => false
  end.

(** Modelled from the spec: the node model.  A node is a text leaf, with
    its key and characters, or a container (document, block or inline)
    with its key, type, void flag, data and ordered children. *)
#[warnings="-register-all"]
Inductive Node :=
| Text (k : Key) (characters : list Character)
| Elem (kd : Kind) (k : Key) (type : string) (isVoid : bool)
       (data : list (string * string)) (nodes : list Node).

Definition key (n : Node) : Key :=
  match n with Text k _ => k | Elem _ k _ _ _ _ => k end.

Definition kind (n : Node) : Kind :=
  match n with Text _ _ => KText | Elem kd _ _ _ _ _ => kd end.

Definition nodes (n : Node) : list Node :=
  match n with Text _ _ => [] | Elem _ _ _ _ _ ns => ns end.

Definition node_isVoid (n : Node) : bool :=
  match n with Text _ _ => false | Elem _ _ _ v _ _ => v end.

Definition node_type (n : Node) : string :=
  match n with Text _ _ => EmptyString | Elem _ _ ty _ _ _ => ty end.

Definition node_data (n : Node) : list (string * string) :=
  match n with Text _ _ => [] | Elem _ _ _ _ d _ => d end.

(** [node.length]: the number of characters below the node. *)
Fixpoint length_nat (n : Node) : nat :=
  match n with
  | Text _ cs => List.length cs
  | Elem _ _ _ _ _ ns => fold_right (fun c acc => (length_nat c + acc)%nat) 0%nat ns
  end.

Definition node_length (n : Node) : Z := Z.of_nat (length_nat n).

(** [node.text]: the characters below the node, in document order. *)
Fixpoint node_text (n : Node) : string :=
  match n with
  | Text _ cs => string_of_list_ascii (map char cs)
  | Elem _ _ _ _ _ ns => fold_right (fun c acc => (node_text c ++ acc)%string) EmptyString ns
  end.

(** [node.isEmpty]: the node has no text. *)
Definition isEmpty (n : Node) : bool := (length_nat n =? 0)%nat.

(** [nodes.size] of an Immutable list. *)
Definition size {A} (l : list A) : Z := Z.of_nat (List.length l).

(** Two node values read from one document version are the same object
    exactly when they carry the same key; this is how the reference
    comparisons [a == b] of the source are rendered. *)
Definition same (a b : Node) : bool := N.eqb (key a) (key b).

Definition osame (a b : option Node) : bool :=
  match a, b with
  | Some x, Some y => same x y
  | None, None => true
  | _, _ => false
  end.

(** ** Ranges *)

(** Modelled from the spec: the selection model, another module of the
    repository: an anchor and a focus point, with start and end derived
    from the direction, the collapsed and expanded predicates, and the
    moves the file uses. *)
Record Range := {
  anchorKey : Key; anchorOffset : Z;
  focusKey : Key; focusOffset : Z;
  isBackward : bool
}.

Definition startKey (r : Range) : Key := if isBackward r then focusKey r else anchorKey r.
Definition startOffset (r : Range) : Z := if isBackward r then focusOffset r else anchorOffset r.
Definition endKey (r : Range) : Key := if isBackward r then anchorKey r else focusKey r.
Definition endOffset (r : Range) : Z := if isBackward r then anchorOffset r else focusOffset r.

Definition isCollapsed (r : Range) : bool :=
  N.eqb (anchorKey r) (focusKey r) && Z.eqb (anchorOffset r) (focusOffset r).

Definition isExpanded (r : Range) : bool := negb (isCollapsed r).

Definition collapseToStart (r : Range) : Range :=
  {| anchorKey := startKey r; anchorOffset := startOffset r;
     focusKey := startKey r; focusOffset := startOffset r; isBackward := false |}.

Definition collapseToEnd (r : Range) : Range :=
  {| anchorKey := endKey r; anchorOffset := endOffset r;
     focusKey := endKey r; focusOffset := endOffset r; isBackward := false |}.

Definition moveForward (n : Z) (r : Range) : Range :=
  {| anchorKey := anchorKey r; anchorOffset := anchorOffset r + n;
     focusKey := focusKey r; focusOffset := focusOffset r + n;
     isBackward := isBackward r |}.

(** Modelled from the spec: the state, a document and a selection. *)
Record State := { document : Node; selection : Range }.

(** ** Options and primitive calls *)

(** An options object; [normalize] may be left undefined. *)
Record Options := { normalize : option bool }.

(** [const { normalize = true } = options] *)
Definition normalize_or_true (o : Options) : bool :=
  match normalize o with Some b => b | None => true end.

(** [options = {}] *)
Definition no_options : Options := {| normalize := None |}.

(** [{ normalize }] built from a local boolean. *)
Definition with_normalize (b : bool) : Options := {| normalize := Some b |}.

(** An options object with normalize set to [false]. *)
Definition OPTS : Options := {| normalize := Some false |}.

(** Modelled from the spec: the core schema, a constant imported from
    the schema module and handed to the normalization calls. *)
Inductive Schema := SCHEMA.

(** Modelled from the spec: the canonical node properties the unwrap
    operations match against, "type / void-flag / data-superset, each
    optional". *)
Record Properties := {
  p_type : option string; p_isVoid : option bool;
  p_data : option (list (string * string))
}.

(** The calls a function of this file makes on the transform other than
    to a sibling of the same file: the key-addressed primitives, the
    normalization passes and the selection transforms. *)
Inductive Call :=
| addMarkByKey (k : Key) (index length : Z) (m : Mark) (o : Options)
| removeMarkByKey (k : Key) (index length : Z) (m : Mark) (o : Options)
| removeTextByKey (k : Key) (index length : Z) (o : Options)
| insertTextByKey (k : Key) (offset : Z) (text : string) (ms : list Mark) (o : Options)
| splitNodeByKey (k : Key) (offset : Z) (o : Options)
| removeNodeByKey (k : Key) (o : Options)
| insertNodeByKey (parent : Key) (index : Z) (n : Node) (o : Options)
| moveNodeByKey (k : Key) (newKey : Key) (newIndex : Z) (o : Options)
| setNodeByKey (k : Key) (p : Properties) (o : Options)
| wrapInlineByKey (k : Key) (n : Node) (o : Options)
| normalizeNodeByKey (k : Key) (s : Schema)
| normalizeDocument (s : option Schema)
| unsetSelection
| moveTo (anchorKey : Key) (anchorOffset : Z) (focusKey : Key) (focusOffset : Z)
| extendForward (n : Z).

(** ** Transforms *)

(** The builder: the current state, the calls issued so far (oldest
    first) and the counter of the process-wide key generator. *)
Record Transform := { state : State; calls : list Call; nextKey : N }.

(** A function of the file runs on a transform and either throws
    ([None]: a reference to a missing node was dereferenced, or a
    primitive failed) or returns a value and the updated transform. *)
Definition M (A : Type) : Type := Transform -> option (A * Transform).

Definition ret {A} (a : A) : M A := fun tr => Some (a, tr).

Definition bind {A B} (m : M A) (f : A -> M B) : M B :=
  fun tr => match m tr with
            | Some (a, tr') => f a tr'
            | None => None
            end.

Definition throw {A} : M A := fun _ => None.

Declare Scope transform_scope.
Delimit Scope transform_scope with tr.
Notation "x <- m ;; k" := (bind m (fun x => k))
  (at level 61, m at next level, right associativity) : transform_scope.
Notation "m ;; k" := (bind m (fun _ => k))
  (at level 61, right associativity) : transform_scope.
Open Scope transform_scope.

(** Reading a property of a value that may be [undefined]. *)
Definition must {A} (o : option A) : M A :=
  match o with Some a => ret a | None => throw end.

(** [const { state } = transform; const { document } = state] *)
Definition getDocument : M Node := fun tr => Some (document (state tr), tr).

Definition getSelection : M Range := fun tr => Some (selection (state tr), tr).

Definition when (b : bool) (m : M unit) : M unit := if b then m else ret tt.

(** [list.forEach((x, i) => ...)], the index counted from [i]. *)
Fixpoint forEachFrom {A} (i : Z) (l : list A) (f : A -> Z -> M unit) : M unit :=
  match l with
  | [] => ret tt
  | x :: l' => f x i ;; forEachFrom (i + 1) l' f
  end.

Definition forEach {A} (l : list A) (f : A -> Z -> M unit) : M unit := forEachFrom 0 l f.

(** *** Immutable list operations used by the file *)

Fixpoint indexOfFrom (i : Z) (l : list Node) (n : Node) : Z :=
  match l with
  | [] => -1
  | x :: l' => if same x n then i else indexOfFrom (i + 1) l' n
  end.

(** [nodes.indexOf(n)]: [-1] when absent. *)
Definition indexOf (l : list Node) (n : Node) : Z := indexOfFrom 0 l n.

(** How [slice] reads a bound: a negative one counts from the end, and
    none goes beyond the ends of the list. *)
Definition resolveIndex (i size : Z) : Z :=
  if i <? 0 then Z.max 0 (size + i) else Z.min i size.

(** [list.slice(b, e)] *)
Definition slice {A} (b e : Z) (l : list A) : list A :=
  let b' := resolveIndex b (size l) in
  let e' := resolveIndex e (size l) in
  firstn (Z.to_nat (e' - b')) (skipn (Z.to_nat b') l).

(** [list.slice(b)] *)
Definition sliceFrom {A} (b : Z) (l : list A) : list A := slice b (size l) l.

Fixpoint skipUntil {A} (p : A -> bool) (l : list A) : list A :=
  match l with
  | [] => []
  | x :: l' => if p x then l else skipUntil p l'
  end.

Fixpoint takeUntil {A} (p : A -> bool) (l : list A) : list A :=
  match l with
  | [] => []
  | x :: l' => if p x then [] else x :: takeUntil p l'
  end.

Definition first {A} (l : list A) : option A := hd_error l.
Definition last_opt {A} (l : list A) : option A := hd_error (rev l).

(** *** Key regeneration *)

(** Modelled from the spec: [node.regenerateKey()] gives the node the
    next key of the process-wide monotonic generator. *)
Definition regenerateKey (n : Node) (c : N) : Node * N :=
  match n with
  | Text _ cs => (Text c cs, N.succ c)
  | Elem kd _ ty v d ns => (Elem kd c ty v d ns, N.succ c)
  end.

(** Modelled from the spec: [node.mapDescendants(f)] rebuilds the node
    with [f] applied to every descendant, children before their parent;
    the receiver itself is not mapped.  [f] may draw keys from the
    generator, whose counter is threaded through. *)
Fixpoint mapDescendants (f : Node -> N -> Node * N) (n : Node) (c : N) : Node * N :=
  match n with
  | Text _ _ => (n, c)
  | Elem kd k ty v d ns =>
      let fix go (l : list Node) (c : N) : list Node * N :=
        match l with
        | [] => ([], c)
        | x :: l' =>
            let (x1, c1) := mapDescendants f x c in
            let (x2, c2) := f x1 c1 in
            let (l2, c3) := go l' c2 in
            (x2 :: l2, c3)
        end in
      let (ns', c') := go ns c in
      (Elem kd k ty v d ns', c')
  end.

(** ** The collaborators of the file *)

(** The document queries, the selection predicates and the primitive
    layer are other modules of the repository.  The functions of this
    file are embedded over their interface, so that what is proved of
    them holds whatever these modules do: a query that can answer
    [undefined] or throw returns an [option], and [perform] runs one
    call on a state, possibly drawing keys, possibly failing. *)
Class Collaborators := {
  getTextsAtRange : Node -> Range -> list Node;
  getBlocksAtRange : Node -> Range -> list Node;
  getMarksAtRange : Node -> Range -> list Mark;
  getBlocks : Node -> list Node;
  getCommonAncestor : Node -> Key -> Key -> option Node;
  getHighestChild : Node -> Key -> option Node;
  getOffset : Node -> Key -> option Z;
  getDescendant : Node -> Key -> option Node;
  getParent : Node -> Key -> option Node;
  getClosestBlock : Node -> Key -> option Node;
  getClosestInline : Node -> Key -> option Node;
  getClosest : Node -> Key -> (Node -> bool) -> option Node;
  getFurthest : Node -> Key -> (Node -> bool) -> option Node;
  getNextText : Node -> Key -> option Node;
  getPreviousText : Node -> Key -> option Node;
  getNextSibling : Node -> Key -> option Node;
  getPreviousSibling : Node -> Key -> option Node;
  getNextBlock : Node -> Key -> option Node;
  hasDescendant : Node -> Key -> bool;
  removeDescendant : Node -> Key -> option Node;
  isAtStartOf : Range -> Node -> bool;
  isAtEndOf : Range -> Node -> bool;
  perform : Call -> State -> N -> option (State * N)
}.

Section AtRange.

Context {C : Collaborators}.

(** One call on the transform: it is recorded and run on the current
    state; the next step reads the state it leaves. *)
Definition call (c : Call) : M unit :=
  fun tr =>
    match perform c (state tr) (nextKey tr) with
    | Some (st, k) => Some (tt, {| state := st; calls := calls tr ++ [c]; nextKey := k |})
    | None => None
    end.

(** [document.assertDescendant(key)] throws when the key is absent. *)
Definition assertDescendant (d : Node) (k : Key) : M Node := must (getDescendant d k).

(** *** Mark engine *)

(** The leaf-local [index] and [length] computed in the [forEach] body
    of [addMarkAtRange] and [removeMarkAtRange]. *)
Definition leafIndex (r : Range) (t : Node) : Z :=
  if N.eqb (key t) (startKey r) then startOffset r else 0.

Definition leafLength (r : Range) (t : Node) : Z :=
  let length := node_length t in
  let length := if N.eqb (key t) (endKey r) then endOffset r else length in
  if N.eqb (key t) (startKey r) && N.eqb (key t) (endKey r)
  then endOffset r - startOffset r else length.

Definition addMarkAtRange (range : Range) (mark : Mark) (options : Options) : M unit :=
  if isCollapsed range then ret tt else
  let normalize := normalize_or_true options in
  document <- getDocument ;;
  let texts := getTextsAtRange document range in
  forEach texts (fun text _ =>
    call (addMarkByKey (key text) (leafIndex range text) (leafLength range text)
            mark (with_normalize normalize))).

Definition removeMarkAtRange (range : Range) (mark : Mark) (options : Options) : M unit :=
  if isCollapsed range then ret tt else
  let normalize := normalize_or_true options in
  document <- getDocument ;;
  let texts := getTextsAtRange document range in
  forEach texts (fun text _ =>
    call (removeMarkByKey (key text) (leafIndex range text) (leafLength range text)
            mark (with_normalize normalize))).

Definition toggleMarkAtRange (range : Range) (mark : Mark) (options : Options) : M unit :=
  if isCollapsed range then ret tt else
  let normalize := normalize_or_true options in
  document <- getDocument ;;
  let marks := getMarksAtRange document range in
  let exists_ := existsb (fun m => mark_equals m mark) marks in
  if exists_
  then removeMarkAtRange range mark (with_normalize normalize)
  else addMarkAtRange range mark (with_normalize normalize).

(** *** Deletion engine *)

(** [(child.kind == 'text' ? 0 : child.getOffset(key)) + offset] *)
Definition offsetIn (child : Node) (k : Key) (offset : Z) : option Z :=
  if Kind_eqb (kind child) KText then Some (0 + offset)
  else option_map (fun o => o + offset) (getOffset child k).

Definition onlyChild (p : Node) : bool := size (nodes p) =? 1.

Definition deleteAtRange (range : Range) (options : Options) : M unit :=
  if isCollapsed range then ret tt else
  let normalize := normalize_or_true options in
  let startKey := startKey range in
  let startOffset := startOffset range in
  let endKey := endKey range in
  let endOffset := endOffset range in
  if N.eqb startKey endKey then
    let index := startOffset in
    let length := endOffset - startOffset in
    call (removeTextByKey startKey index length (with_normalize normalize))
  else
  document <- getDocument ;;
  ancestor <- must (getCommonAncestor document startKey endKey) ;;
  startChild <- must (getHighestChild ancestor startKey) ;;
  endChild <- must (getHighestChild ancestor endKey) ;;
  startOff <- must (offsetIn startChild startKey startOffset) ;;
  endOff <- must (offsetIn endChild endKey endOffset) ;;
  call (splitNodeByKey (key startChild) startOff OPTS) ;;
  call (splitNodeByKey (key endChild) endOff OPTS) ;;
  document <- getDocument ;;
  ancestor <- must (getCommonAncestor document startKey endKey) ;;
  startChild <- must (getHighestChild ancestor startKey) ;;
  endChild <- must (getHighestChild ancestor endKey) ;;
  let startIndex := indexOf (nodes ancestor) startChild in
  let endIndex := indexOf (nodes ancestor) endChild in
  let middles := slice (startIndex + 1) (endIndex + 1) (nodes ancestor) in
  when (negb (size middles =? 0))
    (forEach middles (fun child _ => call (removeNodeByKey (key child) OPTS))) ;;
  startBlock <- must (getClosestBlock document startKey) ;;
  nextText <- must (getNextText document endKey) ;;
  endBlock <- must (getClosestBlock document (key nextText)) ;;
  when (negb (N.eqb (key startBlock) (key endBlock)))
    (forEach (nodes endBlock) (fun child i =>
       let newKey := key startBlock in
       let newIndex := size (nodes startBlock) + i in
       call (moveNodeByKey (key child) newKey newIndex OPTS)) ;;
     let lonely := match getFurthest document (key endBlock) onlyChild with
                   | Some p => p
                   | None => endBlock
                   end in
     call (removeNodeByKey (key lonely) OPTS)) ;;
  when normalize (call (normalizeNodeByKey (key ancestor) SCHEMA)).

(** *** Insertion engine *)

Definition insertBlockAtRange (range : Range) (block : Node) (options : Options) : M unit :=
  let normalize := normalize_or_true options in
  range <- (if isExpanded range
            then deleteAtRange range no_options ;; ret (collapseToStart range)
            else ret range) ;;
  document <- getDocument ;;
  let startKey := startKey range in
  let startOffset := startOffset range in
  startText <- assertDescendant document startKey ;;
  startBlock <- must (getClosestBlock document startKey) ;;
  parent <- must (getParent document (key startBlock)) ;;
  let index := indexOf (nodes parent) startBlock in
  (if node_isVoid startBlock then
     call (insertNodeByKey (key parent) (index + 1) block (with_normalize normalize))
   else if isEmpty startBlock then
     call (removeNodeByKey (key startBlock) no_options) ;;
     call (insertNodeByKey (key parent) index block (with_normalize normalize))
   else if isAtStartOf range startBlock then
     call (insertNodeByKey (key parent) index block (with_normalize normalize))
   else if isAtEndOf range startBlock then
     call (insertNodeByKey (key parent) (index + 1) block (with_normalize normalize))
   else
     o <- must (getOffset startBlock (key startText)) ;;
     let offset := o + startOffset in
     call (splitNodeByKey (key startBlock) offset (with_normalize normalize)) ;;
     call (insertNodeByKey (key parent) (index + 1) block (with_normalize normalize))) ;;
  when normalize (call (normalizeNodeByKey (key parent) SCHEMA)).

(** [fragment = fragment.mapDescendants(child => child.regenerateKey())] *)
Definition regenerateFragment (fragment : Node) : M Node :=
  fun tr =>
    let (f, c) := mapDescendants regenerateKey fragment (nextKey tr) in
    Some (f, {| state := state tr; calls := calls tr; nextKey := c |}).

Definition indexOfOpt (l : list Node) (n : option Node) : Z :=
  match n with Some x => indexOf l x | None => -1 end.

Definition insertFragmentAtRange (range : Range) (fragment : Node) (options : Options)
  : M unit :=
  let normalize := normalize_or_true options in
  range <- (if isExpanded range
            then deleteAtRange range OPTS ;; ret (collapseToStart range)
            else ret range) ;;
  if node_length fragment =? 0 then ret tt else
  fragment <- regenerateFragment fragment ;;
  let startKey := startKey range in
  let startOffset := startOffset range in
  document <- getDocument ;;
  startText <- must (getDescendant document startKey) ;;
  startBlock <- must (getClosestBlock document (key startText)) ;;
  startChild <- must (getHighestChild startBlock (key startText)) ;;
  let isAtStart := isAtStartOf range startBlock in
  parent <- must (getParent document (key startBlock)) ;;
  let index := indexOf (nodes parent) startBlock in
  offset <- (if same startChild startText then ret startOffset
             else (o <- must (getOffset startChild (key startText)) ;;
                   ret (o + startOffset))) ;;
  let blocks := getBlocks fragment in
  let firstBlock := first blocks in
  let lastBlock := last_opt blocks in
  when (negb (osame firstBlock lastBlock))
    (firstBlock <- must firstBlock ;;
     let lonelyParent := getFurthest fragment (key firstBlock) onlyChild in
     let lonelyChild := match lonelyParent with Some p => p | None => firstBlock end in
     let startIndex := indexOf (nodes parent) startBlock in
     fragment <- must (removeDescendant fragment (key lonelyChild)) ;;
     forEach (nodes fragment) (fun node i =>
       let newIndex := startIndex + i + 1 in
       call (insertNodeByKey (key parent) newIndex node OPTS))) ;;
  when (negb (startOffset =? 0))
    (call (splitNodeByKey (key startChild) offset OPTS)) ;;
  document <- getDocument ;;
  startText <- must (getDescendant document startKey) ;;
  startBlock <- must (getClosestBlock document startKey) ;;
  let startChild := getHighestChild startBlock (key startText) in
  when (negb (osame firstBlock lastBlock))
    (nextChild <- (if isAtStart then ret startChild
                   else (c <- must startChild ;;
                         ret (getNextSibling startBlock (key c)))) ;;
     let nextNodes := match nextChild with
                      | Some c => skipUntil (fun n => N.eqb (key n) (key c)) (nodes startBlock)
                      | None => []
                      end in
     lastBlock <- must lastBlock ;;
     let lastIndex := size (nodes lastBlock) in
     forEach nextNodes (fun node i =>
       let newIndex := lastIndex + i in
       call (moveNodeByKey (key node) (key lastBlock) newIndex OPTS))) ;;
  (if isEmpty startBlock then
     call (removeNodeByKey (key startBlock) OPTS) ;;
     firstBlock <- must firstBlock ;;
     call (insertNodeByKey (key parent) index firstBlock OPTS)
   else
     let inlineChild := getHighestChild startBlock (key startText) in
     let inlineIndex := indexOfOpt (nodes startBlock) inlineChild in
     firstBlock <- must firstBlock ;;
     forEach (nodes firstBlock) (fun inline i =>
       let o := if startOffset =? 0 then 0 else 1 in
       let newIndex := inlineIndex + i + o in
       call (insertNodeByKey (key startBlock) newIndex inline OPTS))) ;;
  when normalize (call (normalizeNodeByKey (key parent) SCHEMA)).

Definition insertInlineAtRange (range : Range) (inline : Node) (options : Options) : M unit :=
  let normalize := normalize_or_true options in
  range <- (if isExpanded range
            then deleteAtRange range OPTS ;; ret (collapseToStart range)
            else ret range) ;;
  document <- getDocument ;;
  let startKey := startKey range in
  let startOffset := startOffset range in
  let parent := getParent document startKey in
  startText <- assertDescendant document startKey ;;
  parent <- must parent ;;
  let index := indexOf (nodes parent) startText in
  if node_isVoid parent then ret tt else
  call (splitNodeByKey startKey startOffset OPTS) ;;
  call (insertNodeByKey (key parent) (index + 1) inline OPTS) ;;
  when normalize (call (normalizeNodeByKey (key parent) SCHEMA)).

Definition insertTextAtRange (range : Range) (text : string) (marks : list Mark)
  (options : Options) : M unit :=
  let normalize := normalize options in
  document <- getDocument ;;
  let startKey := startKey range in
  let startOffset := startOffset range in
  parent <- must (getParent document startKey) ;;
  if node_isVoid parent then ret tt else
  when (isExpanded range) (deleteAtRange range OPTS) ;;
  (* PERF: Unless specified, don't normalize if only inserting text. *)
  let normalize := match normalize with
                   | Some _ => Some (isExpanded range)   (* normalize !== undefined *)
                   | None => None
                   end in
  call (insertTextByKey startKey startOffset text marks {| normalize := normalize |}).

(** *** Split engine *)

(** The [while] loop of [splitBlockAtRange]: climb while the parent is a
    block and [h < height]; [fuel] is [height - h]. *)
Fixpoint climbBlocks (fuel : nat) (document node : Node) (parent : option Node)
  (offset : Z) : M (Node * Z) :=
  match fuel, parent with
  | S fuel', Some p =>
      if Kind_eqb (kind p) KBlock then
        o <- must (getOffset p (key node)) ;;
        climbBlocks fuel' document p (getClosestBlock document (key p)) (offset + o)
      else ret (node, offset)
  | _, _ => ret (node, offset)
  end.

Definition splitBlockAtRange (range : Range) (height : option nat) (options : Options)
  : M unit :=
  let height := match height with Some h => h | None => 1%nat end in
  let normalize := normalize_or_true options in
  range <- (if isExpanded range
            then deleteAtRange range (with_normalize normalize) ;; ret (collapseToStart range)
            else ret range) ;;
  let startKey := startKey range in
  let startOffset := startOffset range in
  document <- getDocument ;;
  node <- assertDescendant document startKey ;;
  let parent := getClosestBlock document (key node) in
  r <- climbBlocks height document node parent startOffset ;;
  call (splitNodeByKey (key (fst r)) (snd r) (with_normalize normalize)).

(** *** Structural wrap and unwrap engine *)

(** [data.isSuperset(other)] *)
Definition isSuperset (d other : list (string * string)) : bool :=
  forallb (fun e => existsb (fun x => String.eqb (fst x) (fst e) && String.eqb (snd x) (snd e)) d)
          other.

(** The matching predicate of the two unwrap operations, for wrappers
    of kind [kd]. *)
Definition matchesProperties (kd : Kind) (properties : Properties) (parent : Node) : bool :=
  if negb (Kind_eqb (kind parent) kd) then false
  else if match p_type properties with
          | Some t => negb (String.eqb (node_type parent) t)
          | None => false
          end then false
  else if match p_isVoid properties with
          | Some v => negb (Bool.eqb (node_isVoid parent) v)
          | None => false
          end then false
  else if match p_data properties with
          | Some d => negb (isSuperset (node_data parent) d)
          | None => false
          end then false
  else true.

(** [.filter(exists => exists).toOrderedSet().toList()] *)
Fixpoint toOrderedSet (seen : list Key) (l : list (option Node)) : list Node :=
  match l with
  | [] => []
  | None :: l' => toOrderedSet seen l'
  | Some n :: l' =>
      if existsb (N.eqb (key n)) seen then toOrderedSet seen l'
      else n :: toOrderedSet (key n :: seen) l'
  end.

(** A [forEach] whose body reassigns a variable of the enclosing
    function (here the local [document]). *)
Fixpoint forEachVar {A V} (l : list A) (v : V) (f : A -> V -> M V) : M V :=
  match l with
  | [] => ret v
  | x :: l' => v' <- f x v ;; forEachVar l' v' f
  end.

Definition unwrapBlockAtRange (range : Range) (properties : Properties) (options : Options)
  : M unit :=
  let normalize := normalize_or_true options in
  document <- getDocument ;;
  let blocks := getBlocksAtRange document range in
  let wrappers :=
    toOrderedSet []
      (map (fun block => getClosest document (key block) (matchesProperties KBlock properties))
           blocks) in
  forEachVar wrappers document (fun block document =>
    let first_ := first (nodes block) in
    let last_ := last_opt (nodes block) in
    parent <- must (getParent document (key block)) ;;
    let index := indexOf (nodes parent) block in
    let children :=
      filter (fun child => existsb (fun b => same child b || hasDescendant child (key b)) blocks)
             (nodes block) in
    let firstMatch := first children in
    let lastMatch := last_opt children in
    if osame first_ firstMatch && osame last_ lastMatch then
      forEach (nodes block) (fun child i =>
        call (moveNodeByKey (key child) (key parent) (index + i) OPTS)) ;;
      call (removeNodeByKey (key block) OPTS) ;;
      ret document
    else if osame last_ lastMatch then
      forEach (skipUntil (fun n => osame (Some n) firstMatch) (nodes block)) (fun child i =>
        call (moveNodeByKey (key child) (key parent) (index + 1 + i) OPTS)) ;;
      ret document
    else if osame first_ firstMatch then
      forEach (map Some (takeUntil (fun n => osame (Some n) lastMatch) (nodes block))
               ++ [lastMatch]) (fun child i =>
        child <- must child ;;
        call (moveNodeByKey (key child) (key parent) (index + i) OPTS)) ;;
      ret document
    else
      fm <- must firstMatch ;;
      offset <- must (getOffset block (key fm)) ;;
      call (splitNodeByKey (key block) offset OPTS) ;;
      document <- getDocument ;;
      forEach children (fun child i =>
        child <- (if i =? 0 then
                    let extra := child in
                    let child := getNextBlock document (key child) in
                    call (removeNodeByKey (key extra) OPTS) ;;
                    must child
                  else ret child) ;;
        call (moveNodeByKey (key child) (key parent) (index + 1 + i) OPTS)) ;;
      ret document) ;;
  (* TODO: optmize to only normalize the right block *)
  when normalize (call (normalizeDocument (Some SCHEMA))).

Definition unwrapInlineAtRange (range : Range) (properties : Properties) : M unit :=
  document <- getDocument ;;
  sel <- getSelection ;;
  let selectionLength := endOffset sel - startOffset sel in
  let texts := getTextsAtRange document range in
  let inlines :=
    toOrderedSet []
      (map (fun text => getClosest document (key text) (matchesProperties KInline properties))
           texts) in
  firstInline <- must (first inlines) ;;
  beginning <- must (getPreviousSibling document (key firstInline)) ;;
  let startOffset := node_length beginning in
  forEachVar inlines document (fun inline document =>
    let first_ := first (nodes inline) in
    let last_ := last_opt (nodes inline) in
    parent <- must (getParent document (key inline)) ;;
    let index := indexOf (nodes parent) inline in
    let children := filter (fun child => existsb (fun t => same child t) texts) (nodes inline) in
    let firstMatch := first children in
    let lastMatch := last_opt children in
    call unsetSelection ;;
    if osame first_ firstMatch && osame last_ lastMatch then
      forEach (nodes inline) (fun child i =>
        call (moveNodeByKey (key child) (key parent) (index + i) no_options)) ;;
      call (removeNodeByKey (key inline) no_options) ;;
      ret document
    else if osame last_ lastMatch then
      forEach (skipUntil (fun n => osame (Some n) firstMatch) (nodes inline)) (fun child i =>
        call (moveNodeByKey (key child) (key parent) (index + 1 + i) no_options)) ;;
      ret document
    else if osame first_ firstMatch then
      forEach (map Some (takeUntil (fun n => osame (Some n) lastMatch) (nodes inline))
               ++ [lastMatch]) (fun child i =>
        child <- must child ;;
        call (moveNodeByKey (key child) (key parent) (index + i) no_options)) ;;
      ret document
    else
      fm <- must firstMatch ;;
      offset <- must (getOffset inline (key fm)) ;;
      call (splitNodeByKey (key inline) offset no_options) ;;
      document <- getDocument ;;
      extra <- ret (getPreviousSibling document (key fm)) ;;
      forEach children (fun child i =>
        call (moveNodeByKey (key child) (key parent) (index + 1 + i) no_options)) ;;
      extra <- must extra ;;
      call (removeNodeByKey (key extra) no_options) ;;
      ret document) ;;
  call (moveTo (key beginning) startOffset (key beginning) startOffset) ;;
  call (extendForward selectionLength) ;;
  call (normalizeDocument None).

(** [block.merge({ nodes: block.nodes.clear() })] *)
Definition clearNodes (n : Node) : Node :=
  match n with
  | Text _ _ => n
  | Elem kd k ty v d _ => Elem kd k ty v d []
  end.

(** The [reduce] of [wrapBlockAtRange]: [ind[0]] and [ind[1]] receive the
    index of every child that is, or holds, the first and the last
    block; a later child overwrites an earlier one. *)
Fixpoint wrapIndexes (firstblock lastblock : Node) (i : Z) (l : list Node)
  (ind : option Z * option Z) : option Z * option Z :=
  match l with
  | [] => ind
  | node :: l' =>
      let ind := if same node firstblock || hasDescendant node (key firstblock)
                 then (Some i, snd ind) else ind in
      let ind := if same node lastblock || hasDescendant node (key lastblock)
                 then (fst ind, Some i) else ind in
      wrapIndexes firstblock lastblock (i + 1) l' ind
  end.

Definition isSome {A} (o : option A) : bool :=
  match o with Some _ => true | None => false end.

(** The insertion parent chosen by [wrapBlockAtRange]. *)
Definition wrapParent (document : Node) (blocks : list Node) : M Node :=
  firstblock <- must (first blocks) ;;
  lastblock <- must (last_opt blocks) ;;
  let parent :=
    if size blocks =? 1 then getParent document (key firstblock)
    else getClosest document (key firstblock) (fun p1 =>
           isSome (getClosest document (key lastblock) (fun p2 => same p1 p2))) in
  ret (match parent with Some p => p | None => document end).

(** The siblings enclosed by [wrapBlockAtRange] and the index at which
    the wrapper goes.  An entry of the [reduce] result stays undefined
    only when no child of the parent holds the block; the slice is then
    not defined and the embedding throws. *)
Definition wrapSiblings (parent : Node) (blocks : list Node) : M (Z * list Node) :=
  firstblock <- must (first blocks) ;;
  lastblock <- must (last_opt blocks) ;;
  if size blocks =? 1 then
    ret (indexOf (nodes parent) firstblock, blocks)
  else
    let indexes := wrapIndexes firstblock lastblock 0 (nodes parent) (None, None) in
    i0 <- must (fst indexes) ;;
    i1 <- must (snd indexes) ;;
    ret (i0, slice i0 (i1 + 1) (nodes parent)).

Definition wrapBlockAtRange (range : Range) (block : Node) (options : Options) : M unit :=
  let block := clearNodes block in
  let normalize := normalize_or_true options in
  document <- getDocument ;;
  let blocks := getBlocksAtRange document range in
  parent <- wrapParent document blocks ;;
  r <- wrapSiblings parent blocks ;;
  let index := fst r in
  let siblings := snd r in
  call (insertNodeByKey (key parent) index block OPTS) ;;
  forEach siblings (fun node i =>
    call (moveNodeByKey (key node) (key block) i OPTS)) ;;
  when normalize (call (normalizeNodeByKey (key parent) SCHEMA)).

(** [inline.regenerateKey()] *)
Definition regenerateNode (n : Node) : M Node :=
  fun tr =>
    let (n', c) := regenerateKey n (nextKey tr) in
    Some (n', {| state := state tr; calls := calls tr; nextKey := c |}).

(** [child.key == key ? offset : child.getOffset(key) + offset] *)
Definition offsetUnder (child : Node) (k : Key) (offset : Z) : option Z :=
  if N.eqb (key child) k then Some offset
  else option_map (fun o => o + offset) (getOffset child k).

Definition wrapInlineAtRange (range : Range) (inline : Node) (options : Options) : M unit :=
  document <- getDocument ;;
  let normalize := normalize_or_true options in
  let startKey := startKey range in
  let startOffset := startOffset range in
  let endKey := endKey range in
  let endOffset := endOffset range in
  if isCollapsed range then
    (* Wrapping an inline void *)
    inlineParent <- must (getClosestInline document startKey) ;;
    if negb (node_isVoid inlineParent) then ret tt
    else call (wrapInlineByKey (key inlineParent) inline options)
  else
  let inline := clearNodes inline in
  let blocks := getBlocksAtRange document range in
  startBlock <- must (getClosestBlock document startKey) ;;
  endBlock <- must (getClosestBlock document endKey) ;;
  startChild <- must (getHighestChild startBlock startKey) ;;
  endChild <- must (getHighestChild endBlock endKey) ;;
  let startIndex := indexOf (nodes startBlock) startChild in
  let endIndex := indexOf (nodes endBlock) endChild in
  startOff <- must (offsetUnder startChild startKey startOffset) ;;
  endOff <- must (offsetUnder endChild endKey endOffset) ;;
  if same startBlock endBlock then
    when (negb (endOff =? node_length endChild))
      (call (splitNodeByKey (key endChild) endOff OPTS)) ;;
    when (negb (startOff =? 0))
      (call (splitNodeByKey (key startChild) startOff OPTS)) ;;
    document <- getDocument ;;
    startBlock <- must (getClosestBlock document startKey) ;;
    let startChild := getHighestChild startBlock startKey in
    startInner <- (if startOff =? 0 then ret startChild
                   else (c <- must startChild ;;
                         ret (getNextSibling document (key c)))) ;;
    let startInnerIndex := indexOfOpt (nodes startBlock) startInner in
    let endInner := if N.eqb startKey endKey then startInner
                    else getHighestChild startBlock endKey in
    let inlines :=
      map Some (takeUntil (fun n => osame (Some n) endInner)
                  (skipUntil (fun n => osame (Some n) startInner) (nodes startBlock)))
      ++ [endInner] in
    node <- regenerateNode inline ;;
    call (insertNodeByKey (key startBlock) startInnerIndex node OPTS) ;;
    forEach inlines (fun child i =>
      child <- must child ;;
      call (moveNodeByKey (key child) (key node) i OPTS)) ;;
    when normalize (call (normalizeNodeByKey (key startBlock) SCHEMA))
  else
    call (splitNodeByKey (key startChild) startOff OPTS) ;;
    call (splitNodeByKey (key endChild) endOff OPTS) ;;
    document <- getDocument ;;
    startBlock <- must (getDescendant document (key startBlock)) ;;
    endBlock <- must (getDescendant document (key endBlock)) ;;
    let startInlines := sliceFrom (startIndex + 1) (nodes startBlock) in
    let endInlines := slice 0 (endIndex + 1) (nodes endBlock) in
    startNode <- regenerateNode inline ;;
    endNode <- regenerateNode inline ;;
    call (insertNodeByKey (key startBlock) (startIndex - 1) startNode OPTS) ;;
    call (insertNodeByKey (key endBlock) endIndex endNode OPTS) ;;
    forEach startInlines (fun child i =>
      call (moveNodeByKey (key child) (key startNode) i OPTS)) ;;
    forEach endInlines (fun child i =>
      call (moveNodeByKey (key child) (key endNode) i OPTS)) ;;
    when normalize
      (call (normalizeNodeByKey (key startBlock) SCHEMA) ;;
       call (normalizeNodeByKey (key endBlock) SCHEMA)) ;;
    forEach (slice 1 (-1) blocks) (fun block _ =>
      node <- regenerateNode inline ;;
      call (insertNodeByKey (key block) 0 node OPTS) ;;
      forEach (nodes block) (fun child i =>
        call (moveNodeByKey (key child) (key node) i OPTS)) ;;
      when normalize (call (normalizeNodeByKey (key block) SCHEMA))).

(** [prefix.length] *)
Definition string_length (s : string) : Z := Z.of_nat (String.length s).

Definition wrapTextAtRange (range : Range) (prefix : string) (suffix : option string)
  (options : Options) : M unit :=
  let suffix := match suffix with Some s => s | None => prefix end in
  let normalize := normalize_or_true options in
  let start := collapseToStart range in
  let end_ := collapseToEnd range in
  let end_ := if N.eqb (startKey range) (endKey range)
              then moveForward (string_length prefix) end_ else end_ in
  insertTextAtRange start prefix [] (with_normalize normalize) ;;
  insertTextAtRange end_ suffix [] (with_normalize normalize).

End AtRange.

(** ** Directional deletion, property setting and inline splitting *)

(** What these functions consult beyond the collaborators above: the
    inlines spanned by a range, the getters [state.startOffset] and
    [state.startBlock] of the state, and the text-boundary utilities
    [String.getCharOffsetBackward] and the like.  They are other
    modules of the repository and are taken as an interface. *)
Class Boundaries := {
  getInlinesAtRange : Node -> Range -> list Node;
  state_startOffset : State -> Z;
  state_startBlock : State -> option Node;
  getCharOffsetBackward : string -> Z -> Z;
  getCharOffsetForward : string -> Z -> Z;
  getWordOffsetBackward : string -> Z -> Z;
  getWordOffsetForward : string -> Z -> Z
}.

(** [const { state } = transform] *)
Definition getState : M State := fun tr => Some (state tr, tr).

(** [node && node.isVoid]: the node, when there is one and it is void. *)
Definition voidNode (o : option Node) : option Node :=
  match o with
  | Some n => if node_isVoid n then Some n else None
  | None => None
  end.

(** The outcome of a loop that is run on fuel. *)
Inductive Outcome := Finished | OutOfFuel.

Section Directional.

Context {C : Collaborators} {B : Boundaries}.

Definition deleteBackwardAtRange (range : Range) (n : option Z) (options : Options)
  : M unit :=
  let n := match n with Some n => n | None => 1 end in
  let normalize := normalize_or_true options in
  document <- getDocument ;;
  let startKey := startKey range in
  let focusOffset := focusOffset range in
  (* If the range is expanded, perform a regular delete instead. *)
  if isExpanded range then deleteAtRange range (with_normalize normalize) else
  (* If the closest block is void, delete it. *)
  let block := getClosestBlock document startKey in
  match voidNode block with
  | Some b => call (removeNodeByKey (key b) (with_normalize normalize))
  | None =>
  (* If the closest inline is void, delete it. *)
  let inline := getClosestInline document startKey in
  match voidNode inline with
  | Some i => call (removeNodeByKey (key i) (with_normalize normalize))
  | None =>
  (* If the range is at the start of the document, abort. *)
  if isAtStartOf range document then ret tt else
  text <- must (getDescendant document startKey) ;;
  if isAtStartOf range text then
    prev <- must (getPreviousText document (key text)) ;;
    let prevBlock := getClosestBlock document (key prev) in
    let prevInline := getClosestInline document (key prev) in
    (* If the previous block is void, remove it. *)
    match voidNode prevBlock with
    | Some b => call (removeNodeByKey (key b) (with_normalize normalize))
    | None =>
    (* If the previous inline is void, remove it. *)
    match voidNode prevInline with
    | Some i => call (removeNodeByKey (key i) (with_normalize normalize))
    | None =>
    let range :=
      {| anchorKey := key prev;
         anchorOffset := if osame prevBlock block
                         then node_length prev - 1 else node_length prev;
         focusKey := focusKey range; focusOffset := focusOffset;
         isBackward := isBackward range |} in
    deleteAtRange range (with_normalize normalize)
    end end
  else
    (* Otherwise, just remove a character backwards. *)
    let range :=
      {| anchorKey := anchorKey range; anchorOffset := anchorOffset range;
         focusKey := focusKey range; focusOffset := focusOffset - n;
         isBackward := true |} in
    deleteAtRange range (with_normalize normalize)
  end end.

Definition deleteForwardAtRange (range : Range) (n : option Z) (options : Options)
  : M unit :=
  let n := match n with Some n => n | None => 1 end in
  let normalize := normalize_or_true options in
  document <- getDocument ;;
  let startKey := startKey range in
  let focusOffset := focusOffset range in
  if isExpanded range then deleteAtRange range (with_normalize normalize) else
  let block := getClosestBlock document startKey in
  match voidNode block with
  | Some b => call (removeNodeByKey (key b) (with_normalize normalize))
  | None =>
  let inline := getClosestInline document startKey in
  match voidNode inline with
  | Some i => call (removeNodeByKey (key i) (with_normalize normalize))
  | None =>
  if isAtEndOf range document then ret tt else
  text <- must (getDescendant document startKey) ;;
  if isAtEndOf range text then
    next <- must (getNextText document (key text)) ;;
    let nextBlock := getClosestBlock document (key next) in
    let nextInline := getClosestInline document (key next) in
    match voidNode nextBlock with
    | Some b => call (removeNodeByKey (key b) (with_normalize normalize))
    | None =>
    match voidNode nextInline with
    | Some i => call (removeNodeByKey (key i) (with_normalize normalize))
    | None =>
    let range :=
      {| anchorKey := anchorKey range; anchorOffset := anchorOffset range;
         focusKey := key next;
         focusOffset := if osame nextBlock block then 1 else 0;
         isBackward := isBackward range |} in
    deleteAtRange range (with_normalize normalize)
    end end
  else
    let range :=
      {| anchorKey := anchorKey range; anchorOffset := anchorOffset range;
         focusKey := focusKey range; focusOffset := focusOffset + n;
         isBackward := isBackward range |} in
    deleteAtRange range (with_normalize normalize)
  end end.

(** The six variants read the offset and the block off the selection of
    the state, not off the range they are given. *)
Definition deleteCharBackwardAtRange (range : Range) (options : Options) : M unit :=
  st <- getState ;;
  let startOffset := state_startOffset st in
  startBlock <- must (state_startBlock st) ;;
  let text := node_text startBlock in
  let n := getCharOffsetBackward text startOffset in
  deleteBackwardAtRange range (Some n) options.

Definition deleteLineBackwardAtRange (range : Range) (options : Options) : M unit :=
  st <- getState ;;
  let startOffset := state_startOffset st in
  deleteBackwardAtRange range (Some startOffset) options.

Definition deleteWordBackwardAtRange (range : Range) (options : Options) : M unit :=
  st <- getState ;;
  let startOffset := state_startOffset st in
  startBlock <- must (state_startBlock st) ;;
  let text := node_text startBlock in
  let n := getWordOffsetBackward text startOffset in
  deleteBackwardAtRange range (Some n) options.

Definition deleteCharForwardAtRange (range : Range) (options : Options) : M unit :=
  st <- getState ;;
  let startOffset := state_startOffset st in
  startBlock <- must (state_startBlock st) ;;
  let text := node_text startBlock in
  let n := getCharOffsetForward text startOffset in
  deleteForwardAtRange range (Some n) options.

Definition deleteLineForwardAtRange (range : Range) (options : Options) : M unit :=
  st <- getState ;;
  let startOffset := state_startOffset st in
  startBlock <- must (state_startBlock st) ;;
  deleteForwardAtRange range (Some (node_length startBlock - startOffset)) options.

Definition deleteWordForwardAtRange (range : Range) (options : Options) : M unit :=
  st <- getState ;;
  let startOffset := state_startOffset st in
  startBlock <- must (state_startBlock st) ;;
  let text := node_text startBlock in
  let n := getWordOffsetForward text startOffset in
  deleteForwardAtRange range (Some n) options.

Definition setBlockAtRange (range : Range) (properties : Properties) (options : Options)
  : M unit :=
  let normalize := normalize_or_true options in
  document <- getDocument ;;
  let blocks := getBlocksAtRange document range in
  forEach blocks (fun block _ =>
    call (setNodeByKey (key block) properties (with_normalize normalize))).

Definition setInlineAtRange (range : Range) (properties : Properties) (options : Options)
  : M unit :=
  let normalize := normalize_or_true options in
  document <- getDocument ;;
  let inlines := getInlinesAtRange document range in
  forEach inlines (fun inline _ =>
    call (setNodeByKey (key inline) properties (with_normalize normalize))).

(** [h < height], where [height] is [None] for [Infinity]. *)
Definition belowHeight (h : nat) (height : option nat) : bool :=
  match height with
  | Some n => (h <? n)%nat
  | None => true
  end.

(** The [while] loop of [splitInlineAtRange]: climb while the parent is
    an inline and [h < height].  With the default height, [Infinity],
    nothing in the function bounds the number of turns, so the loop is
    run on [fuel], one unit a turn, and answers [None] when the fuel is
    used up before the loop condition fails. *)
Fixpoint climbInlines (fuel : nat) (height : option nat) (h : nat) (document node : Node)
  (parent : option Node) (offset : Z) {struct fuel} : M (option (Node * Z)) :=
  match parent with
  | Some p =>
      if Kind_eqb (kind p) KInline && belowHeight h height then
        match fuel with
        | O => ret None
        | S fuel' =>
            o <- must (getOffset p (key node)) ;;
            climbInlines fuel' height (S h) document p
              (getClosestInline document (key p)) (offset + o)
        end
      else ret (Some (node, offset))
  | None => ret (Some (node, offset))
  end.

Definition splitInlineAtRange (fuel : nat) (range : Range) (height : option nat)
  (options : Options) : M Outcome :=
  let normalize := normalize_or_true options in
  range <- (if isExpanded range
            then deleteAtRange range (with_normalize normalize) ;; ret (collapseToStart range)
            else ret range) ;;
  let startKey := startKey range in
  let startOffset := startOffset range in
  document <- getDocument ;;
  node <- assertDescendant document startKey ;;
  let parent := getClosestInline document (key node) in
  r <- climbInlines fuel height 0 document node parent startOffset ;;
  match r with
  | Some (node, offset) =>
      call (splitNodeByKey (key node) offset (with_normalize normalize)) ;;
      ret Finished
  | None => ret OutOfFuel
  end.

End Directional.

(** ** A model of the collaborators

    The node queries, the selection predicates and the primitive layer
    live in other modules of the repository.  This module gives them
    definitions after the spec, to run the functions of the file on
    concrete documents and to state what they do to the keys. *)
Module Model.

(** Modelled from the spec: the descendants of a node, each parent
    before its children, in document order (the receiver excluded). *)
Fixpoint descendants (n : Node) : list Node :=
  match n with
  | Text _ _ => []
  | Elem _ _ _ _ _ ns => flat_map (fun c => c :: descendants c) ns
  end.

(** Modelled from the spec: the text leaves below a node, in document
    order (a leaf is its own only text). *)
Fixpoint getTexts (n : Node) : list Node :=
  match n with
  | Text _ _ => [n]
  | Elem _ _ _ _ _ ns => flat_map getTexts ns
  end.

Definition hasKey (k : Key) (n : Node) : bool := N.eqb (key n) k.

(** Modelled from the spec: descendant lookup by key. *)
Definition getDescendant (n : Node) (k : Key) : option Node :=
  find (hasKey k) (descendants n).

Definition hasDescendant (n : Node) (k : Key) : bool :=
  existsb (hasKey k) (descendants n).

(** Modelled from the spec: the chain of ancestors of the node with key
    [k], from the receiver down to the node's parent. *)
Fixpoint getAncestors (n : Node) (k : Key) : option (list Node) :=
  match n with
  | Text _ _ => None
  | Elem _ _ _ _ _ ns =>
      if existsb (hasKey k) ns then Some [n]
      else
        (fix go (l : list Node) : option (list Node) :=
           match l with
           | [] => None
           | c :: l' =>
               match getAncestors c k with
               | Some a => Some (n :: a)
               | None => go l'
               end
           end) ns
  end.

(** Modelled from the spec: the parent of a node, the last of its
    ancestors. *)
Definition getParent (n : Node) (k : Key) : option Node :=
  match getAncestors n k with
  | Some a => last_opt a
  | None => None
  end.

(** Modelled from the spec: the closest and the furthest ancestor
    matching a predicate; the receiver itself is not a candidate. *)
Definition getClosest (n : Node) (k : Key) (p : Node -> bool) : option Node :=
  match getAncestors n k with
  | Some a => find p (rev (tl a))
  | None => None
  end.

Definition getFurthest (n : Node) (k : Key) (p : Node -> bool) : option Node :=
  match getAncestors n k with
  | Some a => find p (tl a)
  | None => None
  end.

Definition isKind (kd : Kind) (n : Node) : bool := Kind_eqb (kind n) kd.

(** Modelled from the spec: the closest block and the closest inline
    containing a key. *)
Definition getClosestBlock (n : Node) (k : Key) : option Node := getClosest n k (isKind KBlock).
Definition getClosestInline (n : Node) (k : Key) : option Node := getClosest n k (isKind KInline).

Fixpoint commonPrefix (a b : list Node) : list Node :=
  match a, b with
  | x :: a', y :: b' => if same x y then x :: commonPrefix a' b' else []
  | _, _ => []
  end.

(** Modelled from the spec: the common ancestor of two keys, the
    deepest node that is an ancestor of both. *)
Definition getCommonAncestor (n : Node) (k1 k2 : Key) : option Node :=
  match getAncestors n k1, getAncestors n k2 with
  | Some a, Some b => last_opt (commonPrefix a b)
  | _, _ => None
  end.

(** Modelled from the spec: the highest child containing a key, the
    direct child that is, or holds, the node with that key. *)
Definition getHighestChild (n : Node) (k : Key) : option Node :=
  find (fun c => hasKey k c || hasDescendant c k) (nodes n).

(** Modelled from the spec: the offset of a descendant relative to the
    start of the receiver, the number of characters before it. *)
Fixpoint getOffset (n : Node) (k : Key) : option Z :=
  match n with
  | Text _ _ => None
  | Elem _ _ _ _ _ ns =>
      (fix go (l : list Node) (acc : Z) : option Z :=
         match l with
         | [] => None
         | c :: l' =>
             if hasKey k c then Some acc
             else match getOffset c k with
                  | Some o => Some (acc + o)
                  | None => go l' (acc + node_length c)
                  end
         end) ns 0
  end.

(** The element that follows the first one satisfying [p]. *)
Fixpoint after {A} (p : A -> bool) (l : list A) : option A :=
  match l with
  | [] => None
  | x :: l' => if p x then hd_error l' else after p l'
  end.

(** The element that precedes the first one satisfying [p]. *)
Fixpoint before {A} (p : A -> bool) (prev : option A) (l : list A) : option A :=
  match l with
  | [] => None
  | x :: l' => if p x then prev else before p (Some x) l'
  end.

(** Modelled from the spec: next and previous text leaf. *)
Definition getNextText (n : Node) (k : Key) : option Node := after (hasKey k) (getTexts n).
Definition getPreviousText (n : Node) (k : Key) : option Node :=
  before (hasKey k) None (getTexts n).

(** Modelled from the spec: next and previous sibling, among the
    children of the node's parent. *)
Definition getNextSibling (n : Node) (k : Key) : option Node :=
  match getParent n k with
  | Some p => after (hasKey k) (nodes p)
  | None => None
  end.

Definition getPreviousSibling (n : Node) (k : Key) : option Node :=
  match getParent n k with
  | Some p => before (hasKey k) None (nodes p)
  | None => None
  end.

(** Modelled from the spec: the block after the block of a node, the
    closest block of the text that follows the block's last text. *)
Definition getNextBlock (n : Node) (k : Key) : option Node :=
  match getDescendant n k with
  | None => None
  | Some child =>
      let block := if isKind KBlock child then Some child else getClosestBlock n k in
      match block with
      | None => None
      | Some b =>
          match last_opt (getTexts b) with
          | None => None
          | Some t =>
              match getNextText n (key t) with
              | None => None
              | Some nx => getClosestBlock n (key nx)
              end
          end
      end
  end.

(** The children of every node with the node of key [k] replaced by
    the nodes [repl]. *)
Fixpoint splice (k : Key) (repl : list Node) (n : Node) : Node :=
  match n with
  | Text _ _ => n
  | Elem kd k0 ty v d ns =>
      Elem kd k0 ty v d
        (flat_map (fun c => if hasKey k c then repl else [splice k repl c]) ns)
  end.

(** Modelled from the spec: removal of a descendant; a missing key is
    an integrity fault. *)
Definition removeDescendant (n : Node) (k : Key) : option Node :=
  if hasDescendant n k then Some (splice k [] n) else None.

Fixpoint indexOfKey (k : Key) (i : Z) (l : list Node) : Z :=
  match l with
  | [] => -1
  | x :: l' => if hasKey k x then i else indexOfKey k (i + 1) l'
  end.

(** Modelled from the spec: the text leaves spanned by a range, from the
    start leaf to the end leaf in document order. *)
Definition getTextsAtRange (n : Node) (r : Range) : list Node :=
  let texts := getTexts n in
  let start := indexOfKey (startKey r) 0 texts in
  let end_ := indexOfKey (endKey r) 0 texts in
  slice start (end_ + 1) texts.

(** Modelled from the spec: the blocks spanned by a range, the closest
    blocks of the spanned leaves, each once. *)
Definition getBlocksAtRange (n : Node) (r : Range) : list Node :=
  toOrderedSet [] (map (fun t => getClosestBlock n (key t)) (getTextsAtRange n r)).

(** Modelled from the spec: the blocks of a fragment, the closest
    blocks of its leaves, each once. *)
Definition getBlocks (n : Node) : list Node :=
  toOrderedSet [] (map (fun t => getClosestBlock n (key t)) (getTexts n)).

Definition characters (n : Node) : list Character :=
  match n with Text _ cs => cs | Elem _ _ _ _ _ _ => [] end.

(** The characters of a spanned leaf that lie in the range: those of
    the leaf-local interval the range covers, which is the whole leaf
    unless the leaf is the start or the end leaf. *)
Definition charactersIn (r : Range) (t : Node) : list Character :=
  firstn (Z.to_nat (leafLength r t)) (skipn (Z.to_nat (leafIndex r t)) (characters t)).

(** The marks a spanned leaf carries on its text in the range. *)
Definition leafMarksIn (r : Range) (t : Node) : list Mark :=
  flat_map marks (charactersIn r t).

(** Modelled from the spec: the marks at a range, "the set of marks
    present across all text in the range": the marks of the characters
    of the spanned leaves that lie in the range.  A mark is present as
    soon as one spanned leaf carries it there; a mark that a boundary
    leaf carries only outside the range is not. *)
Definition getMarksAtRange (n : Node) (r : Range) : list Mark :=
  flat_map (leafMarksIn r) (getTextsAtRange n r).

(** Modelled from the spec: [isAtStartOf] and [isAtEndOf], the range
    starts at offset 0 of the node's first leaf, or ends at the end of
    its last leaf. *)
Definition isAtStartOf (r : Range) (n : Node) : bool :=
  match first (getTexts n) with
  | Some t => N.eqb (startKey r) (key t) && (startOffset r =? 0)
  | None => false
  end.

Definition isAtEndOf (r : Range) (n : Node) : bool :=
  match last_opt (getTexts n) with
  | Some t => N.eqb (endKey r) (key t) && (endOffset r =? node_length t)
  | None => false
  end.

(** *** The primitive layer *)

(** The text leaf with key [k] rebuilt by [f]. *)
Fixpoint updateText (k : Key) (f : list Character -> list Character) (n : Node) : Node :=
  match n with
  | Text k0 cs => if N.eqb k0 k then Text k0 (f cs) else n
  | Elem kd k0 ty v d ns => Elem kd k0 ty v d (map (updateText k f) ns)
  end.

Fixpoint mapRange {A} (f : A -> A) (i : Z) (index length : Z) (l : list A) : list A :=
  match l with
  | [] => []
  | x :: l' =>
      (if (index <=? i) && (i <? index + length) then f x else x)
      :: mapRange f (i + 1) index length l'
  end.

Definition addMark (m : Mark) (c : Character) : Character :=
  if existsb (fun x => mark_equals x m) (marks c) then c
  else {| char := char c; marks := marks c ++ [m] |}.

Definition removeMark (m : Mark) (c : Character) : Character :=
  {| char := char c; marks := filter (fun x => negb (mark_equals x m)) (marks c) |}.

Definition removeChars (index length : Z) (cs : list Character) : list Character :=
  firstn (Z.to_nat index) cs ++ skipn (Z.to_nat (Z.max index 0 + Z.max length 0)) cs.

Definition insertChars (offset : Z) (text : string) (ms : list Mark) (cs : list Character)
  : list Character :=
  firstn (Z.to_nat offset) cs
  ++ map (fun a => {| char := a; marks := ms |}) (list_ascii_of_string text)
  ++ skipn (Z.to_nat offset) cs.

(** [list.insert(index, x)]: a negative index counts from the end and
    an index beyond the end appends. *)
Definition listInsert {A} (index : Z) (x : A) (l : list A) : list A :=
  let i := if index <? 0 then Z.max 0 (size l + index) else Z.min index (size l) in
  firstn (Z.to_nat i) l ++ x :: skipn (Z.to_nat i) l.

Definition setNodes (n : Node) (ns : list Node) : Node :=
  match n with
  | Text _ _ => n
  | Elem kd k ty v d _ => Elem kd k ty v d ns
  end.

(** Modelled from the spec: [insertNodeByKey(parentKey, index, node)]
    places the node at [index] among the children of the container
    with that key, which may be the receiver, and puts the rebuilt
    container back in its place; a missing parent, or a text leaf for
    parent, is an integrity fault. *)
Definition insertNode (d : Node) (pk : Key) (index : Z) (x : Node) : option Node :=
  if hasKey pk d then
    match d with
    | Text _ _ => None
    | Elem _ _ _ _ _ ns => Some (setNodes d (listInsert index x ns))
    end
  else
    match getDescendant d pk with
    | Some (Elem kd k ty v dt ns) =>
        Some (splice pk [Elem kd k ty v dt (listInsert index x ns)] d)
    | _ => None
    end.

(** Modelled from the spec: [moveNodeByKey(key, newParentKey, newIndex)]
    takes the node out of its place and inserts it under the new
    parent. *)
Definition moveNode (d : Node) (k nk : Key) (index : Z) : option Node :=
  match getDescendant d k with
  | Some x => insertNode (splice k [] d) nk index x
  | None => None
  end.

(** The text leaf holding offset [off] of a node: the first leaf that
    ends after the offset, or the last leaf at the very end; with the
    offset local to that leaf. *)
Fixpoint textAtOffset (texts : list Node) (off : Z) : option (Node * Z) :=
  match texts with
  | [] => None
  | [t] => Some (t, off)
  | t :: l => if off <? node_length t then Some (t, off) else textAtOffset l (off - node_length t)
  end.

(** The two halves of a node split at index [i] of its leaf [tk]; the
    first half keeps the keys and the second is re-keyed from the
    generator, leaf first. *)
Fixpoint splitPath (tk : Key) (i : Z) (n : Node) (c : N) : option (Node * Node * N) :=
  match n with
  | Text k cs =>
      if N.eqb k tk
      then Some (Text k (firstn (Z.to_nat i) cs), Text c (skipn (Z.to_nat i) cs), N.succ c)
      else None
  | Elem kd k ty v d ns =>
      (fix go (before l : list Node) : option (Node * Node * N) :=
         match l with
         | [] => None
         | x :: l' =>
             match splitPath tk i x c with
             | Some (one, two, c') =>
                 Some (Elem kd k ty v d (rev before ++ [one]),
                       Elem kd c' ty v d (two :: l'), N.succ c')
             | None => go (x :: before) l'
             end
         end) [] ns
  end.

(** Modelled from the spec: [splitNodeByKey(key, offset)] splits the
    node at the offset, "producing two siblings"; the new sibling gets
    regenerated keys "to avoid collisions". *)
Definition splitNode (d : Node) (k : Key) (off : Z) (c : N) : option (Node * N) :=
  match getDescendant d k with
  | None => None
  | Some x =>
      match textAtOffset (getTexts x) off with
      | None => None
      | Some (t, i) =>
          match splitPath (key t) i x c with
          | Some (one, two, c') => Some (splice k [one; two] d, c')
          | None => None
          end
      end
  end.

Definition setProperties (p : Properties) (n : Node) : Node :=
  match n with
  | Text _ _ => n
  | Elem kd k ty v d ns =>
      Elem kd k (match p_type p with Some t => t | None => ty end)
           (match p_isVoid p with Some b => b | None => v end)
           (match p_data p with Some x => x | None => d end) ns
  end.

Definition onText (d : Node) (k : Key) (f : list Character -> list Character) : option Node :=
  match getDescendant d k with
  | Some (Text _ _) => Some (updateText k f d)
  | _ => None
  end.

(** Modelled from the spec: the effect of one primitive call on the
    document.  The normalization passes belong to the schema engine,
    which is outside the modelled layer: they are recorded as calls and
    repair nothing here, whatever the [normalize] option. *)
Definition performOnDocument (c : Call) (d : Node) (g : N) : option (Node * N) :=
  match c with
  | addMarkByKey k index length m _ =>
      option_map (fun d' => (d', g)) (onText d k (mapRange (addMark m) 0 index length))
  | removeMarkByKey k index length m _ =>
      option_map (fun d' => (d', g)) (onText d k (mapRange (removeMark m) 0 index length))
  | removeTextByKey k index length _ =>
      option_map (fun d' => (d', g)) (onText d k (removeChars index length))
  | insertTextByKey k offset text ms _ =>
      option_map (fun d' => (d', g)) (onText d k (insertChars offset text ms))
  | splitNodeByKey k off _ => splitNode d k off g
  | removeNodeByKey k _ => option_map (fun d' => (d', g)) (removeDescendant d k)
  | insertNodeByKey pk index x _ => option_map (fun d' => (d', g)) (insertNode d pk index x)
  | moveNodeByKey k nk index _ => option_map (fun d' => (d', g)) (moveNode d k nk index)
  | setNodeByKey k p _ =>
      match getDescendant d k with
      | Some x => Some (splice k [setProperties p x] d, g)
      | None => None
      end
  | wrapInlineByKey k w _ =>
      match getDescendant d k, w with
      | Some x, Elem kd wk ty v dt _ => Some (splice k [Elem kd wk ty v dt [x]] d, g)
      | _, _ => None
      end
  | normalizeNodeByKey _ _ | normalizeDocument _ => Some (d, g)
  | unsetSelection | moveTo _ _ _ _ | extendForward _ => Some (d, g)
  end.

(** Modelled from the spec: the selection after a call.  Only the
    selection transforms move it; a cleared selection is kept as the
    collapsed range at offset 0 of the document node. *)
Definition performOnSelection (c : Call) (d : Node) (s : Range) : Range :=
  match c with
  | unsetSelection =>
      {| anchorKey := key d; anchorOffset := 0; focusKey := key d; focusOffset := 0;
         isBackward := false |}
  | moveTo ak ao fk fo =>
      {| anchorKey := ak; anchorOffset := ao; focusKey := fk; focusOffset := fo;
         isBackward := false |}
  | extendForward n =>
      {| anchorKey := anchorKey s; anchorOffset := anchorOffset s;
         focusKey := focusKey s; focusOffset := focusOffset s + n;
         isBackward := isBackward s |}
  | _ => s
  end.

(** Modelled from the spec: one call of the primitive layer, on the
    document and on the selection. *)
Definition perform (c : Call) (st : State) (g : N) : option (State * N) :=
  match performOnDocument c (document st) g with
  | Some (d, g') =>
      Some ({| document := d; selection := performOnSelection c d (selection st) |}, g')
  | None => None
  end.

(** Every key of a node: its own and those of its descendants, in
    document order. *)
Fixpoint keysOf (n : Node) : list Key :=
  match n with
  | Text k _ => [k]
  | Elem _ k _ _ _ ns => k :: flat_map keysOf ns
  end.

(** Key uniqueness: no key occurs twice in the document, and every key
    was issued by the generator, so lies below its counter. *)
Definition uniqueKeys (d : Node) : Prop := NoDup (keysOf d).

Definition issuedBelow (g : N) (ks : list Key) : Prop := Forall (fun k => (k < g)%N) ks.

(** The leaf carries a mark equal to [mark] on its text in the range. *)
Definition carriesIn (r : Range) (t : Node) (mark : Mark) : bool :=
  existsb (fun m => mark_equals m mark) (leafMarksIn r t).

#[export] Instance collaborators : Collaborators :=
  Build_Collaborators getTextsAtRange getBlocksAtRange getMarksAtRange getBlocks
    getCommonAncestor getHighestChild getOffset getDescendant getParent
    getClosestBlock getClosestInline getClosest getFurthest getNextText
    getPreviousText getNextSibling getPreviousSibling getNextBlock hasDescendant
    removeDescendant isAtStartOf isAtEndOf perform.

(** Modelled from the spec: the inlines spanned by a range, the closest
    inlines of the spanned leaves, each once. *)
Definition getInlinesAtRange (n : Node) (r : Range) : list Node :=
  toOrderedSet [] (map (fun t => getClosestInline n (key t)) (getTextsAtRange n r)).

(** Modelled from the spec: the state's view of its selection, the
    start offset and "the current block", the closest block of the
    start key. *)
Definition state_startOffset (st : State) : Z := startOffset (selection st).

Definition state_startBlock (st : State) : option Node :=
  getClosestBlock (document st) (startKey (selection st)).

(** Modelled from the spec: the text-boundary utilities, "forward /
    backward character-offset, forward / backward word-offset, given a
    string and a position".  The characters of this model are one code
    unit long, so that a character offset is 1; a word offset counts
    the spaces next to the position and the run of other characters
    behind them. *)
Fixpoint wordOffset (started : bool) (l : list ascii) : Z :=
  match l with
  | [] => 0
  | c :: l' =>
      if Ascii.eqb c " "%char
      then (if started then 0 else 1 + wordOffset false l')
      else 1 + wordOffset true l'
  end.

Definition getCharOffsetBackward (text : string) (offset : Z) : Z := 1.
Definition getCharOffsetForward (text : string) (offset : Z) : Z := 1.

Definition getWordOffsetBackward (text : string) (offset : Z) : Z :=
  wordOffset false (rev (firstn (Z.to_nat offset) (list_ascii_of_string text))).

Definition getWordOffsetForward (text : string) (offset : Z) : Z :=
  wordOffset false (skipn (Z.to_nat offset) (list_ascii_of_string text)).

#[export] Instance boundaries : Boundaries :=
  Build_Boundaries getInlinesAtRange state_startOffset state_startBlock
    getCharOffsetBackward getCharOffsetForward getWordOffsetBackward getWordOffsetForward.

End Model.

(** ** Sequences of calls *)

Section Traces.

Context {C : Collaborators}.

(** The calls [cs] issued one after the other. *)
Definition callAll (cs : list Call) : M unit := forEach cs (fun c _ => call c).

(** [l.map((x, i) => f(x, i))], the index counted from [i]. *)
Fixpoint mapiFrom {A B} (i : Z) (f : A -> Z -> B) (l : list A) : list B :=
  match l with
  | [] => []
  | x :: l' => f x i :: mapiFrom (i + 1) f l'
  end.

Definition mapi {A B} (f : A -> Z -> B) (l : list A) : list B := mapiFrom 0 f l.

(** The child is the block, or holds it below. *)
Definition holds (child b : Node) : bool := same child b || hasDescendant child (key b).

(** The final normalization of a composite operation on node [k]. *)
Definition finish (normalize : bool) (k : Key) : list Call :=
  if normalize then [normalizeNodeByKey k SCHEMA] else [].

(** The children of the wrapper that are, or hold, one of the blocks. *)
Definition matchedChildren (blocks : list Node) (w : Node) : list Node :=
  filter (fun child => existsb (fun b => same child b || hasDescendant child (key b)) blocks)
    (nodes w).

(** The first, respectively last, child of the wrapper is among them. *)
Definition coversFirst (blocks : list Node) (w : Node) : bool :=
  osame (first (nodes w)) (first (matchedChildren blocks w)).

Definition coversLast (blocks : list Node) (w : Node) : bool :=
  osame (last_opt (nodes w)) (last_opt (matchedChildren blocks w)).

(** The calls that unwrap the matched children of a wrapper [w] whose
    first or last child is matched, with the parent and the index read
    off the document [d]: all the children go to the wrapper's place
    and the wrapper is removed when both are; the children from the
    first matched one on go after the wrapper when only the last is;
    the children up to the last matched one go before it when only the
    first is. *)
Definition unwrapCalls (d : Node) (blocks : list Node) (w : Node) : list Call :=
  match getParent d (key w) with
  | Some parent =>
      let index := indexOf (nodes parent) w in
      let children := matchedChildren blocks w in
      if coversFirst blocks w && coversLast blocks w then
        mapi (fun child i => moveNodeByKey (key child) (key parent) (index + i) OPTS)
          (nodes w)
        ++ [removeNodeByKey (key w) OPTS]
      else if coversLast blocks w then
        mapi (fun child i => moveNodeByKey (key child) (key parent) (index + 1 + i) OPTS)
          (skipUntil (fun n => osame (Some n) (first children)) (nodes w))
      else
        mapi (fun child i => moveNodeByKey (key child) (key parent) (index + i) OPTS)
          (takeUntil (fun n => osame (Some n) (last_opt children)) (nodes w)
           ++ match last_opt children with Some lm => [lm] | None => [] end)
  | None => []
  end.

End Traces.

(** ** The functions of the file as values *)

(** A call of one of the exported functions of the file, with its
    arguments.  [splitInlineAtRange] comes with the fuel of its loop. *)
Inductive Operation :=
| AddMarkAtRange (range : Range) (mark : Mark) (options : Options)
| DeleteAtRange (range : Range) (options : Options)
| DeleteCharBackwardAtRange (range : Range) (options : Options)
| DeleteLineBackwardAtRange (range : Range) (options : Options)
| DeleteWordBackwardAtRange (range : Range) (options : Options)
| DeleteBackwardAtRange (range : Range) (n : option Z) (options : Options)
| DeleteCharForwardAtRange (range : Range) (options : Options)
| DeleteLineForwardAtRange (range : Range) (options : Options)
| DeleteWordForwardAtRange (range : Range) (options : Options)
| DeleteForwardAtRange (range : Range) (n : option Z) (options : Options)
| InsertBlockAtRange (range : Range) (block : Node) (options : Options)
| InsertFragmentAtRange (range : Range) (fragment : Node) (options : Options)
| InsertInlineAtRange (range : Range) (inline : Node) (options : Options)
| InsertTextAtRange (range : Range) (text : string) (marks : list Mark) (options : Options)
| RemoveMarkAtRange (range : Range) (mark : Mark) (options : Options)
| SetBlockAtRange (range : Range) (properties : Properties) (options : Options)
| SetInlineAtRange (range : Range) (properties : Properties) (options : Options)
| SplitBlockAtRange (range : Range) (height : option nat) (options : Options)
| SplitInlineAtRange (fuel : nat) (range : Range) (height : option nat) (options : Options)
| ToggleMarkAtRange (range : Range) (mark : Mark) (options : Options)
| UnwrapBlockAtRange (range : Range) (properties : Properties) (options : Options)
| UnwrapInlineAtRange (range : Range) (properties : Properties)
| WrapBlockAtRange (range : Range) (block : Node) (options : Options)
| WrapInlineAtRange (range : Range) (inline : Node) (options : Options)
| WrapTextAtRange (range : Range) (prefix : string) (suffix : option string)
    (options : Options).

Section Operations.

Context {C : Collaborators} {B : Boundaries}.

(** Makes the call. *)
Definition run (op : Operation) : M unit :=
  match op with
  | AddMarkAtRange range mark options => addMarkAtRange range mark options
  | DeleteAtRange range options => deleteAtRange range options
  | DeleteCharBackwardAtRange range options => deleteCharBackwardAtRange range options
  | DeleteLineBackwardAtRange range options => deleteLineBackwardAtRange range options
  | DeleteWordBackwardAtRange range options => deleteWordBackwardAtRange range options
  | DeleteBackwardAtRange range n options => deleteBackwardAtRange range n options
  | DeleteCharForwardAtRange range options => deleteCharForwardAtRange range options
  | DeleteLineForwardAtRange range options => deleteLineForwardAtRange range options
  | DeleteWordForwardAtRange range options => deleteWordForwardAtRange range options
  | DeleteForwardAtRange range n options => deleteForwardAtRange range n options
  | InsertBlockAtRange range block options => insertBlockAtRange range block options
  | InsertFragmentAtRange range fragment options =>
      insertFragmentAtRange range fragment options
  | InsertInlineAtRange range inline options => insertInlineAtRange range inline options
  | InsertTextAtRange range text marks options => insertTextAtRange range text marks options
  | RemoveMarkAtRange range mark options => removeMarkAtRange range mark options
  | SetBlockAtRange range properties options => setBlockAtRange range properties options
  | SetInlineAtRange range properties options => setInlineAtRange range properties options
  | SplitBlockAtRange range height options => splitBlockAtRange range height options
  | SplitInlineAtRange fuel range height options =>
      splitInlineAtRange fuel range height options ;; ret tt
  | ToggleMarkAtRange range mark options => toggleMarkAtRange range mark options
  | UnwrapBlockAtRange range properties options =>
      unwrapBlockAtRange range properties options
  | UnwrapInlineAtRange range properties => unwrapInlineAtRange range properties
  | WrapBlockAtRange range block options => wrapBlockAtRange range block options
  | WrapInlineAtRange range inline options => wrapInlineAtRange range inline options
  | WrapTextAtRange range prefix suffix options =>
      wrapTextAtRange range prefix suffix options
  end.

(** Makes the calls one after the other, on one transform. *)
Definition runAll (ops : list Operation) : M unit := forEach ops (fun op _ => run op).

End Operations.

(** The one function of the file that calls the selection transforms. *)
Definition movesSelection (op : Operation) : bool :=
  match op with
  | UnwrapInlineAtRange _ _ => true
  | _ => false
  end.

(** The calls after which the keys stay unique whatever their
    arguments: those that hand no node of the caller's to the primitive
    layer, [insertFragmentAtRange], which regenerates the keys of the
    fragment, and [wrapInlineAtRange] on an expanded range, which
    regenerates the key of every wrapper. *)
Definition keySafe (op : Operation) : bool :=
  match op with
  | InsertBlockAtRange _ _ _ | InsertInlineAtRange _ _ _ | WrapBlockAtRange _ _ _ => false
  | WrapInlineAtRange range _ _ => isExpanded range
  | _ => true
  end.

(** The functions that hand a node to the primitive layer: one given
    by the caller or, for the wraps, made from it. *)
Definition handsNode (op : Operation) : bool :=
  match op with
  | InsertBlockAtRange _ _ _ | InsertFragmentAtRange _ _ _ | InsertInlineAtRange _ _ _
  | WrapBlockAtRange _ _ _ | WrapInlineAtRange _ _ _ => true
  | _ => false
  end.

(** The options a call carries, if it takes any. *)
Definition callOptions (c : Call) : option Options :=
  match c with
  | addMarkByKey _ _ _ _ o | removeMarkByKey _ _ _ _ o | removeTextByKey _ _ _ o
  | insertTextByKey _ _ _ _ o | splitNodeByKey _ _ o | removeNodeByKey _ o
  | insertNodeByKey _ _ _ o | moveNodeByKey _ _ _ o | setNodeByKey _ _ o
  | wrapInlineByKey _ _ o => Some o
  | _ => None
  end.

(** The call is one of the two normalization passes. *)
Definition isNormalization (c : Call) : bool :=
  match c with
  | normalizeNodeByKey _ _ | normalizeDocument _ => true
  | _ => false
  end.

(** The call is a primitive that was handed the do-not-normalize flag. *)
Definition doNotNormalize (c : Call) : bool :=
  match callOptions c with
  | Some o => match normalize o with Some false => true | _ => false end
  | None => false
  end.

(** A sequence of calls is batched when every call but the last is a
    primitive carrying the do-not-normalize flag: normalization can
    only happen in the last call. *)
Definition batched (cs : list Call) : Prop :=
  Forall (fun c => doNotNormalize c = true) (removelast cs).

Definition batchedb (cs : list Call) : bool := forallb doNotNormalize (removelast cs).

(** The calls issued by a run of [m] from [tr]. *)
Definition issued {A} (m : M A) (tr : Transform) : option (list Call) :=
  match m tr with
  | Some (_, tr') => Some (skipn (List.length (calls tr)) (calls tr'))
  | None => None
  end.

(** An operation is batched when every run of it adds a batched
    sequence of calls to the transform. *)
Definition Batched {A} (m : M A) : Prop :=
  forall tr a tr', m tr = Some (a, tr') ->
    exists cs, calls tr' = calls tr ++ cs /\ batched cs.

(** ** Key uniqueness as an invariant *)

(** How often the key [a] occurs in a list of keys. *)
Definition occ (ks : list Key) (a : Key) : nat := count_occ N.eq_dec ks a.
(** ... and whether one key is it. *)
Definition occ1 (x a : Key) : nat := if N.eq_dec x a then 1%nat else 0%nat.

(** The invariant of a document [d] under a generator at [g], with the
    keys [pending] held by nodes about to be inserted: no key occurs
    twice among those of the document and the pending ones, and all of
    them lie below the counter. *)
Definition Inv (d : Node) (g : N) (pending : list Key) : Prop :=
  (forall a, (occ (Model.keysOf d) a + occ pending a <= 1)%nat)
  /\ (forall a, (occ (Model.keysOf d) a + occ pending a > 0)%nat -> (a < g)%N).

(** An insertion is fresh from [g0] on when every key of the inserted
    node was drawn from the generator at or after [g0]. *)
Definition freshInsert (g0 : N) (c : Call) : Prop :=
  match c with
  | insertNodeByKey _ _ x _ => Forall (fun k => (g0 <= k)%N) (Model.keysOf x)
  | _ => True
  end.

(** The invariant of a transform, for a run that started with the
    calls [base] and the generator at [g0]: the document invariant,
    pending keys drawn since the start, and only fresh insertions
    among the calls issued since. *)
Definition InvT (base : list Call) (g0 : N) (pending : list Key) (tr : Transform) : Prop :=
  Inv (document (state tr)) (nextKey tr) pending
  /\ (g0 <= nextKey tr)%N
  /\ (forall a, (occ pending a > 0)%nat -> (g0 <= a)%N)
  /\ exists cs, calls tr = base ++ cs /\ Forall (freshInsert g0) cs.

(** The calls that bring no node from outside into the document. *)
Definition keyNeutral (c : Call) : bool :=
  match c with
  | insertNodeByKey _ _ _ _ | setNodeByKey _ _ _ | wrapInlineByKey _ _ _ => false
  | _ => true
  end.

(** [m] takes the invariant with [P] pending to the invariant with [Q]
    pending; [Keeps] when the pending keys stay as they are. *)
Definition Step {A} (base : list Call) (g0 : N) (P Q : list Key) (m : M A) : Prop :=
  forall tr a tr', InvT base g0 P tr -> m tr = Some (a, tr') -> InvT base g0 Q tr'.
Definition Keeps {A} (base : list Call) (g0 : N) (m : M A) : Prop :=
  forall P, Step base g0 P P m.


(** An operation is quiet when every call of every run of it carries
    the do-not-normalize flag. *)
Definition Quiet {A} (m : M A) : Prop :=
  forall tr a tr', m tr = Some (a, tr') ->
    exists cs, calls tr' = calls tr ++ cs /\ Forall (fun c => doNotNormalize c = true) cs.

(** The calls that act on the selection of the state. *)
Definition isSelectionCall (c : Call) : bool :=
  match c with
  | unsetSelection | moveTo _ _ _ _ | extendForward _ => true
  | _ => false
  end.

Definition notSelection (c : Call) : bool := negb (isSelectionCall c).

Definition notNormalization (c : Call) : bool := negb (isNormalization c).

(** The call inserts text without marks and carries the
    do-not-normalize flag. *)
Definition quietPlainText (c : Call) : bool :=
  match c with
  | insertTextByKey _ _ _ [] o =>
      match normalize o with Some false => true | _ => false end
  | _ => false
  end.

(** The calls that carry no node to the primitive layer. *)
Definition carriesNoNode (c : Call) : bool :=
  match c with
  | insertNodeByKey _ _ _ _ | wrapInlineByKey _ _ _ => false
  | _ => true
  end.

(** Every call of every run of [m] satisfies [P]. *)
Definition Emits {A} (P : Call -> bool) (m : M A) : Prop :=
  forall tr a tr', m tr = Some (a, tr') ->
    exists cs, calls tr' = calls tr ++ cs /\ Forall (fun c => P c = true) cs.

(** The keys of the nodes that a sequence of calls normalizes, in
    order. *)
Definition normalizedNodes (cs : list Call) : list Key :=
  flat_map (fun c => match c with normalizeNodeByKey k _ => [k] | _ => [] end) cs.

(** The call is a primitive that was handed the do-not-normalize
    flag, or the normalization of a node. *)
Definition flaggedOrNormalizeNode (c : Call) : bool :=
  doNotNormalize c || match c with normalizeNodeByKey _ _ => true | _ => false end.

(** Every run of [m] hands the do-not-normalize flag to each primitive
    it calls, and the nodes it normalizes, in order, satisfy [P]. *)
Definition Normalizes {A} (P : list Key -> Prop) (m : M A) : Prop :=
  forall tr a tr', m tr = Some (a, tr') ->
    exists cs, calls tr' = calls tr ++ cs
      /\ Forall (fun c => flaggedOrNormalizeNode c = true) cs
      /\ P (normalizedNodes cs).

(** ** Example documents *)

Module Examples.

Definition plain (s : string) : list Character :=
  map (fun a => {| char := a; marks := [] |}) (list_ascii_of_string s).

Definition marked (m : Mark) (s : string) : list Character :=
  map (fun a => {| char := a; marks := [m] |}) (list_ascii_of_string s).

Definition paragraph (k : Key) (ns : list Node) : Node :=
  Elem KBlock k "paragraph" false [] ns.

Definition quote (k : Key) (ns : list Node) : Node :=
  Elem KBlock k "quote" false [] ns.

Definition image (k : Key) (ns : list Node) : Node :=
  Elem KBlock k "image" true [] ns.

Definition bold : Mark := {| mark_type := "bold"; mark_data := [] |}.

Definition range (ak : Key) (ao : Z) (fk : Key) (fo : Z) : Range :=
  {| anchorKey := ak; anchorOffset := ao; focusKey := fk; focusOffset := fo;
     isBackward := false |}.

Definition start (d : Node) (r : Range) (g : N) : Transform :=
  {| state := {| document := d; selection := r |}; calls := []; nextKey := g |}.

(** Two sibling blocks, "abc" and "def". *)
Definition abc_def : Node :=
  Elem KDocument 0%N "" false []
    [paragraph 1%N [Text 2%N (plain "abc")]; paragraph 3%N [Text 4%N (plain "def")]].

(** From the end of "abc" to the start of "def". *)
Definition across : Range := range 2%N 3 4%N 0.

(** Three blocks; the middle one carries bold on its leaf. *)
Definition three : Node :=
  Elem KDocument 0%N "" false []
    [paragraph 1%N [Text 2%N (plain "one")];
     paragraph 3%N [Text 4%N (marked bold "two")];
     paragraph 5%N [Text 6%N (plain "three")]].

(** From inside "one" to inside "three". *)
Definition wide : Range := range 2%N 1 6%N 2.

(** The caret inside "one". *)
Definition caret : Range := range 2%N 1 2%N 1.

(** One block, "one", whose first letter alone is bold; the range
    covers the other two letters. *)
Definition o_ne : Node :=
  Elem KDocument 0%N "" false []
    [paragraph 1%N [Text 2%N (marked bold "o" ++ plain "ne")]].

Definition after_o : Range := range 2%N 1 2%N 3.

Definition at_caret : Transform := start three caret 7%N.
Definition at_wide : Transform := start three wide 7%N.
Definition at_after_o : Transform := start o_ne after_o 3%N.
Definition at_across : Transform := start abc_def across 5%N.

(** [abc_def] after the two splits of a deletion across its blocks. *)
Definition after_splits : Transform :=
  {| state :=
       {| document :=
            Elem KDocument 0%N "" false []
              [paragraph 1%N [Text 2%N (plain "abc")]; paragraph 6%N [Text 5%N []];
               paragraph 3%N [Text 4%N []]; paragraph 8%N [Text 7%N (plain "def")]];
          selection := across |};
     calls := [splitNodeByKey 1%N 3 OPTS; splitNodeByKey 3%N 0 OPTS];
     nextKey := 9%N |}.

(** A fresh, empty container to insert or wrap with. *)
Definition container : Node := quote 20%N [].

(** An empty inline to wrap with, and the properties that match it. *)
Definition link : Node := Elem KInline 30%N "link" false [] [].

Definition links : Properties :=
  {| p_type := Some "link"%string; p_isVoid := None; p_data := None |}.

(** "abc", then a quote holding the single paragraph "def". *)
Definition abc_quoted_def : Node :=
  Elem KDocument 0%N "" false []
    [paragraph 1%N [Text 2%N (plain "abc")];
     quote 5%N [paragraph 3%N [Text 4%N (plain "def")]]].

Definition at_quoted : Transform := start abc_quoted_def across 6%N.

(** One paragraph "a", link "b", "c". *)
Definition linked : Node :=
  Elem KDocument 0%N "" false []
    [paragraph 1%N
       [Text 2%N (plain "a"); Elem KInline 3%N "link" false [] [Text 4%N (plain "b")];
        Text 5%N (plain "c")]].

(** The whole of the linked text. *)
Definition in_link : Range := range 4%N 0 4%N 1.

Definition at_link : Transform := start linked in_link 6%N.

(** The start and the end of "one". *)
Definition at_start_of_one : Range := range 2%N 0 2%N 0.
Definition at_end_of_one : Range := range 2%N 3 2%N 3.

(** A void block, an empty paragraph and the paragraph "end". *)
Definition pictures : Node :=
  Elem KDocument 0%N "" false []
    [image 1%N [Text 2%N []]; paragraph 3%N [Text 4%N []];
     paragraph 5%N [Text 6%N (plain "end")]].

Definition in_image : Range := range 2%N 0 2%N 0.
Definition in_empty : Range := range 4%N 0 4%N 0.

Definition at_image : Transform := start pictures in_image 7%N.

(** Two quotes side by side, of two paragraphs each. *)
Definition two_quotes : Node :=
  Elem KDocument 0%N "" false []
    [quote 1%N [paragraph 2%N [Text 3%N (plain "a")]; paragraph 4%N [Text 5%N (plain "b")]];
     quote 6%N [paragraph 7%N [Text 8%N (plain "c")]; paragraph 9%N [Text 10%N (plain "d")]]].

Definition quotes : Properties :=
  {| p_type := Some "quote"%string; p_isVoid := None; p_data := None |}.

(** From the start of "a" to the end of "d". *)
Definition all_four : Range := range 3%N 0 10%N 1.

Definition at_quotes : Transform := start two_quotes all_four 11%N.

(** The caret at the start of "two", and a key that no node carries. *)
Definition at_start_of_two : Range := range 4%N 0 4%N 0.
Definition nowhere : Range := range 99%N 0 99%N 0.

(** From the start of "a" to the end of "c", and [linked] after the
    two splits of a deletion of that range. *)
Definition whole_paragraph : Range := range 2%N 0 5%N 1.

Definition at_whole_paragraph : Transform := start linked whole_paragraph 6%N.

Definition linked_after_splits : Transform :=
  {| state :=
       {| document :=
            Elem KDocument 0%N "" false []
              [paragraph 1%N
                 [Text 2%N []; Text 6%N (plain "a");
                  Elem KInline 3%N "link" false [] [Text 4%N (plain "b")];
                  Text 5%N (plain "c"); Text 7%N []]];
          selection := whole_paragraph |};
     calls := [splitNodeByKey 2%N 0 OPTS; splitNodeByKey 5%N 1 OPTS];
     nextKey := 8%N |}.

(** From inside "abc" to inside "def", and [abc_def] after the two
    splits of a wrap of that range. *)
Definition second_halves : Range := range 2%N 1 4%N 2.

Definition at_second_halves : Transform := start abc_def second_halves 5%N.

Definition abc_def_split : Transform :=
  {| state :=
       {| document :=
            Elem KDocument 0%N "" false []
              [paragraph 1%N [Text 2%N (plain "a"); Text 5%N (plain "bc")];
               paragraph 3%N [Text 4%N (plain "de"); Text 6%N (plain "f")]];
          selection := second_halves |};
     calls := [splitNodeByKey 2%N 1 OPTS; splitNodeByKey 4%N 2 OPTS];
     nextKey := 7%N |}.

(** The "n" of "one", and [three] after the two splits of a wrap of it. *)
Definition inside_one : Range := range 2%N 1 2%N 2.

Definition at_inside_one : Transform := start three inside_one 7%N.

Definition three_split : Transform :=
  {| state :=
       {| document :=
            Elem KDocument 0%N "" false []
              [paragraph 1%N [Text 2%N (plain "o"); Text 8%N (plain "n"); Text 7%N (plain "e")];
               paragraph 3%N [Text 4%N (marked bold "two")];
               paragraph 5%N [Text 6%N (plain "three")]];
          selection := inside_one |};
     calls := [splitNodeByKey 2%N 2 OPTS; splitNodeByKey 2%N 1 OPTS];
     nextKey := 9%N |}.

(** The caret inside the linked text. *)
Definition inside_link : Range := range 4%N 1 4%N 1.

(** [three] with the generator past the key of [container]. *)
Definition at_caret_late : Transform := start three caret 21%N.

(** What the final document reads, block by block. *)
Definition reads (r : option (unit * Transform)) : option (list string) :=
  option_map (fun x => map node_text (nodes (document (state (snd x))))) r.

End Examples.

(** * Properties *)

Section Facts.

Context {C : Collaborators}.

(** ** The monad and its loops *)

Lemma bind_ret_l {A B} (a : A) (f : A -> M B) : bind (ret a) f = f a.
Proof. reflexivity. Qed.

Lemma bind_some {A B} (m : M A) (f : A -> M B) tr a tr' :
  m tr = Some (a, tr') -> bind m f tr = f a tr'.
Proof. intros H. unfold bind. now rewrite H. Qed.

Lemma bind_none {A B} (m : M A) (f : A -> M B) tr :
  m tr = None -> bind m f tr = None.
Proof. intros H. unfold bind. now rewrite H. Qed.

Lemma bind_assoc {A B D} (m : M A) (f : A -> M B) (g : B -> M D) tr :
  bind (bind m f) g tr = bind m (fun a => bind (f a) g) tr.
Proof. unfold bind. destruct (m tr) as [[a tr']|]; reflexivity. Qed.

Lemma must_some {A B} (o : option A) (a : A) (f : A -> M B) tr :
  o = Some a -> bind (must o) f tr = f a tr.
Proof. intros ->. reflexivity. Qed.

Lemma getDocument_bind {B} (f : Node -> M B) tr :
  bind getDocument f tr = f (document (state tr)) tr.
Proof. reflexivity. Qed.

Lemma forEachFrom_index {A} (h : A -> M unit) (l : list A) : forall i j tr,
  forEachFrom i l (fun x _ => h x) tr = forEachFrom j l (fun x _ => h x) tr.
Proof.
  induction l as [|x l IH]; intros i j tr; [reflexivity|].
  cbn [forEachFrom]. unfold bind.
  destruct (h x tr) as [[u tr']|]; [apply IH|reflexivity].
Qed.

Lemma callAll_cons c cs tr :
  callAll (c :: cs) tr = bind (call c) (fun _ => callAll cs) tr.
Proof.
  unfold callAll, forEach. cbn [forEachFrom]. unfold bind.
  destruct (call c tr) as [[u tr']|]; [apply forEachFrom_index|reflexivity].
Qed.

Lemma forEachFrom_calls {A} (g : A -> Z -> Call) (l : list A) : forall i tr,
  forEachFrom i l (fun x j => call (g x j)) tr = callAll (mapiFrom i g l) tr.
Proof.
  induction l as [|x l IH]; intros i tr; [reflexivity|].
  cbn [forEachFrom mapiFrom]. rewrite callAll_cons. unfold bind.
  destruct (call (g x i) tr) as [[u tr']|]; [apply IH|reflexivity].
Qed.

Lemma forEach_calls {A} (g : A -> Z -> Call) (l : list A) tr :
  forEach l (fun x j => call (g x j)) tr = callAll (mapi g l) tr.
Proof. apply forEachFrom_calls. Qed.

Lemma mapiFrom_const {A B} (g : A -> B) (l : list A) : forall i,
  mapiFrom i (fun x _ => g x) l = map g l.
Proof. induction l as [|x l IH]; intros i; cbn; [|rewrite IH]; reflexivity. Qed.

Lemma callAll_nil tr : callAll [] tr = Some (tt, tr).
Proof. reflexivity. Qed.

Lemma callAll_app cs1 cs2 tr :
  callAll (cs1 ++ cs2) tr = bind (callAll cs1) (fun _ => callAll cs2) tr.
Proof.
  revert tr. induction cs1 as [|c cs1 IH]; intros tr; [reflexivity|].
  cbn [app]. rewrite (callAll_cons c (cs1 ++ cs2)).
  unfold bind. rewrite (callAll_cons c cs1). unfold bind.
  destruct (call c tr) as [[u tr']|]; [|reflexivity].
  rewrite IH. reflexivity.
Qed.

Lemma call_calls c tr u tr' : call c tr = Some (u, tr') -> calls tr' = calls tr ++ [c].
Proof.
  unfold call. destruct (perform c (state tr) (nextKey tr)) as [[st k]|]; [|discriminate].
  intros [= _ <-]. reflexivity.
Qed.

(** A successful run of [callAll cs] records exactly the calls [cs]. *)
Lemma callAll_calls cs : forall tr u tr',
  callAll cs tr = Some (u, tr') -> calls tr' = calls tr ++ cs.
Proof.
  induction cs as [|c cs IH]; intros tr u tr'.
  - rewrite callAll_nil. intros H. inversion H; subst. now rewrite app_nil_r.
  - rewrite callAll_cons. unfold bind.
    destruct (call c tr) as [[u1 tr1]|] eqn:E; [|discriminate].
    intros H. apply IH in H. rewrite H, (call_calls _ _ E), <- app_assoc. reflexivity.
Qed.

Lemma collapseToStart_collapsed r : isExpanded (collapseToStart r) = false.
Proof.
  unfold isExpanded, isCollapsed. cbn. now rewrite N.eqb_refl, Z.eqb_refl.
Qed.

Lemma collapseToEnd_collapsed r : isExpanded (collapseToEnd r) = false.
Proof.
  unfold isExpanded, isCollapsed. cbn. now rewrite N.eqb_refl, Z.eqb_refl.
Qed.

Lemma moveForward_collapsed n r : isExpanded r = false -> isExpanded (moveForward n r) = false.
Proof.
  unfold isExpanded, isCollapsed. cbn. intros H.
  apply negb_false_iff, andb_true_iff in H as [H1 H2].
  apply Z.eqb_eq in H2. now rewrite H1, H2, Z.eqb_refl.
Qed.

(** ** Guarded no-ops *)

(** C9: on a collapsed range [addMarkAtRange], [removeMarkAtRange],
    [toggleMarkAtRange] and [deleteAtRange] return at once: no call is
    made and the transform, hence its state and document, is the one
    they were given. *)
Theorem collapsed_range_returns_unchanged (range : Range) (mark : Mark)
  (options : Options) (tr : Transform) :
  isCollapsed range = true ->
  addMarkAtRange range mark options tr = Some (tt, tr)
  /\ removeMarkAtRange range mark options tr = Some (tt, tr)
  /\ toggleMarkAtRange range mark options tr = Some (tt, tr)
  /\ deleteAtRange range options tr = Some (tt, tr).
Proof.
  intros H.
  unfold addMarkAtRange, removeMarkAtRange, toggleMarkAtRange, deleteAtRange.
  rewrite H. repeat split.
Qed.

(** ** Mark engine *)

(** The intervals handed to the mark primitives, case by case. *)
Lemma leaf_interval (r : Range) (t : Node) :
  (key t <> startKey r -> key t <> endKey r ->
     leafIndex r t = 0 /\ leafLength r t = node_length t)
  /\ (key t = startKey r -> key t <> endKey r ->
        leafIndex r t = startOffset r /\ leafLength r t = node_length t)
  /\ (key t <> startKey r -> key t = endKey r ->
        leafIndex r t = 0 /\ leafIndex r t + leafLength r t = endOffset r)
  /\ (key t = startKey r -> key t = endKey r ->
        leafIndex r t = startOffset r /\ leafIndex r t + leafLength r t = endOffset r).
Proof.
  unfold leafIndex, leafLength.
  destruct (N.eqb_spec (key t) (startKey r)), (N.eqb_spec (key t) (endKey r)); cbn;
    repeat match goal with |- _ /\ _ => split end; intros Hs He;
    try contradiction; split; try reflexivity; lia.
Qed.

(** C6: on an expanded range [addMarkAtRange] and [removeMarkAtRange]
    call their primitive once for each text leaf the range spans, in
    order, and nothing else.  The interval, given as index and length,
    is the whole leaf for an interior leaf; begins at [startOffset] for
    the start leaf (the length passed is the leaf's, so within the leaf
    it covers the positions from [startOffset] on); ends at [endOffset]
    for the end leaf; and is [startOffset, endOffset) when one leaf is
    both. *)
Theorem mark_primitive_once_per_leaf (range : Range) (mark : Mark)
  (options : Options) (tr : Transform) :
  isCollapsed range = false ->
  let texts := getTextsAtRange (document (state tr)) range in
  let o := with_normalize (normalize_or_true options) in
  addMarkAtRange range mark options tr =
    callAll (map (fun t => addMarkByKey (key t) (leafIndex range t) (leafLength range t)
                              mark o) texts) tr
  /\ removeMarkAtRange range mark options tr =
       callAll (map (fun t => removeMarkByKey (key t) (leafIndex range t)
                                (leafLength range t) mark o) texts) tr
  /\ forall t, In t texts ->
       (key t <> startKey range -> key t <> endKey range ->
          leafIndex range t = 0 /\ leafLength range t = node_length t)
       /\ (key t = startKey range -> key t <> endKey range ->
             leafIndex range t = startOffset range /\ leafLength range t = node_length t
             /\ (0 <= startOffset range -> forall p, 0 <= p < node_length t ->
                   (leafIndex range t <= p < leafIndex range t + leafLength range t
                    <-> startOffset range <= p)))
       /\ (key t <> startKey range -> key t = endKey range ->
             leafIndex range t = 0 /\ leafIndex range t + leafLength range t = endOffset range)
       /\ (key t = startKey range -> key t = endKey range ->
             leafIndex range t = startOffset range
             /\ leafIndex range t + leafLength range t = endOffset range).
Proof.
  intros H texts o. unfold addMarkAtRange, removeMarkAtRange. rewrite H.
  rewrite !getDocument_bind, !forEach_calls. unfold mapi. rewrite !mapiFrom_const.
  split; [reflexivity|]. split; [reflexivity|].
  intros t _. destruct (leaf_interval range t) as (H1 & H2 & H3 & H4).
  split; [exact H1|]. split; [|split; [exact H3|exact H4]].
  intros Hs He. destruct (H2 Hs He) as [Hi Hlen].
  split; [exact Hi|]. split; [exact Hlen|].
  intros Hpos p Hp. rewrite Hi, Hlen. lia.
Qed.

(** The generic half of the toggle: the presence test is [some] over
    the marks at the range. *)
Lemma toggleMarkAtRange_unfold (range : Range) (mark : Mark) (options : Options)
  (tr : Transform) :
  isCollapsed range = false ->
  toggleMarkAtRange range mark options tr =
    if existsb (fun m => mark_equals m mark) (getMarksAtRange (document (state tr)) range)
    then removeMarkAtRange range mark (with_normalize (normalize_or_true options)) tr
    else addMarkAtRange range mark (with_normalize (normalize_or_true options)) tr.
Proof.
  intros H. unfold toggleMarkAtRange. rewrite H, getDocument_bind.
  destruct (existsb _ _); reflexivity.
Qed.

(** On an expanded range the two mark operations are their per-leaf
    calls. *)
Lemma markAtRange_calls (range : Range) (mark : Mark) (options : Options)
  (tr : Transform) :
  isCollapsed range = false ->
  let texts := getTextsAtRange (document (state tr)) range in
  let o := with_normalize (normalize_or_true options) in
  addMarkAtRange range mark options tr =
    callAll (map (fun t => addMarkByKey (key t) (leafIndex range t) (leafLength range t)
                              mark o) texts) tr
  /\ removeMarkAtRange range mark options tr =
       callAll (map (fun t => removeMarkByKey (key t) (leafIndex range t)
                                (leafLength range t) mark o) texts) tr.
Proof.
  intros H texts o. unfold addMarkAtRange, removeMarkAtRange. rewrite H.
  rewrite !getDocument_bind, !forEach_calls. unfold mapi. rewrite !mapiFrom_const.
  split; reflexivity.
Qed.

(** ** Text insertion *)

(** The two insertions of [wrapTextAtRange], with the suffix given. *)
Lemma wrapTextAtRange_unfold (range : Range) (prefix suffix : string) (options : Options) :
  wrapTextAtRange range prefix (Some suffix) options =
    (insertTextAtRange (collapseToStart range) prefix []
       (with_normalize (normalize_or_true options)) ;;
     insertTextAtRange
       (if N.eqb (startKey range) (endKey range)
        then moveForward (string_length prefix) (collapseToEnd range)
        else collapseToEnd range)
       suffix [] (with_normalize (normalize_or_true options))).
Proof. reflexivity. Qed.

End Facts.

Lemma callAll_one {C : Collaborators} c tr : callAll [c] tr = call c tr.
Proof.
  rewrite callAll_cons. unfold bind.
  destruct (call c tr) as [[[] tr']|]; reflexivity.
Qed.

Lemma when_finish {C : Collaborators} (b : bool) (k : Key) tr :
  when b (call (normalizeNodeByKey k SCHEMA)) tr = callAll (finish b k) tr.
Proof. destruct b; cbn [when finish]; [now rewrite callAll_one|reflexivity]. Qed.

(** Runs both sides call by call. *)
Ltac run_calls :=
  repeat (rewrite ?callAll_cons, ?callAll_nil, ?when_finish;
          unfold bind, ret; cbn beta iota;
          match goal with
          | |- context [call ?c ?t] => destruct (call c t) as [[[] ?]|]
          end);
  rewrite ?callAll_cons, ?callAll_nil, ?when_finish; try reflexivity.

Section InsertionFacts.

Context {C : Collaborators}.

(** What [insertTextAtRange] hands to the text primitive: the caller's
    flag is replaced by [range.isExpanded] when it was given, and stays
    undefined when it was not. *)
Lemma insertTextAtRange_flag (range : Range) (text : string) (marks : list Mark)
  (options : Options) (tr : Transform) (parent : Node) :
  getParent (document (state tr)) (startKey range) = Some parent ->
  node_isVoid parent = false ->
  insertTextAtRange range text marks options tr =
    (when (isExpanded range) (deleteAtRange range OPTS) ;;
     call (insertTextByKey (startKey range) (startOffset range) text marks
             {| normalize := match normalize options with
                             | Some _ => Some (isExpanded range)
                             | None => None
                             end |})) tr.
Proof.
  intros Hp Hv. unfold insertTextAtRange. rewrite getDocument_bind.
  rewrite (must_some _ _ Hp), Hv. reflexivity.
Qed.

Lemma insertTextAtRange_void (range : Range) (text : string) (marks : list Mark)
  (options : Options) (tr : Transform) (parent : Node) :
  getParent (document (state tr)) (startKey range) = Some parent ->
  node_isVoid parent = true ->
  insertTextAtRange range text marks options tr = Some (tt, tr).
Proof.
  intros Hp Hv. unfold insertTextAtRange. rewrite getDocument_bind.
  rewrite (must_some _ _ Hp), Hv. reflexivity.
Qed.

(** At a caret in a parent that is not void, [insertTextAtRange] given
    a flag is one insertion that carries the do-not-normalize flag. *)
Lemma insertTextAtRange_at_point (k : Key) (offset : Z) (text : string) (b : bool)
  (r : Range) (tr : Transform) (parent : Node) :
  startKey r = k -> startOffset r = offset -> isExpanded r = false ->
  getParent (document (state tr)) k = Some parent ->
  node_isVoid parent = false ->
  insertTextAtRange r text [] (with_normalize b) tr =
    call (insertTextByKey k offset text [] (with_normalize false)) tr.
Proof.
  intros Hk Ho He Hp Hv. subst k offset.
  rewrite (insertTextAtRange_flag _ _ _ _ _ Hp Hv), He. reflexivity.
Qed.

(** C10: without a suffix argument [wrapTextAtRange] inserts the
    prefix twice: with [insertTextByKey] at the start point of the
    range and again with [insertTextByKey] at its end point, the latter
    first moved forward by the length of the prefix when start and end
    are in the same leaf; with a suffix given, the second insertion
    carries the suffix instead.  The parents of the two points are not
    void, the second read after the first insertion. *)
Theorem wrapTextAtRange_suffix_defaults_to_prefix (range : Range) (prefix : string)
  (options : Options) (tr : Transform) (startParent : Node) :
  let endPoint :=
    endOffset range
    + (if N.eqb (startKey range) (endKey range) then string_length prefix else 0) in
  let before :=
    insertTextByKey (startKey range) (startOffset range) prefix [] (with_normalize false) in
  getParent (document (state tr)) (startKey range) = Some startParent ->
  node_isVoid startParent = false ->
  (forall tr1, call before tr = Some (tt, tr1) ->
     exists endParent,
       getParent (document (state tr1)) (endKey range) = Some endParent
       /\ node_isVoid endParent = false) ->
  wrapTextAtRange range prefix None options tr =
    callAll [before;
             insertTextByKey (endKey range) endPoint prefix [] (with_normalize false)] tr
  /\ forall suffix,
       wrapTextAtRange range prefix (Some suffix) options tr =
         callAll [before;
                  insertTextByKey (endKey range) endPoint suffix [] (with_normalize false)] tr.
Proof.
  intros endPoint before Hp Hv Hend.
  assert (H : forall suffix,
            wrapTextAtRange range prefix (Some suffix) options tr =
              callAll [before;
                       insertTextByKey (endKey range) endPoint suffix []
                         (with_normalize false)] tr).
  { intros suffix. rewrite wrapTextAtRange_unfold, callAll_cons. unfold bind at 1 2.
    rewrite (@insertTextAtRange_at_point (startKey range) (startOffset range) prefix _
               (collapseToStart range) tr startParent eq_refl eq_refl
               (collapseToStart_collapsed range) Hp Hv).
    fold before. destruct (call before tr) as [[[] tr1]|] eqn:E; [|reflexivity].
    destruct (Hend tr1 eq_refl) as (endParent & Hp' & Hv').
    rewrite callAll_one.
    apply (@insertTextAtRange_at_point (endKey range) endPoint suffix _ _ _ endParent);
      try assumption; unfold endPoint;
      destruct (N.eqb (startKey range) (endKey range));
      try apply moveForward_collapsed; try apply collapseToEnd_collapsed;
      cbn; try reflexivity; lia. }
  split; [exact (H prefix)|exact H].
Qed.

(** On an expanded range [insertBlockAtRange] first deletes, with the
    default options, and goes on with the range collapsed to its start. *)
Lemma insertBlockAtRange_expanded (range : Range) (block : Node) (options : Options) tr :
  isExpanded range = true ->
  insertBlockAtRange range block options tr =
    (deleteAtRange range no_options ;;
     insertBlockAtRange (collapseToStart range) block options) tr.
Proof.
  intros H. unfold insertBlockAtRange at 1. rewrite H, bind_assoc.
  destruct (deleteAtRange range no_options tr) as [[[] tr']|] eqn:E.
  - rewrite !(bind_some _ _ _ E).
    unfold insertBlockAtRange. rewrite collapseToStart_collapsed. reflexivity.
  - rewrite !(bind_none _ _ _ E). reflexivity.
Qed.

(** C5: [insertBlockAtRange] deletes an expanded range and collapses it
    to its start; then, with the target block at [index] in its parent,
    the new block goes to [index + 1] (next sibling) when the target is
    void; else, when the target is empty, the target is removed and the
    block goes to [index] (in its place); else to [index] (previous
    sibling) when the range is at the target's start; else to
    [index + 1] when the range is at its end; and otherwise the target
    is split at the point and the block goes to [index + 1], right
    after the first half.  The parent is normalized last unless the
    caller turned normalization off. *)
Theorem insertBlockAtRange_cases (range : Range) (block : Node) (options : Options)
  (tr : Transform) (startText startBlock parent : Node) :
  let range' := if isExpanded range then collapseToStart range else range in
  forall tr',
  (if isExpanded range then deleteAtRange range no_options tr else Some (tt, tr))
    = Some (tt, tr') ->
  getDescendant (document (state tr')) (startKey range') = Some startText ->
  getClosestBlock (document (state tr')) (startKey range') = Some startBlock ->
  getParent (document (state tr')) (key startBlock) = Some parent ->
  let index := indexOf (nodes parent) startBlock in
  let o := with_normalize (normalize_or_true options) in
  let last_ := finish (normalize_or_true options) (key parent) in
  insertBlockAtRange range block options tr =
    if node_isVoid startBlock then
      callAll (insertNodeByKey (key parent) (index + 1) block o :: last_) tr'
    else if isEmpty startBlock then
      callAll (removeNodeByKey (key startBlock) no_options
               :: insertNodeByKey (key parent) index block o :: last_) tr'
    else if isAtStartOf range' startBlock then
      callAll (insertNodeByKey (key parent) index block o :: last_) tr'
    else if isAtEndOf range' startBlock then
      callAll (insertNodeByKey (key parent) (index + 1) block o :: last_) tr'
    else
      match getOffset startBlock (key startText) with
      | Some off =>
          callAll (splitNodeByKey (key startBlock) (off + startOffset range') o
                   :: insertNodeByKey (key parent) (index + 1) block o :: last_) tr'
      | None => None
      end.
Proof.
  intros range' tr' Hdel Ht Hb Hp index o last_.
  assert (Hrun : insertBlockAtRange range block options tr =
                 insertBlockAtRange range' block options tr').
  { subst range'. destruct (isExpanded range) eqn:E.
    - rewrite insertBlockAtRange_expanded by assumption.
      unfold bind. now rewrite Hdel.
    - now inversion Hdel. }
  rewrite Hrun. unfold insertBlockAtRange.
  assert (Hc : isExpanded range' = false).
  { subst range'. destruct (isExpanded range) eqn:E;
      [apply collapseToStart_collapsed|assumption]. }
  rewrite Hc, bind_ret_l, getDocument_bind. unfold assertDescendant.
  rewrite (must_some _ _ Ht), (must_some _ _ Hb), (must_some _ _ Hp).
  subst index o last_.
  destruct (node_isVoid startBlock); [run_calls|].
  destruct (isEmpty startBlock); [run_calls|].
  destruct (isAtStartOf range' startBlock); [run_calls|].
  destruct (isAtEndOf range' startBlock); [run_calls|].
  destruct (getOffset startBlock (key startText)) as [off|]; [|reflexivity].
  cbn [must]. run_calls.
Qed.

End InsertionFacts.

Section StructureFacts.

Context {C : Collaborators}.

Lemma first_size_one {A} (l : list A) (x : A) :
  first l = Some x -> size l = 1 -> l = [x].
Proof.
  destruct l as [|y [|z l]]; cbn; try discriminate.
  - now intros [= ->].
  - unfold size. cbn [List.length]. lia.
Qed.

(** Each component of [wrapIndexes] is the index of the last child
    that is, or holds, the block. *)
Lemma wrapIndexes_holds (fb lb : Node) (l : list Node) : forall i ind i0 i1,
  wrapIndexes fb lb i l ind = (i0, i1) ->
  (i0 = fst ind \/ exists c j, i0 = Some (i + Z.of_nat j) /\ nth_error l j = Some c
                              /\ holds c fb = true)
  /\ (i1 = snd ind \/ exists c j, i1 = Some (i + Z.of_nat j) /\ nth_error l j = Some c
                                 /\ holds c lb = true).
Proof.
  induction l as [|x l IH]; intros i ind i0 i1 H.
  - cbn in H. subst ind. split; left; reflexivity.
  - cbn [wrapIndexes] in H. apply IH in H as [H0 H1]. split.
    + destruct H0 as [H0|(c & j & -> & Hn & Hh)].
      * fold (holds x fb) in H0. fold (holds x lb) in H0.
        destruct (holds x fb) eqn:E; destruct (holds x lb); cbn in H0;
          try (left; exact H0);
          right; exists x, 0%nat; rewrite H0; repeat split; try assumption;
          f_equal; lia.
      * right. exists c, (S j). repeat split; try assumption. f_equal. lia.
    + destruct H1 as [H1|(c & j & -> & Hn & Hh)].
      * fold (holds x fb) in H1. fold (holds x lb) in H1.
        destruct (holds x lb) eqn:E; destruct (holds x fb); cbn in H1;
          try (left; exact H1);
          right; exists x, 0%nat; rewrite H1; repeat split; try assumption;
          f_equal; lia.
      * right. exists c, (S j). repeat split; try assumption. f_equal. lia.
Qed.

(** C7: with exactly one block spanned, [wrapBlockAtRange] inserts the
    emptied wrapper into that block's parent at the block's index and
    moves the block into it.  With several, the parent is the closest
    common ancestor of the first and the last spanned block, or the
    document when there is none; the wrapper is inserted at the index
    of the child that is or holds the first block, and the children
    from that one to the one that is or holds the last block are moved
    into the wrapper in order.  Every call carries [OPTS] and the
    parent is normalized last unless the caller turned that off. *)
Theorem wrapBlockAtRange_parent_and_siblings (range : Range) (block : Node)
  (options : Options) (tr : Transform) (firstblock lastblock : Node) :
  let document := document (state tr) in
  let blocks := getBlocksAtRange document range in
  let wrapper := clearNodes block in
  let last_ := fun parent => finish (normalize_or_true options) (key parent) in
  first blocks = Some firstblock ->
  last_opt blocks = Some lastblock ->
  (forall parent,
     size blocks = 1 ->
     getParent document (key firstblock) = Some parent ->
     wrapBlockAtRange range block options tr =
       callAll (insertNodeByKey (key parent) (indexOf (nodes parent) firstblock) wrapper OPTS
                :: moveNodeByKey (key firstblock) (key wrapper) 0 OPTS
                :: last_ parent) tr)
  /\ (forall parent i0 i1,
        size blocks <> 1 ->
        parent = match getClosest document (key firstblock) (fun p1 =>
                         isSome (getClosest document (key lastblock) (fun p2 => same p1 p2)))
                 with Some p => p | None => document end ->
        wrapIndexes firstblock lastblock 0 (nodes parent) (None, None) = (Some i0, Some i1) ->
        wrapBlockAtRange range block options tr =
          callAll (insertNodeByKey (key parent) i0 wrapper OPTS
                   :: mapi (fun node i => moveNodeByKey (key node) (key wrapper) i OPTS)
                        (slice i0 (i1 + 1) (nodes parent))
                   ++ last_ parent) tr
        /\ exists c0 c1,
             nth_error (nodes parent) (Z.to_nat i0) = Some c0 /\ holds c0 firstblock = true
             /\ nth_error (nodes parent) (Z.to_nat i1) = Some c1 /\ holds c1 lastblock = true).
Proof.
  intros document blocks wrapper last_ Hf Hl. split.
  - intros parent Hs Hp.
    unfold wrapBlockAtRange, wrapParent, wrapSiblings.
    rewrite getDocument_bind. fold document. fold blocks.
    rewrite bind_assoc, (must_some _ _ Hf), bind_assoc, (must_some _ _ Hl).
    apply Z.eqb_eq in Hs. rewrite Hs, Hp, bind_ret_l.
    rewrite bind_assoc, (must_some _ _ Hf), bind_assoc, (must_some _ _ Hl), bind_ret_l.
    cbn [fst snd]. apply Z.eqb_eq in Hs.
    rewrite (first_size_one _ Hf Hs). fold wrapper.
    unfold forEach. cbn [forEachFrom]. subst last_. cbn beta.
    unfold bind, ret.
    rewrite callAll_cons. unfold bind.
    destruct (call _ tr) as [[[] t1]|]; [|reflexivity].
    rewrite callAll_cons. unfold bind.
    destruct (call _ t1) as [[[] t2]|]; [|reflexivity].
    apply when_finish.
  - intros parent i0 i1 Hs Hp Hi. split.
    + unfold wrapBlockAtRange, wrapParent, wrapSiblings.
      rewrite getDocument_bind. fold document. fold blocks.
      rewrite bind_assoc, (must_some _ _ Hf), bind_assoc, (must_some _ _ Hl).
      apply Z.eqb_neq in Hs. rewrite Hs, <- Hp, bind_ret_l.
      rewrite bind_assoc, (must_some _ _ Hf), bind_assoc, (must_some _ _ Hl).
      rewrite Hi. cbn [fst snd must]. rewrite !bind_ret_l. cbn [fst snd].
      fold wrapper. rewrite callAll_cons. unfold bind at 1 3.
      destruct (call _ tr) as [[[] t1]|]; [|reflexivity].
      rewrite callAll_app. unfold bind. rewrite forEach_calls.
      destruct (callAll _ t1) as [[[] t2]|]; [|reflexivity].
      apply when_finish.
    + destruct (wrapIndexes_holds _ _ _ _ _ Hi) as [[H0|(c0 & j0 & E0 & N0 & H0)]
                                                     [H1|(c1 & j1 & E1 & N1 & H1)]];
        try discriminate.
      exists c0, c1. inversion E0; inversion E1; subst.
      cbn [Z.add]. rewrite !Nat2Z.id. auto.
Qed.

End StructureFacts.

Section DeletionFacts.

Context {C : Collaborators}.

(** Within one leaf [deleteAtRange] removes the characters from
    [startOffset] to [endOffset] with a single call. *)
Lemma deleteAtRange_same_leaf (range : Range) (options : Options) tr :
  isCollapsed range = false ->
  startKey range = endKey range ->
  deleteAtRange range options tr =
    call (removeTextByKey (startKey range) (startOffset range)
            (endOffset range - startOffset range)
            (with_normalize (normalize_or_true options))) tr.
Proof.
  intros H E. unfold deleteAtRange. rewrite H.
  apply N.eqb_eq in E. now rewrite E.
Qed.

(** C1: on an expanded range whose ends are in different leaves,
    [deleteAtRange] splits the two highest children of the common
    ancestor at the boundaries; on the document so obtained, when the
    block of the start leaf and the block of the text after the end
    leaf differ, it then removes the children of the ancestor after the
    start child up to and including the end child, moves every child
    of the end block to the end of the start block, in order, removes
    the furthest only-child ancestor of the end block (the end block
    itself when there is none), and last normalizes the ancestor unless
    the caller turned that off. *)
Theorem deleteAtRange_merges_end_block (range : Range) (options : Options)
  (tr tr2 : Transform) (ancestor0 startChild0 endChild0 : Node) (startOff endOff : Z)
  (ancestor startChild endChild startBlock nextText endBlock : Node) :
  isCollapsed range = false ->
  startKey range <> endKey range ->
  getCommonAncestor (document (state tr)) (startKey range) (endKey range) = Some ancestor0 ->
  getHighestChild ancestor0 (startKey range) = Some startChild0 ->
  getHighestChild ancestor0 (endKey range) = Some endChild0 ->
  offsetIn startChild0 (startKey range) (startOffset range) = Some startOff ->
  offsetIn endChild0 (endKey range) (endOffset range) = Some endOff ->
  callAll [splitNodeByKey (key startChild0) startOff OPTS;
           splitNodeByKey (key endChild0) endOff OPTS] tr = Some (tt, tr2) ->
  let document := document (state tr2) in
  getCommonAncestor document (startKey range) (endKey range) = Some ancestor ->
  getHighestChild ancestor (startKey range) = Some startChild ->
  getHighestChild ancestor (endKey range) = Some endChild ->
  getClosestBlock document (startKey range) = Some startBlock ->
  getNextText document (endKey range) = Some nextText ->
  getClosestBlock document (key nextText) = Some endBlock ->
  key startBlock <> key endBlock ->
  let middles := slice (indexOf (nodes ancestor) startChild + 1)
                       (indexOf (nodes ancestor) endChild + 1) (nodes ancestor) in
  let lonely := match getFurthest document (key endBlock) onlyChild with
                | Some p => p
                | None => endBlock
                end in
  deleteAtRange range options tr =
    callAll (map (fun child => removeNodeByKey (key child) OPTS) middles
             ++ mapi (fun child i =>
                        moveNodeByKey (key child) (key startBlock)
                          (size (nodes startBlock) + i) OPTS) (nodes endBlock)
             ++ [removeNodeByKey (key lonely) OPTS]
             ++ finish (normalize_or_true options) (key ancestor)) tr2.
Proof.
  intros H E Ha0 Hs0 He0 Hso Heo Hsplit document Ha Hs He Hsb Hnt Heb Hne middles lonely.
  unfold deleteAtRange. rewrite H.
  apply N.eqb_neq in E. rewrite E, getDocument_bind.
  rewrite (must_some _ _ Ha0), (must_some _ _ Hs0), (must_some _ _ He0).
  rewrite (must_some _ _ Hso), (must_some _ _ Heo).
  rewrite callAll_cons in Hsplit. unfold bind in Hsplit.
  destruct (call (splitNodeByKey (key startChild0) startOff OPTS) tr)
    as [[[] t1]|] eqn:E1; [|discriminate].
  rewrite callAll_one in Hsplit.
  rewrite (bind_some _ _ _ E1), (bind_some _ _ _ Hsplit).
  rewrite getDocument_bind. fold document.
  rewrite (must_some _ _ Ha), (must_some _ _ Hs), (must_some _ _ He).
  fold middles.
  rewrite !callAll_app.
  assert (Hm : when (negb (size middles =? 0))
                 (forEach middles (fun child _ => call (removeNodeByKey (key child) OPTS))) tr2
               = callAll (map (fun child => removeNodeByKey (key child) OPTS) middles) tr2).
  { destruct middles as [|m ms]; [reflexivity|].
    replace (negb (size (m :: ms) =? 0)) with true
      by (symmetry; apply negb_true_iff, Z.eqb_neq; unfold size; cbn [List.length]; lia).
    cbn [when]. rewrite forEach_calls. unfold mapi. now rewrite mapiFrom_const. }
  destruct (callAll (map (fun child => removeNodeByKey (key child) OPTS) middles) tr2)
    as [[[] t3]|] eqn:E3.
  2:{ now rewrite (bind_none _ _ _ E3), (bind_none _ _ _ Hm). }
  rewrite (bind_some _ _ _ E3), (bind_some _ _ _ Hm).
  rewrite (must_some _ _ Hsb), (must_some _ _ Hnt), (must_some _ _ Heb).
  apply N.eqb_neq in Hne. rewrite Hne. cbn [negb when]. fold lonely.
  rewrite !bind_assoc.
  pose proof (forEach_calls (fun child i =>
                moveNodeByKey (key child) (key startBlock)
                  (size (nodes startBlock) + i) OPTS) (nodes endBlock) t3) as Hmv.
  cbn beta in Hmv. rewrite callAll_app.
  destruct (callAll (mapi _ (nodes endBlock)) t3) as [[[] t4]|] eqn:E4.
  2:{ now rewrite (bind_none _ _ _ E4), (bind_none _ _ _ Hmv). }
  rewrite (bind_some _ _ _ E4), (bind_some _ _ _ Hmv).
  cbn [app]. rewrite callAll_cons. unfold bind.
  destruct (call _ t4) as [[[] t5]|]; [|reflexivity].
  apply when_finish.
Qed.

End DeletionFacts.

(** ** Batching of normalization *)

Section BatchingFacts.

Context {C : Collaborators}.

Lemma issued_app {A} (m : M A) tr a tr' cs :
  m tr = Some (a, tr') -> calls tr' = calls tr ++ cs -> issued m tr = Some cs.
Proof.
  intros H E. unfold issued. rewrite H, E, skipn_app, skipn_all, Nat.sub_diag. reflexivity.
Qed.

Lemma batched_batchedb cs : batched cs -> batchedb cs = true.
Proof.
  unfold batched, batchedb. intros H. apply forallb_forall.
  now apply Forall_forall.
Qed.

Lemma batched_quiet cs : Forall (fun c => doNotNormalize c = true) cs -> batched cs.
Proof.
  unfold batched. induction 1 as [|c cs Hc H IH]; [constructor|].
  cbn [removelast]. destruct cs; [constructor|]. constructor; assumption.
Qed.

Lemma batched_app cs1 cs2 :
  Forall (fun c => doNotNormalize c = true) cs1 -> batched cs2 -> batched (cs1 ++ cs2).
Proof.
  intros H1 H2. destruct cs2 as [|c cs2].
  - rewrite app_nil_r. now apply batched_quiet.
  - unfold batched in *. rewrite removelast_app by discriminate.
    apply Forall_app. split; assumption.
Qed.

Lemma quiet_ret {A} (a : A) : Quiet (ret a).
Proof. intros tr x tr' [= <- <-]. exists []. rewrite app_nil_r. auto. Qed.

Lemma quiet_throw {A} : Quiet (@throw A).
Proof. intros tr x tr' [=]. Qed.

Lemma quiet_must {A} (o : option A) : Quiet (must o).
Proof. destruct o; [apply quiet_ret|apply quiet_throw]. Qed.

Lemma quiet_getDocument : Quiet getDocument.
Proof. intros tr x tr' [= <- <-]. exists []. rewrite app_nil_r. auto. Qed.

Lemma quiet_regenerateFragment f : Quiet (regenerateFragment f).
Proof.
  intros tr x tr'. unfold regenerateFragment.
  destruct (mapDescendants regenerateKey f (nextKey tr)) as [f' c].
  intros [= <- <-]. exists []. cbn. rewrite app_nil_r. auto.
Qed.

Lemma quiet_call c : doNotNormalize c = true -> Quiet (call c).
Proof.
  intros Hc tr [] tr' H. apply call_calls in H. exists [c]. auto.
Qed.

Lemma quiet_bind {A B} (m : M A) (f : A -> M B) :
  Quiet m -> (forall a, Quiet (f a)) -> Quiet (bind m f).
Proof.
  intros Hm Hf tr b tr' H. unfold bind in H.
  destruct (m tr) as [[a t1]|] eqn:E; [|discriminate].
  destruct (Hm _ _ _ E) as (cs1 & E1 & F1).
  destruct (Hf a _ _ _ H) as (cs2 & E2 & F2).
  exists (cs1 ++ cs2). rewrite E2, E1, app_assoc. split; [reflexivity|].
  apply Forall_app. auto.
Qed.

Lemma quiet_when (b : bool) (m : M unit) : Quiet m -> Quiet (when b m).
Proof. destruct b; [auto|intros _; apply quiet_ret]. Qed.

Lemma quiet_forEachFrom {A} (l : list A) (f : A -> Z -> M unit) :
  (forall x i, Quiet (f x i)) -> forall i, Quiet (forEachFrom i l f).
Proof.
  intros Hf. induction l as [|x l IH]; intros i; cbn [forEachFrom].
  - apply quiet_ret.
  - apply quiet_bind; [apply Hf|intros _; apply IH].
Qed.

Lemma quiet_forEach {A} (l : list A) (f : A -> Z -> M unit) :
  (forall x i, Quiet (f x i)) -> Quiet (forEach l f).
Proof. intros Hf. now apply quiet_forEachFrom. Qed.

Lemma quiet_forEachVar {A V} (l : list A) (f : A -> V -> M V) :
  (forall x v, Quiet (f x v)) -> forall v, Quiet (forEachVar l v f).
Proof.
  intros Hf. induction l as [|x l IH]; intros v; cbn [forEachVar].
  - apply quiet_ret.
  - apply quiet_bind; [apply Hf|intros v'; apply IH].
Qed.

Lemma batched_of_quiet {A} (m : M A) : Quiet m -> Batched m.
Proof.
  intros Hm tr a tr' E. destruct (Hm _ _ _ E) as (cs & E' & F).
  exists cs. split; [assumption|now apply batched_quiet].
Qed.

Lemma batched_bind {A B} (m : M A) (f : A -> M B) :
  Quiet m -> (forall a, Batched (f a)) -> Batched (bind m f).
Proof.
  intros Hm Hf tr b tr' H. unfold bind in H.
  destruct (m tr) as [[a t1]|] eqn:E; [|discriminate].
  destruct (Hm _ _ _ E) as (cs1 & E1 & F1).
  destruct (Hf a _ _ _ H) as (cs2 & E2 & F2).
  exists (cs1 ++ cs2). rewrite E2, E1, app_assoc. split; [reflexivity|].
  now apply batched_app.
Qed.

(** A single call, whatever it is, is a batched sequence. *)
Lemma batched_call c : Batched (call c).
Proof.
  intros tr [] tr' H. apply call_calls in H. exists [c]. split; [assumption|].
  unfold batched. cbn. constructor.
Qed.

Lemma batched_ret {A} (a : A) : Batched (ret a).
Proof. apply batched_of_quiet, quiet_ret. Qed.

Lemma batched_when (b : bool) c : Batched (when b (call c)).
Proof. destruct b; [apply batched_call|apply batched_ret]. Qed.

End BatchingFacts.

(** One step of a proof that an operation is quiet. *)
Ltac quiet_step :=
  cbv beta zeta;
  match goal with
  | |- Quiet (ret _) => apply quiet_ret
  | |- Quiet throw => apply quiet_throw
  | |- Quiet (must _) => apply quiet_must
  | |- Quiet getDocument => apply quiet_getDocument
  | |- Quiet (assertDescendant _ _) => apply quiet_must
  | |- Quiet (regenerateFragment _) => apply quiet_regenerateFragment
  | |- Quiet (call _) => apply quiet_call; reflexivity
  | |- Quiet (bind _ _) => apply quiet_bind; [|intros ?]
  | |- Quiet (when false _) => apply quiet_ret
  | |- Quiet (when _ _) => apply quiet_when
  | |- Quiet (forEach _ _) => apply quiet_forEach; intros ? ?
  | |- Quiet (forEachVar _ _ _) => apply quiet_forEachVar; intros ? ?
  | |- Quiet (if ?b then _ else _) => destruct b
  | |- Quiet (match ?x with _ => _ end) => destruct x
  end.

(** One step of a proof that an operation is batched: everything
    before the last step is quiet. *)
Ltac batched_step :=
  cbv beta zeta;
  match goal with
  | |- Batched (bind _ _) => apply batched_bind; [repeat quiet_step|intros ?]
  | |- Batched (when _ (call _)) => apply batched_when
  | |- Batched (ret _) => apply batched_ret
  | |- Batched (call _) => apply batched_call
  | |- Batched (if ?b then _ else _) => destruct b
  end.

Section BatchedOperations.

Context {C : Collaborators} {B : Boundaries}.

(** Told not to normalize, [deleteAtRange] is quiet. *)
Lemma quiet_deleteAtRange_OPTS (range : Range) : Quiet (deleteAtRange range OPTS).
Proof.
  unfold deleteAtRange. change (normalize_or_true OPTS) with false.
  repeat quiet_step.
Qed.

Lemma batched_deleteAtRange (range : Range) (options : Options) :
  Batched (deleteAtRange range options).
Proof. unfold deleteAtRange. repeat batched_step. Qed.

Lemma batched_insertInlineAtRange (range : Range) (inline : Node) (options : Options) :
  Batched (insertInlineAtRange range inline options).
Proof.
  unfold insertInlineAtRange.
  apply batched_bind.
  { destruct (isExpanded range); [|apply quiet_ret].
    apply quiet_bind; [apply quiet_deleteAtRange_OPTS|intros _; apply quiet_ret]. }
  intros r. repeat batched_step.
Qed.

Lemma batched_insertFragmentAtRange (range : Range) (fragment : Node) (options : Options) :
  Batched (insertFragmentAtRange range fragment options).
Proof.
  unfold insertFragmentAtRange.
  apply batched_bind.
  { destruct (isExpanded range); [|apply quiet_ret].
    apply quiet_bind; [apply quiet_deleteAtRange_OPTS|intros _; apply quiet_ret]. }
  intros r. repeat batched_step.
Qed.

Lemma batched_unwrapBlockAtRange (range : Range) (properties : Properties)
  (options : Options) :
  Batched (unwrapBlockAtRange range properties options).
Proof. unfold unwrapBlockAtRange. repeat batched_step. Qed.

Lemma batched_wrapBlockAtRange (range : Range) (block : Node) (options : Options) :
  Batched (wrapBlockAtRange range block options).
Proof. unfold wrapBlockAtRange, wrapParent, wrapSiblings. repeat batched_step. Qed.

Lemma isExpanded_collapseToStart (range : Range) :
  isExpanded (collapseToStart range) = false.
Proof.
  unfold isExpanded, isCollapsed, collapseToStart. cbn.
  now rewrite N.eqb_refl, Z.eqb_refl.
Qed.

Lemma isExpanded_collapseToEnd (range : Range) :
  isExpanded (collapseToEnd range) = false.
Proof.
  unfold isExpanded, isCollapsed, collapseToEnd. cbn.
  now rewrite N.eqb_refl, Z.eqb_refl.
Qed.

Lemma isExpanded_moveForward (n : Z) (range : Range) :
  isExpanded (moveForward n range) = isExpanded range.
Proof.
  unfold isExpanded, isCollapsed, moveForward. cbn. f_equal. f_equal.
  destruct (Z.eqb_spec (anchorOffset range) (focusOffset range)) as [E|E];
    [rewrite E; apply Z.eqb_refl|apply Z.eqb_neq; lia].
Qed.

(** At a caret, with the flag given, [insertTextAtRange] tells its
    primitive not to normalize. *)
Lemma quiet_insertTextAtRange_caret (range : Range) (text : string) (marks : list Mark)
  (b : bool) :
  isExpanded range = false -> Quiet (insertTextAtRange range text marks (with_normalize b)).
Proof.
  intros H. unfold insertTextAtRange. rewrite H. cbn [normalize with_normalize].
  repeat quiet_step.
Qed.

(** The two insertions of [wrapTextAtRange] are at carets and carry a
    flag, so that neither normalizes. *)
Lemma quiet_wrapTextAtRange (range : Range) (prefix : string) (suffix : option string)
  (options : Options) :
  Quiet (wrapTextAtRange range prefix suffix options).
Proof.
  unfold wrapTextAtRange. cbv zeta.
  apply quiet_bind; [|intros _]; apply quiet_insertTextAtRange_caret.
  - apply isExpanded_collapseToStart.
  - destruct (N.eqb _ _);
      [rewrite isExpanded_moveForward|]; apply isExpanded_collapseToEnd.
Qed.

Lemma batched_deleteBackwardAtRange (range : Range) (n : option Z) (options : Options) :
  Batched (deleteBackwardAtRange range n options).
Proof.
  unfold deleteBackwardAtRange.
  repeat first [apply batched_deleteAtRange | batched_step
               | match goal with
                 | |- Batched (match ?x with _ => _ end) => destruct x
                 end].
Qed.

Lemma batched_deleteForwardAtRange (range : Range) (n : option Z) (options : Options) :
  Batched (deleteForwardAtRange range n options).
Proof.
  unfold deleteForwardAtRange.
  repeat first [apply batched_deleteAtRange | batched_step
               | match goal with
                 | |- Batched (match ?x with _ => _ end) => destruct x
                 end].
Qed.

Lemma quiet_getState : Quiet getState.
Proof. intros tr x tr' [= <- <-]. exists []. rewrite app_nil_r. auto. Qed.

(** The char, word and line deletions read the state and hand over to
    the two directional deletions. *)
Lemma batched_directional_variants (range : Range) (options : Options) :
  Batched (deleteCharBackwardAtRange range options)
  /\ Batched (deleteLineBackwardAtRange range options)
  /\ Batched (deleteWordBackwardAtRange range options)
  /\ Batched (deleteCharForwardAtRange range options)
  /\ Batched (deleteLineForwardAtRange range options)
  /\ Batched (deleteWordForwardAtRange range options).
Proof.
  refine (conj _ (conj _ (conj _ (conj _ (conj _ _)))));
    unfold deleteCharBackwardAtRange, deleteLineBackwardAtRange, deleteWordBackwardAtRange,
      deleteCharForwardAtRange, deleteLineForwardAtRange, deleteWordForwardAtRange;
    repeat match goal with
           | |- Batched (bind getState _) =>
               apply batched_bind; [apply quiet_getState|intros ?]; cbv zeta
           | |- Batched (bind (must _) _) =>
               apply batched_bind; [apply quiet_must|intros ?]; cbv zeta
           end;
    first [exact (batched_deleteBackwardAtRange _ _ _)
          | exact (batched_deleteForwardAtRange _ _ _)].
Qed.

(** [insertTextAtRange] deletes with the do-not-normalize flag and
    ends on its one insertion. *)
Lemma batched_insertTextAtRange (range : Range) (text : string) (marks : list Mark)
  (options : Options) :
  Batched (insertTextAtRange range text marks options).
Proof.
  unfold insertTextAtRange. cbv zeta.
  apply batched_bind; [apply quiet_getDocument|intros d].
  apply batched_bind; [apply quiet_must|intros parent].
  destruct (node_isVoid parent); [apply batched_ret|].
  apply batched_bind; [|intros _; apply batched_call].
  apply quiet_when, quiet_deleteAtRange_OPTS.
Qed.

Lemma normalizedNodes_app cs1 cs2 :
  normalizedNodes (cs1 ++ cs2) = normalizedNodes cs1 ++ normalizedNodes cs2.
Proof. apply flat_map_app. Qed.

Lemma normalizedNodes_quiet cs :
  Forall (fun c => doNotNormalize c = true) cs ->
  Forall (fun c => flaggedOrNormalizeNode c = true) cs /\ normalizedNodes cs = [].
Proof.
  induction 1 as [|c cs Hc _ [IH1 IH2]]; [split; [constructor|reflexivity]|].
  split.
  - constructor; [unfold flaggedOrNormalizeNode; now rewrite Hc|assumption].
  - cbn [normalizedNodes flat_map]. fold (normalizedNodes cs). rewrite IH2.
    destruct c; try reflexivity; discriminate.
Qed.

Lemma normalizes_quiet {A} (m : M A) : Quiet m -> Normalizes (eq []) m.
Proof.
  intros Hm tr a tr' E. destruct (Hm _ _ _ E) as (cs & E' & F).
  destruct (normalizedNodes_quiet F) as [F1 F2].
  exists cs. auto.
Qed.

Lemma normalizes_bind {A X} ks1 ks2 (m : M A) (f : A -> M X) :
  Normalizes (eq ks1) m -> (forall a, Normalizes (eq ks2) (f a)) ->
  Normalizes (eq (ks1 ++ ks2)) (bind m f).
Proof.
  intros Hm Hf tr b tr' H. unfold bind in H.
  destruct (m tr) as [[a t1]|] eqn:E; [|discriminate].
  destruct (Hm _ _ _ E) as (cs1 & E1 & F1 & K1).
  destruct (Hf a _ _ _ H) as (cs2 & E2 & F2 & K2).
  exists (cs1 ++ cs2). rewrite E2, E1, app_assoc. split; [reflexivity|].
  split; [apply Forall_app; auto|].
  rewrite normalizedNodes_app. congruence.
Qed.

(** A quiet step leaves what follows to normalize. *)
Lemma normalizes_after {A X} (P : list Key -> Prop) (m : M A) (f : A -> M X) :
  Quiet m -> (forall a, Normalizes P (f a)) -> Normalizes P (bind m f).
Proof.
  intros Hm Hf tr b tr' H. unfold bind in H.
  destruct (m tr) as [[a t1]|] eqn:E; [|discriminate].
  destruct (Hm _ _ _ E) as (cs1 & E1 & F1).
  destruct (normalizedNodes_quiet F1) as [G1 K1].
  destruct (Hf a _ _ _ H) as (cs2 & E2 & F2 & K2).
  exists (cs1 ++ cs2). rewrite E2, E1, app_assoc. split; [reflexivity|].
  split; [apply Forall_app; auto|].
  now rewrite normalizedNodes_app, K1.
Qed.

(** A lookup that must succeed names what it found. *)
Lemma normalizes_must {A X} (P : list Key -> Prop) (o : option A) (f : A -> M X) :
  (forall a, o = Some a -> Normalizes P (f a)) -> Normalizes P (bind (must o) f).
Proof.
  intros Hf. destruct o as [a|].
  - intros tr b tr' H. exact (Hf a eq_refl tr b tr' H).
  - intros tr b tr' H. discriminate H.
Qed.

Lemma normalizes_document {X} (P : list Key -> Prop) (f : Node -> M X) :
  (forall d, Normalizes P (f d)) -> Normalizes P (bind getDocument f).
Proof. intros Hf tr b tr' H. exact (Hf _ tr b tr' H). Qed.

Lemma normalizes_weaken {A} (P Q : list Key -> Prop) (m : M A) :
  (forall ks, P ks -> Q ks) -> Normalizes P m -> Normalizes Q m.
Proof.
  intros HPQ Hm tr a tr' E. destruct (Hm _ _ _ E) as (cs & E' & F & K).
  exists cs. auto.
Qed.

Lemma normalizes_call k s : Normalizes (eq [k]) (call (normalizeNodeByKey k s)).
Proof.
  intros tr [] tr' H. apply call_calls in H.
  exists [normalizeNodeByKey k s]. split; [assumption|]. split; [|reflexivity].
  constructor; [reflexivity|constructor].
Qed.

Lemma normalizes_forEachFrom {A} (g : A -> list Key) (l : list A) (f : A -> Z -> M unit) :
  (forall x i, Normalizes (eq (g x)) (f x i)) ->
  forall i, Normalizes (eq (flat_map g l)) (forEachFrom i l f).
Proof.
  intros Hf. induction l as [|x l IH]; intros i; cbn [forEachFrom flat_map].
  - apply normalizes_quiet, quiet_ret.
  - apply normalizes_bind; [apply Hf|intros _; apply IH].
Qed.

Lemma flat_map_singleton {A X} (g : A -> X) (l : list A) :
  flat_map (fun x => [g x]) l = map g l.
Proof. induction l as [|x l IH]; [reflexivity|]. cbn. now rewrite IH. Qed.

Lemma quiet_regenerateNode n : Quiet (regenerateNode n).
Proof.
  intros tr x tr'. unfold regenerateNode.
  destruct (regenerateKey n (nextKey tr)) as [n' c].
  intros [= <- <-]. exists []. cbn. rewrite app_nil_r. auto.
Qed.

(** The nodes [wrapInlineAtRange] normalizes on an expanded range. *)
Lemma normalizes_wrapInlineAtRange (range : Range) (inline : Node) (options : Options)
  (tr tr' : Transform) (startBlock endBlock : Node) :
  let d := document (state tr) in
  isCollapsed range = false ->
  getClosestBlock d (startKey range) = Some startBlock ->
  getClosestBlock d (endKey range) = Some endBlock ->
  wrapInlineAtRange range inline options tr = Some (tt, tr') ->
  exists cs, calls tr' = calls tr ++ cs
    /\ Forall (fun c => flaggedOrNormalizeNode c = true) cs
    /\ if normalize_or_true options then
         if same startBlock endBlock then
           exists d' block,
             getClosestBlock d' (startKey range) = Some block
             /\ normalizedNodes cs = [key block]
         else
           exists d' startBlock' endBlock',
             getDescendant d' (key startBlock) = Some startBlock'
             /\ getDescendant d' (key endBlock) = Some endBlock'
             /\ normalizedNodes cs =
                  key startBlock' :: key endBlock'
                  :: map key (slice 1 (-1) (getBlocksAtRange d range))
       else normalizedNodes cs = [].
Proof.
  intros d Hc Hsb Heb H.
  unfold wrapInlineAtRange in H. rewrite getDocument_bind in H. fold d in H.
  cbv zeta in H. rewrite Hc, (must_some _ _ Hsb), (must_some _ _ Heb) in H.
  pose (P := fun ks : list Key =>
    if normalize_or_true options then
      if same startBlock endBlock then
        exists d' block,
          getClosestBlock d' (startKey range) = Some block /\ ks = [key block]
      else
        exists d' startBlock' endBlock',
          getDescendant d' (key startBlock) = Some startBlock'
          /\ getDescendant d' (key endBlock) = Some endBlock'
          /\ ks = key startBlock' :: key endBlock'
                  :: map key (slice 1 (-1) (getBlocksAtRange d range))
    else ks = []).
  match type of H with ?m tr = _ => assert (Hn : Normalizes P m) end.
  2:{ destruct (Hn _ _ _ H) as (cs & E & F & K). exists cs. auto. }
  clear H. subst P.
  do 4 (apply normalizes_must; intros ? _).
  destruct (normalize_or_true options).
  2:{ apply normalizes_weaken with (P := eq []); [intros ks <-; reflexivity|].
      apply normalizes_quiet.
      repeat first [quiet_step | apply quiet_regenerateNode]. }
  destruct (same startBlock endBlock).
  - do 2 (apply normalizes_after; [repeat quiet_step|intros _]).
    apply normalizes_document; intros d'.
    apply normalizes_must; intros block Hblock.
    apply normalizes_weaken with (P := eq [key block]);
      [intros ks <-; exists d', block; auto|].
    cbv zeta. cbn [when].
    apply normalizes_after; [repeat quiet_step|intros startInner].
    apply normalizes_after; [apply quiet_regenerateNode|intros node].
    do 2 (apply normalizes_after; [repeat quiet_step|intros _]).
    apply normalizes_call.
  - do 2 (apply normalizes_after; [repeat quiet_step|intros _]).
    apply normalizes_document; intros d'.
    apply normalizes_must; intros startBlock' Hs.
    apply normalizes_must; intros endBlock' He.
    apply normalizes_weaken
      with (P := eq (key startBlock' :: key endBlock'
                     :: map key (slice 1 (-1) (getBlocksAtRange d range))));
      [intros ks <-; exists d', startBlock', endBlock'; auto|].
    cbv zeta. cbn [when].
    do 2 (apply normalizes_after; [apply quiet_regenerateNode|intros ?]).
    do 4 (apply normalizes_after; [repeat quiet_step|intros _]).
    apply (@normalizes_bind _ _ [key startBlock'; key endBlock']
             (map key (slice 1 (-1) (getBlocksAtRange d range)))).
    + apply (@normalizes_bind _ _ [key startBlock'] [key endBlock']);
        [|intros _]; apply normalizes_call.
    + intros _. rewrite <- flat_map_singleton. apply normalizes_forEachFrom.
      intros block i.
      apply normalizes_after; [apply quiet_regenerateNode|intros node].
      do 2 (apply normalizes_after; [repeat quiet_step|intros _]).
      apply normalizes_call.
Qed.

End BatchedOperations.

Section BatchingClaim.

Context {C : Collaborators} {B : Boundaries}.

(** The mark operations hand the caller's choice to every primitive. *)
Lemma mark_operations_forward (range : Range) (mark : Mark) (options : Options)
  (tr tr' : Transform) :
  addMarkAtRange range mark options tr = Some (tt, tr')
  \/ removeMarkAtRange range mark options tr = Some (tt, tr') ->
  exists cs, calls tr' = calls tr ++ cs
    /\ Forall (fun c => callOptions c = Some (with_normalize (normalize_or_true options))) cs.
Proof.
  unfold addMarkAtRange, removeMarkAtRange.
  destruct (isCollapsed range).
  - intros [H|H]; inversion H; subst; exists []; rewrite app_nil_r; auto.
  - rewrite !getDocument_bind, !forEach_calls. unfold mapi. rewrite !mapiFrom_const.
    intros [H|H]; apply callAll_calls in H; eexists; (split; [exact H|]);
      apply Forall_map, Forall_forall; intros t _; reflexivity.
Qed.


End BatchingClaim.

(** ** Runs on the model *)

Section ModelFacts.

#[local] Existing Instance Model.collaborators.

Import Examples.

Lemma existsb_flat_map {A B} (p : B -> bool) (f : A -> list B) (l : list A) :
  existsb p (flat_map f l) = existsb (fun x => existsb p (f x)) l.
Proof.
  induction l as [|x l IH]; [reflexivity|].
  cbn [flat_map existsb]. now rewrite existsb_app, IH.
Qed.



(** A mark that the start leaf carries only before the start of the
    range is not at the range: the toggle adds. *)
Example toggleMarkAtRange_mark_before_the_range :
  toggleMarkAtRange after_o bold no_options at_after_o
  = callAll [addMarkByKey 2%N 1 2 bold (with_normalize true)] at_after_o.
Proof. vm_compute. reflexivity. Qed.

Lemma collapsed_range_witness :
  addMarkAtRange caret bold no_options at_caret = Some (tt, at_caret)
  /\ removeMarkAtRange caret bold no_options at_caret = Some (tt, at_caret)
  /\ toggleMarkAtRange caret bold no_options at_caret = Some (tt, at_caret)
  /\ deleteAtRange caret no_options at_caret = Some (tt, at_caret).
Proof.
  exact (collapsed_range_returns_unchanged caret bold no_options at_caret eq_refl).
Defined.

Lemma mark_primitive_witness :
  addMarkAtRange wide bold no_options at_wide =
    callAll [addMarkByKey 2%N 1 3 bold (with_normalize true);
             addMarkByKey 4%N 0 3 bold (with_normalize true);
             addMarkByKey 6%N 0 2 bold (with_normalize true)] at_wide.
Proof.
  exact (proj1 (mark_primitive_once_per_leaf wide bold no_options at_wide eq_refl)).
Defined.

Lemma insertBlockAtRange_witness :
  insertBlockAtRange caret container no_options at_caret =
    callAll [splitNodeByKey 1%N 1 (with_normalize true);
             insertNodeByKey 0%N 1 container (with_normalize true);
             normalizeNodeByKey 0%N SCHEMA] at_caret.
Proof.
  exact (@insertBlockAtRange_cases _ caret container no_options at_caret
           (Text 2%N (plain "one")) (paragraph 1%N [Text 2%N (plain "one")]) three
           at_caret eq_refl eq_refl eq_refl eq_refl).
Defined.

Lemma wrapBlockAtRange_witness :
  wrapBlockAtRange wide container no_options at_wide =
    callAll [insertNodeByKey 0%N 0 container OPTS;
             moveNodeByKey 1%N 20%N 0 OPTS;
             moveNodeByKey 3%N 20%N 1 OPTS;
             moveNodeByKey 5%N 20%N 2 OPTS;
             normalizeNodeByKey 0%N SCHEMA] at_wide.
Proof.
  refine (proj1 (proj2 (@wrapBlockAtRange_parent_and_siblings _ wide container no_options
                          at_wide (paragraph 1%N [Text 2%N (plain "one")])
                          (paragraph 5%N [Text 6%N (plain "three")]) eq_refl eq_refl)
                   three 0 2 _ eq_refl eq_refl)).
  discriminate.
Defined.

Lemma deleteAtRange_witness :
  deleteAtRange across no_options at_across =
    callAll [removeNodeByKey 6%N OPTS; removeNodeByKey 3%N OPTS;
             moveNodeByKey 7%N 1%N 1 OPTS; removeNodeByKey 8%N OPTS;
             normalizeNodeByKey 0%N SCHEMA] after_splits.
Proof.
  refine (@deleteAtRange_merges_end_block _ across no_options at_across after_splits
            abc_def (paragraph 1%N [Text 2%N (plain "abc")])
            (paragraph 3%N [Text 4%N (plain "def")]) 3 0
            (document (state after_splits)) (paragraph 1%N [Text 2%N (plain "abc")])
            (paragraph 3%N [Text 4%N []]) (paragraph 1%N [Text 2%N (plain "abc")])
            (Text 7%N (plain "def")) (paragraph 8%N [Text 7%N (plain "def")])
            eq_refl _ eq_refl eq_refl eq_refl eq_refl eq_refl eq_refl
            eq_refl eq_refl eq_refl eq_refl eq_refl eq_refl _);
    discriminate.
Defined.

(** Blocks "abc" and "def", deleted from the end of the first to the
    start of the second, leave one block that reads "abcdef". *)
Example deleteAtRange_joins_abc_def :
  reads (deleteAtRange across no_options at_across) = Some ["abcdef"%string]
  /\ reads (deleteAtRange across OPTS at_across) = Some ["abcdef"%string].
Proof. split; reflexivity. Qed.

(** Wrapping the three paragraphs puts them, in order, in the new
    container at the top of the document. *)
Example wrapBlockAtRange_three :
  option_map (fun x => map key (nodes (document (state (snd x)))))
    (wrapBlockAtRange wide container no_options at_wide) = Some [20%N]
  /\ reads (wrapBlockAtRange wide container no_options at_wide)
     = Some ["onetwothree"%string].
Proof. split; reflexivity. Qed.

(** With no suffix the prefix lands on both sides, also within one leaf. *)
Example wrapTextAtRange_stars :
  reads (wrapTextAtRange wide "**" None no_options at_wide)
    = Some ["o**ne"; "two"; "th**ree"]%string
  /\ reads (wrapTextAtRange (range 2%N 1 2%N 2) "**" None no_options at_wide)
     = Some ["o**n**e"; "two"; "three"]%string.
Proof. split; reflexivity. Qed.

Lemma wrapTextAtRange_suffix_witness :
  wrapTextAtRange (range 2%N 1 2%N 2) "**" None no_options at_wide =
    callAll [insertTextByKey 2%N 1 "**" [] (with_normalize false);
             insertTextByKey 2%N 4 "**" [] (with_normalize false)] at_wide.
Proof.
  refine (proj1 (@wrapTextAtRange_suffix_defaults_to_prefix _ (range 2%N 1 2%N 2) "**"
                   no_options at_wide (paragraph 1%N [Text 2%N (plain "one")])
                   eq_refl eq_refl _)).
  intros tr1 H. vm_compute in H. injection H as <-.
  eexists. split; reflexivity.
Defined.

(** C4, the run that departs from the claim: a caret, options left
    empty.  The flag handed to [insertTextByKey] is left undefined, so
    the primitive falls back on its default and normalizes; when the
    caller does pass a flag it is replaced by [range.isExpanded]. *)
Theorem insertTextAtRange_unspecified_normalize_is_not_skipped :
  issued (insertTextAtRange caret "x" [] no_options) at_caret
    = Some [insertTextByKey 2%N 1 "x" [] {| normalize := None |}]
  /\ normalize_or_true {| normalize := None |} = true
  /\ issued (insertTextAtRange caret "x" [] (with_normalize true)) at_caret
     = Some [insertTextByKey 2%N 1 "x" [] {| normalize := Some false |}].
Proof. repeat split; reflexivity. Qed.


(** The mark operations hand the caller's choice to each primitive:
    over three leaves, with the default options, every call of
    [addMarkAtRange] is told to normalize. *)
Lemma addMarkAtRange_not_batched :
  issued (addMarkAtRange wide bold no_options) at_wide
    = Some [addMarkByKey 2%N 1 3 bold (with_normalize true);
            addMarkByKey 4%N 0 3 bold (with_normalize true);
            addMarkByKey 6%N 0 2 bold (with_normalize true)]
  /\ ~ Batched (addMarkAtRange wide bold no_options).
Proof.
  split; [vm_compute; reflexivity|]. intros H.
  destruct (addMarkAtRange wide bold no_options at_wide) as [[[] tr']|] eqn:E.
  2:{ vm_compute in E. discriminate. }
  destruct (H _ _ _ E) as (cs & Hcs & Hb).
  vm_compute in E. inversion E; subst tr'. cbn in Hcs. subst cs.
  apply batched_batchedb in Hb. vm_compute in Hb. discriminate.
Qed.


(** [unwrapInlineAtRange] calls its primitives with no options at all,
    so that each falls back on its default. *)
Example unwrapInlineAtRange_passes_no_options :
  issued (unwrapInlineAtRange in_link links) at_link
    = Some [unsetSelection; moveNodeByKey 4%N 1%N 1 no_options;
            removeNodeByKey 3%N no_options; moveTo 2%N 1 2%N 1; extendForward 1;
            normalizeDocument None]
  /\ reads (unwrapInlineAtRange in_link links at_link) = Some ["abc"%string].
Proof. split; reflexivity. Qed.

(** When the end block is the only child of its parent, the parent goes
    with it. *)
Example deleteAtRange_removes_lonely_parent :
  issued (deleteAtRange across OPTS) at_quoted
    = Some [splitNodeByKey 1%N 3 OPTS; splitNodeByKey 5%N 0 OPTS;
            removeNodeByKey 7%N OPTS; removeNodeByKey 5%N OPTS;
            moveNodeByKey 8%N 1%N 1 OPTS; removeNodeByKey 10%N OPTS]
  /\ reads (deleteAtRange across OPTS at_quoted) = Some ["abcdef"%string].
Proof. split; reflexivity. Qed.

(** A caret at the start of a block puts the new block before it, one
    at its end after it. *)
Example insertBlockAtRange_at_the_edges :
  option_map (fun x => map key (nodes (document (state (snd x)))))
    (insertBlockAtRange at_start_of_one container OPTS at_caret)
    = Some [20%N; 1%N; 3%N; 5%N]
  /\ option_map (fun x => map key (nodes (document (state (snd x)))))
       (insertBlockAtRange at_end_of_one container OPTS at_caret)
     = Some [1%N; 20%N; 3%N; 5%N]
  /\ option_map (fun x => map key (nodes (document (state (snd x)))))
       (insertBlockAtRange caret container OPTS at_caret)
     = Some [1%N; 20%N; 8%N; 3%N; 5%N].
Proof. repeat split; vm_compute; reflexivity. Qed.

(** In a void block the new block goes after it and text is not
    inserted at all; an empty block is replaced. *)
Example insertBlockAtRange_void_and_empty :
  issued (insertBlockAtRange in_image container no_options) at_image
    = Some [insertNodeByKey 0%N 1 container (with_normalize true);
            normalizeNodeByKey 0%N SCHEMA]
  /\ issued (insertBlockAtRange in_empty container no_options) at_image
     = Some [removeNodeByKey 3%N no_options;
             insertNodeByKey 0%N 1 container (with_normalize true);
             normalizeNodeByKey 0%N SCHEMA]
  /\ option_map (fun x => map key (nodes (document (state (snd x)))))
       (insertBlockAtRange in_empty container no_options at_image)
     = Some [1%N; 20%N; 5%N]
  /\ insertTextAtRange in_image "x" [] no_options at_image = Some (tt, at_image).
Proof. repeat split; vm_compute; reflexivity. Qed.

End ModelFacts.

(** ** Key uniqueness *)

Section KeyFacts.
Import Model.

Lemma Node_ind2 (P : Node -> Prop) :
  (forall k cs, P (Text k cs)) ->
  (forall kd k ty v d ns, Forall P ns -> P (Elem kd k ty v d ns)) ->
  forall n, P n.
Proof.
  intros Ht He. fix IH 1. intros [k cs|kd k ty v d ns]; [apply Ht|apply He].
  induction ns as [|c ns IHns]; constructor; [apply IH|exact IHns].
Qed.

Lemma keysOf_cons (n : Node) : keysOf n = key n :: flat_map keysOf (nodes n).
Proof. destruct n; reflexivity. Qed.

Lemma descendants_keys (n : Node) : map key (descendants n) = flat_map keysOf (nodes n).
Proof.
  induction n as [k cs|kd k ty v d ns IH] using Node_ind2; [reflexivity|].
  cbn [descendants nodes]. induction IH as [|c ns Hc _ IHns]; [reflexivity|].
  cbn [flat_map]. rewrite map_app, IHns. cbn [map]. rewrite Hc, <- keysOf_cons. reflexivity.
Qed.

Lemma hasKey_eq k n : hasKey k n = true <-> key n = k.
Proof. unfold hasKey. apply N.eqb_eq. Qed.

Lemma getDescendant_some d k y :
  getDescendant d k = Some y -> In y (descendants d) /\ key y = k.
Proof.
  unfold getDescendant. intros H. apply find_some in H as [H1 H2].
  split; [assumption|now apply hasKey_eq].
Qed.

Lemma descendants_trans (d : Node) : forall c y,
  In c (descendants d) -> In y (descendants c) -> In y (descendants d).
Proof.
  induction d as [k cs|kd k ty v dt ns IH] using Node_ind2; intros c y Hc Hy; [destruct Hc|].
  cbn [descendants] in *. apply in_flat_map in Hc as (x & Hx & Hc).
  apply in_flat_map. exists x. split; [assumption|].
  destruct Hc as [<-|Hc]; [now right|].
  right. rewrite Forall_forall in IH. eapply IH; eassumption.
Qed.

Lemma descendant_keys_incl d y :
  In y (descendants d) -> incl (keysOf y) (flat_map keysOf (nodes d)).
Proof.
  intros Hy k Hk. rewrite <- descendants_keys. rewrite keysOf_cons in Hk.
  destruct Hk as [<-|Hk]; [now apply in_map|].
  rewrite <- descendants_keys in Hk. apply in_map_iff in Hk as (z & <- & Hz).
  apply in_map. eapply descendants_trans; eassumption.
Qed.

(** Splicing at a key that does not occur below a node changes nothing. *)
Lemma splice_absent k repl (n : Node) :
  ~ In k (flat_map keysOf (nodes n)) -> splice k repl n = n.
Proof.
  induction n as [k0 cs|kd k0 ty v d ns IH] using Node_ind2; intros Hk; [reflexivity|].
  cbn [splice nodes] in *. f_equal.
  induction IH as [|c ns Hc _ IHns]; [reflexivity|].
  cbn [flat_map] in *. rewrite in_app_iff in Hk.
  assert (Hck : hasKey k c = false).
  { apply not_true_is_false. intros E. apply hasKey_eq in E. apply Hk. left.
    rewrite keysOf_cons. now left. }
  rewrite Hck. cbn [app]. f_equal.
  - apply Hc. intros Hin. apply Hk. left. rewrite keysOf_cons. now right.
  - apply IHns. intros Hin. apply Hk. now right.
Qed.


Lemma find_app' {A} (p : A -> bool) (l1 l2 : list A) :
  find p (l1 ++ l2) = match find p l1 with Some x => Some x | None => find p l2 end.
Proof. induction l1 as [|x l1 IH]; [reflexivity|]. cbn. destruct (p x); auto. Qed.

Lemma find_none_keys k (l : list Node) :
  find (hasKey k) l = None -> ~ In k (map key l).
Proof.
  intros H Hin. apply in_map_iff in Hin as (x & E & Hx).
  apply (find_none _ _ H) in Hx. apply hasKey_eq in E. congruence.
Qed.

Lemma find_some_keys k (l : list Node) y :
  find (hasKey k) l = Some y -> In k (map key l).
Proof.
  intros H. apply find_some in H as [H1 H2]. apply hasKey_eq in H2. subst k.
  now apply in_map.
Qed.

Lemma spliceChildren_absent k repl (ns : list Node) :
  ~ In k (flat_map keysOf ns) ->
  flat_map (fun c => if hasKey k c then repl else [splice k repl c]) ns = ns.
Proof.
  intros H.
  pose proof (splice_absent k repl (Elem KDocument 0%N EmptyString false [] ns) H) as E.
  cbn [splice] in E. injection E as E. exact E.
Qed.

Lemma key_splice k repl n : key (splice k repl n) = key n.
Proof. destruct n; reflexivity. Qed.

(** The keys after a splice: those of the replaced node give way to
    those of the replacement, the rest stays. *)
Lemma splice_keys k (d : Node) :
  NoDup (flat_map keysOf (nodes d)) -> forall y, getDescendant d k = Some y ->
  exists rest,
    Permutation (flat_map keysOf (nodes d)) (keysOf y ++ rest)
    /\ forall repl, Permutation (flat_map keysOf (nodes (splice k repl d)))
                      (flat_map keysOf repl ++ rest).
Proof.
  induction d as [k0 cs|kd k0 ty v dt ns IH] using Node_ind2; intros Hnd y Hy; [discriminate|].
  unfold getDescendant in Hy. cbn [descendants] in Hy. cbn [splice nodes].
  cbn [nodes] in Hnd.
  revert y Hy.
  induction IH as [|c ns Hc _ IHns]; intros y Hy; [discriminate|].
  cbn [flat_map] in *. apply NoDup_app_remove_l in Hnd as Htl.
  pose proof (NoDup_app_remove_r _ _ Hnd) as Hcn.
  assert (Hdisj : forall x, In x (keysOf c) -> ~ In x (flat_map keysOf ns)).
  { intros x Hx Hx'. revert Hnd Hx Hx'. clear. generalize (keysOf c) (flat_map keysOf ns).
    induction l as [|a l IH]; intros l' Hnd Hx Hx'; [destruct Hx|].
    cbn in Hnd. apply NoDup_cons_iff in Hnd as [Ha Hnd].
    destruct Hx as [->|Hx]; [apply Ha, in_or_app; now right|eauto]. }
  cbn [app find] in Hy.
  destruct (hasKey k c) eqn:Ekc.
  - inversion Hy; subst y. apply hasKey_eq in Ekc.
    exists (flat_map keysOf ns). split; [reflexivity|]. intros repl.
    rewrite flat_map_app, spliceChildren_absent; [reflexivity|].
    apply Hdisj. rewrite keysOf_cons. now left.
  - rewrite find_app' in Hy. destruct (find (hasKey k) (descendants c)) as [y'|] eqn:Ec.
    + inversion Hy; subst y'. clear Hy.
      rewrite keysOf_cons in Hcn. apply NoDup_cons_iff in Hcn as [_ Hcn].
      destruct (Hc Hcn y Ec) as (rest & P1 & P2).
      exists (key c :: rest ++ flat_map keysOf ns). split.
      * rewrite (keysOf_cons c). cbn [app]. rewrite P1.
        rewrite <- app_assoc. apply Permutation_middle.
      * intros repl. cbn [flat_map]. rewrite spliceChildren_absent.
        2:{ apply Hdisj. rewrite keysOf_cons. right. rewrite <- descendants_keys.
            eapply find_some_keys; eassumption. }
        cbn [app flat_map]. rewrite (keysOf_cons (splice k repl c)), key_splice.
        cbn [app]. rewrite (P2 repl), <- app_assoc. apply Permutation_middle.
    + apply find_none_keys in Ec. rewrite descendants_keys in Ec.
      destruct (IHns Htl y Hy) as (rest & P1 & P2).
      exists (keysOf c ++ rest). split.
      * rewrite P1. rewrite !app_assoc. apply Permutation_app_tail, Permutation_app_comm.
      * intros repl. cbn [app flat_map]. rewrite splice_absent by exact Ec.
        rewrite (P2 repl). rewrite !app_assoc.
        apply Permutation_app_tail, Permutation_app_comm.
Qed.


(** *** Counting keys *)

Lemma occ_app l1 l2 a : occ (l1 ++ l2) a = (occ l1 a + occ l2 a)%nat.
Proof. apply count_occ_app. Qed.

Lemma occ_nil a : occ [] a = 0%nat.
Proof. reflexivity. Qed.

Lemma occ_cons x l a : occ (x :: l) a = (occ1 x a + occ l a)%nat.
Proof. unfold occ, occ1. cbn. destruct (N.eq_dec x a); reflexivity. Qed.

Lemma occ1_le x a : (occ1 x a <= 1)%nat.
Proof. unfold occ1. destruct (N.eq_dec x a); lia. Qed.

Lemma occ1_pos x a : (occ1 x a > 0)%nat -> x = a.
Proof. unfold occ1. destruct (N.eq_dec x a); [auto|lia]. Qed.

Lemma occ1_self x : occ1 x x = 1%nat.
Proof. unfold occ1. destruct (N.eq_dec x x); [reflexivity|contradiction]. Qed.

Lemma occ_In l a : In a l <-> (occ l a > 0)%nat.
Proof. apply count_occ_In. Qed.

Lemma NoDup_occ l : NoDup l <-> forall a, (occ l a <= 1)%nat.
Proof. apply NoDup_count_occ. Qed.

Lemma occ_perm l1 l2 : Permutation l1 l2 -> forall a, occ l1 a = occ l2 a.
Proof. intros H a. now apply Permutation_count_occ. Qed.

Lemma occ_keysOf n a : occ (keysOf n) a = (occ1 (key n) a + occ (flat_map keysOf (nodes n)) a)%nat.
Proof. rewrite keysOf_cons. apply occ_cons. Qed.

Lemma occ_flat_map_app (l1 l2 : list Node) a :
  occ (flat_map keysOf (l1 ++ l2)) a
  = (occ (flat_map keysOf l1) a + occ (flat_map keysOf l2) a)%nat.
Proof. now rewrite flat_map_app, occ_app. Qed.

Lemma occ_flat_map_cons (x : Node) (l : list Node) a :
  occ (flat_map keysOf (x :: l)) a = (occ (keysOf x) a + occ (flat_map keysOf l) a)%nat.
Proof. cbn [flat_map]. apply occ_app. Qed.

(** The keys after a splice, counted. *)
Lemma splice_occ k (d y : Node) :
  NoDup (keysOf d) -> getDescendant d k = Some y ->
  exists rest,
    (forall a, occ (keysOf d) a = (occ (keysOf y) a + occ rest a)%nat)
    /\ forall repl a, occ (keysOf (splice k repl d)) a
                     = (occ (flat_map keysOf repl) a + occ rest a)%nat.
Proof.
  intros Hnd Hy. rewrite keysOf_cons in Hnd. apply NoDup_cons_iff in Hnd as [_ Hnd].
  destruct (@splice_keys k d Hnd y Hy) as (rest & P1 & P2).
  exists (key d :: rest). split.
  - intros a. rewrite occ_keysOf, (occ_perm P1), occ_app, occ_cons. lia.
  - intros repl a. rewrite occ_keysOf, key_splice, (occ_perm (P2 repl)), occ_app, occ_cons.
    lia.
Qed.

Lemma updateText_keys k f (n : Node) : keysOf (updateText k f n) = keysOf n.
Proof.
  induction n as [k0 cs|kd k0 ty v d ns IH] using Node_ind2.
  - cbn. destruct (N.eqb k0 k); reflexivity.
  - cbn [updateText keysOf]. f_equal.
    induction IH as [|c ns Hc _ IHns]; [reflexivity|]. cbn. now rewrite Hc, IHns.
Qed.

Lemma hasDescendant_get d k :
  hasDescendant d k = true -> exists y, getDescendant d k = Some y.
Proof.
  unfold hasDescendant, getDescendant. intros H.
  apply existsb_exists in H as (x & Hx & Hk).
  destruct (find (hasKey k) (descendants d)) eqn:E; [eauto|].
  apply (find_none _ _ E) in Hx. congruence.
Qed.

Lemma removeDescendant_occ d k d' :
  removeDescendant d k = Some d' -> NoDup (keysOf d) ->
  forall a, (occ (keysOf d') a <= occ (keysOf d) a)%nat.
Proof.
  unfold removeDescendant. destruct (hasDescendant d k) eqn:E; [|discriminate].
  intros [= <-] Hnd a. apply hasDescendant_get in E as (y & Hy).
  destruct (@splice_occ k d y Hnd Hy) as (rest & P1 & P2).
  rewrite (P2 [] a), (P1 a). cbn [flat_map]. rewrite occ_nil. lia.
Qed.

Lemma listInsert_occ index (x : Node) (ns : list Node) a :
  occ (flat_map keysOf (listInsert index x ns)) a
  = (occ (flat_map keysOf ns) a + occ (keysOf x) a)%nat.
Proof.
  unfold listInsert. set (i := Z.to_nat _).
  rewrite occ_flat_map_app, occ_flat_map_cons.
  rewrite <- (firstn_skipn i ns) at 3. rewrite occ_flat_map_app. lia.
Qed.

Lemma insertNode_occ d pk index x d' :
  insertNode d pk index x = Some d' -> NoDup (keysOf d) ->
  forall a, occ (keysOf d') a = (occ (keysOf d) a + occ (keysOf x) a)%nat.
Proof.
  unfold insertNode. destruct (hasKey pk d).
  - destruct d as [|kd k ty v dt ns]; [discriminate|]. intros [= <-] _ a.
    cbn [setNodes]. rewrite (occ_keysOf (Elem kd k ty v dt ns)), (occ_keysOf (Elem _ _ _ _ _ (listInsert _ _ _))).
    cbn [key nodes]. rewrite listInsert_occ. lia.
  - destruct (getDescendant d pk) as [[|kd k ty v dt ns]|] eqn:E; try discriminate.
    intros [= <-] Hnd a. destruct (@splice_occ pk d _ Hnd E) as (rest & P1 & P2).
    rewrite (P2 _ a), (P1 a). cbn [flat_map]. rewrite app_nil_r.
    rewrite (occ_keysOf (Elem kd k ty v dt ns)), (occ_keysOf (Elem _ _ _ _ _ (listInsert _ _ _))).
    cbn [key nodes]. rewrite listInsert_occ. lia.
Qed.

Lemma moveNode_occ d k nk index d' :
  moveNode d k nk index = Some d' -> NoDup (keysOf d) ->
  forall a, occ (keysOf d') a = occ (keysOf d) a.
Proof.
  unfold moveNode. destruct (getDescendant d k) as [x|] eqn:E; [|discriminate].
  intros H Hnd a. destruct (@splice_occ k d _ Hnd E) as (rest & P1 & P2).
  assert (Hnd1 : NoDup (keysOf (splice k [] d))).
  { apply NoDup_occ. intros b. rewrite (P2 [] b). cbn [flat_map]. rewrite occ_nil.
    apply NoDup_occ with (a := b) in Hnd. rewrite (P1 b) in Hnd. lia. }
  rewrite (@insertNode_occ _ _ _ _ _ H Hnd1 a), (P2 [] a), (P1 a).
  cbn [flat_map]. rewrite occ_nil. lia.
Qed.


(** The keys of the two halves of a split: those of the node and, for
    the second half, fresh ones drawn from the generator. *)
Lemma splitPath_occ tk i (x : Node) : forall g one two g',
  splitPath tk i x g = Some (one, two, g') ->
  exists fresh,
    (forall a, (occ (keysOf one) a + occ (keysOf two) a
                = occ (keysOf x) a + occ fresh a)%nat)
    /\ (forall a, (occ fresh a <= 1)%nat)
    /\ (forall a, (occ fresh a > 0)%nat -> (g <= a < g')%N)
    /\ (g <= g')%N.
Proof.
  induction x as [k cs|kd k ty v dt ns IH] using Node_ind2; intros g one two g' H.
  - cbn in H. destruct (N.eqb k tk); [|discriminate]. inversion H; subst. clear H.
    exists [g]. refine (conj _ (conj _ (conj _ _))).
    + intros a. cbn [keysOf]. rewrite !occ_cons, !occ_nil. lia.
    + intros a. rewrite occ_cons, occ_nil. pose proof (occ1_le g a). lia.
    + intros a H. rewrite occ_cons, occ_nil in H.
      assert (g = a) by (apply occ1_pos; lia). lia.
    + lia.
  - cbn [splitPath] in H.
    assert (Hgo : forall before,
      (fix go (before l : list Node) {struct l} : option (Node * Node * N) :=
         match l with
         | [] => None
         | x :: l' =>
             match splitPath tk i x g with
             | Some (one, two, c') =>
                 Some (Elem kd k ty v dt (rev before ++ [one]),
                       Elem kd c' ty v dt (two :: l'), N.succ c')
             | None => go (x :: before) l'
             end
         end) before ns = Some (one, two, g') ->
      exists fresh,
        (forall a, (occ (keysOf one) a + occ (keysOf two) a
                    = occ1 k a + occ (flat_map keysOf (rev before)) a
                      + occ (flat_map keysOf ns) a + occ fresh a)%nat)
        /\ (forall a, (occ fresh a <= 1)%nat)
        /\ (forall a, (occ fresh a > 0)%nat -> (g <= a < g')%N)
        /\ (g <= g')%N).
    { clear H. induction IH as [|c ns Hc _ IHns]; intros before H; [discriminate|].
      destruct (splitPath tk i c g) as [[[oc tc] c']|] eqn:E.
      - inversion H; subst. clear H.
        destruct (Hc _ _ _ _ E) as (fresh & F1 & F2 & F3 & F4).
        exists (c' :: fresh). refine (conj _ (conj _ (conj _ _))).
        + intros a. specialize (F1 a).
          rewrite (occ_keysOf (Elem _ _ _ _ _ (rev before ++ [oc]))),
                  (occ_keysOf (Elem _ c' _ _ _ _)).
          cbn [key nodes]. rewrite occ_flat_map_app, !occ_flat_map_cons.
          cbn [flat_map]. rewrite occ_nil, occ_cons. lia.
        + intros a. rewrite occ_cons. specialize (F2 a). pose proof (occ1_le c' a).
          destruct (Nat.eq_dec (occ1 c' a) 0) as [|Hne]; [lia|].
          assert (c' = a) by (apply occ1_pos; lia). subst a.
          destruct (Nat.eq_dec (occ fresh c') 0) as [|Hne']; [lia|].
          assert (g <= c' < c')%N by (apply F3; lia). lia.
        + intros a H. rewrite occ_cons in H.
          destruct (Nat.eq_dec (occ1 c' a) 0) as [Hz|Hne].
          * assert (g <= a < c')%N by (apply F3; lia). lia.
          * assert (c' = a) by (apply occ1_pos; lia). lia.
        + lia.
      - destruct (IHns (c :: before) H) as (fresh & F1 & F2 & F3 & F4).
        exists fresh. refine (conj _ (conj F2 (conj F3 F4))).
        intros a. rewrite (F1 a). cbn [rev]. rewrite occ_flat_map_app, !occ_flat_map_cons.
        cbn [flat_map]. rewrite occ_nil. lia. }
    destruct (Hgo [] H) as (fresh & F1 & F2 & F3 & F4).
    exists fresh. refine (conj _ (conj F2 (conj F3 F4))).
    intros a. rewrite (F1 a), (occ_keysOf (Elem kd k ty v dt ns)). cbn [key nodes rev flat_map].
    rewrite occ_nil. lia.
Qed.

Lemma splitNode_occ d k off g d' g' :
  splitNode d k off g = Some (d', g') -> NoDup (keysOf d) ->
  exists fresh,
    (forall a, occ (keysOf d') a = (occ (keysOf d) a + occ fresh a)%nat)
    /\ (forall a, (occ fresh a <= 1)%nat)
    /\ (forall a, (occ fresh a > 0)%nat -> (g <= a < g')%N)
    /\ (g <= g')%N.
Proof.
  unfold splitNode. destruct (getDescendant d k) as [x|] eqn:E; [|discriminate].
  destruct (textAtOffset (getTexts x) off) as [[t i]|]; [|discriminate].
  destruct (splitPath (key t) i x g) as [[[one two] c']|] eqn:Es; [|discriminate].
  intros [= <- <-] Hnd.
  destruct (splitPath_occ _ _ _ _ Es) as (fresh & F1 & F2 & F3 & F4).
  destruct (@splice_occ k d x Hnd E) as (rest & P1 & P2).
  exists fresh. refine (conj _ (conj F2 (conj F3 F4))).
  intros a. rewrite (P2 [one; two] a), (P1 a). cbn [flat_map].
  rewrite app_nil_r, occ_app. specialize (F1 a). lia.
Qed.


(** *** The invariant under the primitives *)

Lemma Inv_unique d g P : Inv d g P -> NoDup (keysOf d).
Proof. intros [H _]. apply NoDup_occ. intros a. specialize (H a). lia. Qed.

Lemma Inv_nil d g : Inv d g [] <-> uniqueKeys d /\ issuedBelow g (keysOf d).
Proof.
  unfold Inv, uniqueKeys, issuedBelow. split.
  - intros [H1 H2]. split.
    + apply NoDup_occ. intros a. specialize (H1 a). lia.
    + apply Forall_forall. intros a Ha. apply H2. apply occ_In in Ha. lia.
  - intros [H1 H2]. split.
    + intros a. rewrite occ_nil. apply NoDup_occ with (a := a) in H1. lia.
    + intros a Ha. rewrite occ_nil in Ha. rewrite Forall_forall in H2. apply H2.
      apply occ_In. lia.
Qed.

Lemma Inv_weaken d g P P' :
  (forall a, (occ P' a <= occ P a)%nat) -> Inv d g P -> Inv d g P'.
Proof.
  intros Hle [H1 H2]. split; intros a; specialize (Hle a); specialize (H1 a).
  - lia.
  - intros Ha. apply H2. lia.
Qed.

Lemma onText_keys d k f d' : onText d k f = Some d' -> keysOf d' = keysOf d.
Proof.
  unfold onText. destruct (getDescendant d k) as [[]|]; try discriminate.
  intros [= <-]. apply updateText_keys.
Qed.

Lemma option_map_some {A B} (f : A -> B) o b :
  option_map f o = Some b -> exists a, o = Some a /\ b = f a.
Proof. destruct o; [intros [= <-]; eauto|discriminate]. Qed.

Lemma Inv_same_keys d d' g P : keysOf d' = keysOf d -> Inv d g P -> Inv d' g P.
Proof. unfold Inv. now intros ->. Qed.

(** A call that inserts no foreign node keeps the keys unique and below
    the counter of the generator, whatever is pending. *)
Lemma perform_neutral c d g d' g' P :
  keyNeutral c = true ->
  performOnDocument c d g = Some (d', g') -> Inv d g P -> Inv d' g' P /\ (g <= g')%N.
Proof.
  intros Hc H HI. pose proof (Inv_unique HI) as Hnd.
  destruct c; try discriminate; cbn [performOnDocument] in H;
    try (apply option_map_some in H as (d1 & H & E); inversion E; subst d' g'; clear E);
    try (inversion H; subst; split; [exact HI|lia]).
  - split; [|lia]. eapply Inv_same_keys; [eapply onText_keys; eassumption|assumption].
  - split; [|lia]. eapply Inv_same_keys; [eapply onText_keys; eassumption|assumption].
  - split; [|lia]. eapply Inv_same_keys; [eapply onText_keys; eassumption|assumption].
  - split; [|lia]. eapply Inv_same_keys; [eapply onText_keys; eassumption|assumption].
  - destruct (splitNode_occ _ _ _ _ H Hnd) as (fresh & F1 & F2 & F3 & F4).
    split; [|exact F4].
    destruct HI as [H1 H2]. split; intros a; rewrite (F1 a).
    + specialize (H1 a). specialize (F2 a).
      destruct (Nat.eq_dec (occ fresh a) 0) as [|Hne]; [lia|].
      assert (g <= a < g')%N by (apply F3; lia).
      destruct (Nat.eq_dec (occ (keysOf d) a + occ P a) 0) as [|Hne']; [lia|].
      assert (a < g)%N by (apply H2; lia). lia.
    + intros Ha. destruct (Nat.eq_dec (occ fresh a) 0) as [Hz|Hne].
      * assert (a < g)%N by (apply H2; lia). lia.
      * assert (g <= a < g')%N by (apply F3; lia). lia.
  - split; [|lia]. pose proof (removeDescendant_occ _ _ H Hnd) as Hle.
    destruct HI as [H1 H2]. split; intros a; specialize (Hle a); specialize (H1 a).
    + lia.
    + intros Ha. apply H2. lia.
  - split; [|lia]. pose proof (moveNode_occ _ _ _ _ H Hnd) as He.
    destruct HI as [H1 H2]. split; intros a; rewrite (He a); auto.
Qed.

(** Inserting a node whose keys are pending makes them keys of the
    document. *)
Lemma perform_insert pk index x o d g d' g' P :
  performOnDocument (insertNodeByKey pk index x o) d g = Some (d', g') ->
  Inv d g (keysOf x ++ P) -> Inv d' g' P /\ g' = g.
Proof.
  intros H HI. pose proof (Inv_unique HI) as Hnd. cbn [performOnDocument] in H.
  apply option_map_some in H as (d1 & H & E). inversion E; subst d' g'; clear E.
  split; [|reflexivity].
  pose proof (insertNode_occ _ _ _ _ H Hnd) as He.
  destruct HI as [H1 H2].
  split; intros a; rewrite (He a); specialize (H1 a); specialize (H2 a);
    rewrite occ_app in H1, H2; [lia|intros Ha; apply H2; lia].
Qed.



(** *** Regenerated keys *)

(** After [mapDescendants regenerateKey] every descendant carries a key
    of its own, drawn from the generator during the traversal. *)
Lemma regenerate_occ (f : Node) : forall g f' g',
  mapDescendants regenerateKey f g = (f', g') ->
  (forall a, (occ (flat_map keysOf (nodes f')) a <= 1)%nat)
  /\ (forall a, (occ (flat_map keysOf (nodes f')) a > 0)%nat -> (g <= a < g')%N)
  /\ (g <= g')%N.
Proof.
  induction f as [k cs|kd k ty v dt ns IH] using Node_ind2; intros g f' g' H.
  - cbn in H. inversion H; subst. cbn. repeat split; try lia; rewrite occ_nil in *; lia.
  - cbn [mapDescendants] in H.
    assert (Hgo : forall c l' c',
      (fix go (l : list Node) (c : N) {struct l} : list Node * N :=
         match l with
         | [] => ([], c)
         | x :: l' =>
             let (x1, c1) := mapDescendants regenerateKey x c in
             let (x2, c2) := regenerateKey x1 c1 in
             let (l2, c3) := go l' c2 in (x2 :: l2, c3)
         end) ns c = (l', c') ->
      (forall a, (occ (flat_map keysOf l') a <= 1)%nat)
      /\ (forall a, (occ (flat_map keysOf l') a > 0)%nat -> (c <= a < c')%N)
      /\ (c <= c')%N).
    { clear H. induction IH as [|x ns Hx _ IHns]; intros c l' c' H.
      - inversion H; subst. cbn. repeat split; try lia; rewrite occ_nil in *; lia.
      - destruct (mapDescendants regenerateKey x c) as [x1 c1] eqn:E1.
        destruct (regenerateKey x1 c1) as [x2 c2] eqn:E2.
        destruct ((fix go (l : list Node) (c : N) {struct l} : list Node * N :=
                     match l with
                     | [] => ([], c)
                     | x :: l' =>
                         let (x1, c1) := mapDescendants regenerateKey x c in
                         let (x2, c2) := regenerateKey x1 c1 in
                         let (l2, c3) := go l' c2 in (x2 :: l2, c3)
                     end) ns c2) as [l2 c3] eqn:E3.
        inversion H; subst l' c'. clear H.
        destruct (Hx _ _ _ E1) as (A1 & A2 & A3).
        destruct (IHns _ _ _ E3) as (B1 & B2 & B3).
        assert (Hx2 : key x2 = c1 /\ nodes x2 = nodes x1 /\ c2 = N.succ c1).
        { destruct x1; cbn in E2; inversion E2; subst; auto. }
        destruct Hx2 as (K1 & K2 & K3).
        assert (Hocc : forall a, occ (flat_map keysOf (x2 :: l2)) a
                       = (occ1 c1 a + occ (flat_map keysOf (nodes x1)) a
                          + occ (flat_map keysOf l2) a)%nat).
        { intros a. rewrite occ_flat_map_cons, occ_keysOf, K1, K2. lia. }
        refine (conj _ (conj _ _)).
        + intros a. rewrite Hocc. specialize (A1 a). specialize (B1 a).
          pose proof (occ1_le c1 a).
          destruct (Nat.eq_dec (occ1 c1 a) 0) as [Z1|N1];
            destruct (Nat.eq_dec (occ (flat_map keysOf (nodes x1)) a) 0) as [Z2|N2];
            destruct (Nat.eq_dec (occ (flat_map keysOf l2) a) 0) as [Z3|N3]; try lia;
            try (assert (c1 = a) by (apply occ1_pos; lia));
            try (assert (c <= a < c1)%N by (apply A2; lia));
            try (assert (c2 <= a < c3)%N by (apply B2; lia)); lia.
        + intros a Ha. rewrite Hocc in Ha.
          destruct (Nat.eq_dec (occ1 c1 a) 0) as [Z1|N1];
            destruct (Nat.eq_dec (occ (flat_map keysOf (nodes x1)) a) 0) as [Z2|N2];
            destruct (Nat.eq_dec (occ (flat_map keysOf l2) a) 0) as [Z3|N3]; try lia;
            try (assert (c1 = a) by (apply occ1_pos; lia));
            try (assert (c <= a < c1)%N by (apply A2; lia));
            try (assert (c2 <= a < c3)%N by (apply B2; lia)); lia.
        + lia. }
    destruct ((fix go (l : list Node) (c : N) {struct l} : list Node * N :=
                 match l with
                 | [] => ([], c)
                 | x :: l' =>
                     let (x1, c1) := mapDescendants regenerateKey x c in
                     let (x2, c2) := regenerateKey x1 c1 in
                     let (l2, c3) := go l' c2 in (x2 :: l2, c3)
                 end) ns g) as [l' c'] eqn:E.
    inversion H; subst f' g'. cbn [nodes]. exact (Hgo _ _ _ E).
Qed.

(** *** Where the queries look *)

Lemma find_unique_key (l : list Node) (y : Node) :
  NoDup (map key l) -> In y l -> find (hasKey (key y)) l = Some y.
Proof.
  induction l as [|x l IH]; intros Hnd Hy; [destruct Hy|].
  cbn [map] in Hnd. apply NoDup_cons_iff in Hnd as [Hx Hnd]. cbn [find].
  destruct Hy as [->|Hy].
  - unfold hasKey. now rewrite N.eqb_refl.
  - destruct (hasKey (key y) x) eqn:E; [|auto].
    apply hasKey_eq in E. exfalso. apply Hx. rewrite E. now apply in_map.
Qed.

Lemma getDescendant_unique d y :
  NoDup (flat_map keysOf (nodes d)) -> In y (descendants d) ->
  getDescendant d (key y) = Some y.
Proof.
  intros Hnd Hy. apply find_unique_key; [|assumption]. now rewrite descendants_keys.
Qed.

Lemma children_descendants (n c : Node) : In c (nodes n) -> In c (descendants n).
Proof.
  destruct n as [|kd k ty v dt ns]; [intros []|]. cbn [nodes descendants]. intros H.
  apply in_flat_map. exists c. split; [assumption|now left].
Qed.

(** The chain of ancestors starts at the receiver, continues below it,
    and each of its nodes holds the node asked for. *)
Lemma getAncestors_spec k (n : Node) : forall a,
  getAncestors n k = Some a ->
  hd_error a = Some n
  /\ (forall e, In e (tl a) -> In e (descendants n))
  /\ (forall e, In e a -> exists z, In z (descendants e) /\ key z = k).
Proof.
  induction n as [k0 cs|kd k0 ty v dt ns IH] using Node_ind2; intros a H; [discriminate|].
  cbn [getAncestors] in H. destruct (existsb (hasKey k) ns) eqn:Ex.
  - inversion H; subst a. cbn. repeat split; [intros e []|].
    intros e [<-|[]]. apply existsb_exists in Ex as (z & Hz & Hk).
    exists z. split; [now apply (children_descendants (Elem kd k0 ty v dt ns))|].
    now apply hasKey_eq.
  - clear Ex.
    assert (Hgo : exists c a', In c ns /\ getAncestors c k = Some a'
                               /\ a = Elem kd k0 ty v dt ns :: a').
    { revert H. generalize (Elem kd k0 ty v dt ns) as n. intros n.
      clear IH. induction ns as [|c ns IHns]; intros H; [discriminate|].
      destruct (getAncestors c k) as [a'|] eqn:E.
      - inversion H; subst a. exists c, a'. repeat split; [now left|assumption].
      - destruct (IHns H) as (c' & a' & Hc & Ha & Hn).
        exists c', a'. repeat split; [now right|assumption|assumption]. }
    destruct Hgo as (c & a' & Hc & Ha & ->).
    rewrite Forall_forall in IH. destruct (IH c Hc a' Ha) as (A1 & A2 & A3).
    pose proof (children_descendants (Elem kd k0 ty v dt ns) c Hc) as Hcd.
    assert (Ha' : forall e, In e a' -> In e (descendants (Elem kd k0 ty v dt ns))).
    { intros e He. destruct a' as [|h t]; [destruct He|]. cbn in A1. inversion A1; subst h.
      destruct He as [<-|He]; [assumption|].
      eapply descendants_trans; [exact Hcd|apply A2; exact He]. }
    cbn [hd_error tl]. refine (conj eq_refl (conj Ha' _)).
    intros e [<-|He]; [|now apply A3].
    destruct a' as [|h t]; [discriminate|]. cbn in A1. inversion A1; subst h.
    destruct (A3 c (or_introl eq_refl)) as (z & Hz & Hk).
    exists z. split; [|assumption]. eapply descendants_trans; eassumption.
Qed.

Lemma getFurthest_spec f k p lc :
  getFurthest f k p = Some lc ->
  In lc (descendants f) /\ exists z, In z (descendants lc) /\ key z = k.
Proof.
  unfold getFurthest. destruct (getAncestors f k) as [a|] eqn:E; [|discriminate].
  intros H. apply find_some in H as [H _].
  destruct (getAncestors_spec _ _ E) as (A1 & A2 & A3). split; [now apply A2|].
  apply A3. destruct a; [destruct H|now right].
Qed.

Lemma getClosest_spec f k p b : getClosest f k p = Some b -> In b (descendants f).
Proof.
  unfold getClosest. destruct (getAncestors f k) as [a|] eqn:E; [|discriminate].
  intros H. apply find_some in H as [H _]. apply in_rev in H.
  destruct (getAncestors_spec _ _ E) as (A1 & A2 & A3). now apply A2.
Qed.

Lemma toOrderedSet_In (l : list (option Node)) : forall seen b,
  In b (toOrderedSet seen l) -> In (Some b) l.
Proof.
  induction l as [|[x|] l IH]; intros seen b H; [destruct H| |].
  - cbn [toOrderedSet] in H. destruct (existsb (N.eqb (key x)) seen).
    + right. eapply IH; eassumption.
    + destruct H as [->|H]; [now left|right; eapply IH; eassumption].
  - right. eapply IH; eassumption.
Qed.

Lemma getBlocks_descendants f b : In b (getBlocks f) -> In b (descendants f).
Proof.
  unfold getBlocks. intros H. apply toOrderedSet_In in H.
  apply in_map_iff in H as (t & Ht & _). unfold getClosestBlock in Ht.
  eapply getClosest_spec; eassumption.
Qed.

Lemma same_key_same_node (l : list Node) (y z : Node) :
  NoDup (map key l) -> In y l -> In z l -> key y = key z -> y = z.
Proof.
  intros Hnd Hy Hz E. pose proof (find_unique_key l y Hnd Hy) as F1.
  pose proof (find_unique_key l z Hnd Hz) as F2. rewrite E in F1. congruence.
Qed.

(** A descendant's keys are among those below the node, counted. *)
Lemma descendant_occ d y :
  NoDup (flat_map keysOf (nodes d)) -> In y (descendants d) ->
  forall a, (occ (keysOf y) a <= occ (flat_map keysOf (nodes d)) a)%nat.
Proof.
  intros Hnd Hy a. pose proof (getDescendant_unique d y Hnd Hy) as Hg.
  destruct (@splice_keys (key y) d Hnd y Hg) as (rest & P1 & _).
  rewrite (occ_perm P1), occ_app. lia.
Qed.

(** The pieces of a fragment that [insertFragmentAtRange] inserts do
    not share a key: the first block lies inside the lonely child that
    was taken out of the fragment. *)
Lemma fragment_pieces f fb f2 :
  NoDup (flat_map keysOf (nodes f)) ->
  In fb (descendants f) ->
  removeDescendant f
    (key (match getFurthest f (key fb) onlyChild with Some p => p | None => fb end))
    = Some f2 ->
  forall a, (occ (flat_map keysOf (nodes f2)) a + occ (keysOf fb) a
             <= occ (flat_map keysOf (nodes f)) a)%nat.
Proof.
  intros Hnd Hfb Hr a.
  set (lc := match getFurthest f (key fb) onlyChild with Some p => p | None => fb end) in *.
  assert (Hlc : In lc (descendants f)
                /\ forall b, (occ (keysOf fb) b <= occ (keysOf lc) b)%nat).
  { subst lc. destruct (getFurthest f (key fb) onlyChild) as [p|] eqn:E; [|split; auto].
    apply getFurthest_spec in E as (Hp & z & Hz & Hk). split; [assumption|].
    assert (z = fb).
    { apply (same_key_same_node (descendants f)); try assumption.
      - now rewrite descendants_keys.
      - eapply descendants_trans; eassumption. }
    subst z. intros b.
    assert (Hndp : NoDup (flat_map keysOf (nodes p))).
    { apply NoDup_occ. intros c. pose proof (descendant_occ f p Hnd Hp c) as Hle.
      rewrite occ_keysOf in Hle. apply NoDup_occ with (a := c) in Hnd. lia. }
    pose proof (descendant_occ p fb Hndp Hz b). rewrite (occ_keysOf p). lia. }
  destruct Hlc as [Hlc Hle].
  unfold removeDescendant in Hr. destruct (hasDescendant f (key lc)); [|discriminate].
  inversion Hr; subst f2. clear Hr.
  pose proof (getDescendant_unique f lc Hnd Hlc) as Hg.
  destruct (@splice_keys (key lc) f Hnd lc Hg) as (rest & P1 & P2).
  rewrite (occ_perm (P2 [])), (occ_perm P1), !occ_app. cbn [flat_map]. rewrite occ_nil.
  specialize (Hle a). lia.
Qed.

End KeyFacts.

(** *** The invariant under the functions of the file *)

Section KeyInvariant.

#[local] Existing Instance Model.collaborators.

Variables (base : list Call) (g0 : N).

Lemma InvT_weaken P P' tr :
  (forall a, (occ P' a <= occ P a)%nat) -> InvT base g0 P tr -> InvT base g0 P' tr.
Proof.
  intros Hle (HI & Hg & Hf & Hc). refine (conj _ (conj Hg (conj _ Hc))).
  - eapply Inv_weaken; eassumption.
  - intros a Ha. apply Hf. specialize (Hle a). lia.
Qed.

Lemma call_neutral c : keyNeutral c = true -> Keeps base g0 (call c).
Proof.
  intros Hc P tr [] tr' (HI & Hg & Hf & cs & Hcs & Hfr) H.
  unfold call in H. cbn [perform Model.collaborators] in H. unfold Model.perform in H.
  destruct (Model.performOnDocument c (document (state tr)) (nextKey tr)) as [[d g]|] eqn:E;
    [|discriminate].
  inversion H; subst tr'. unfold InvT. cbn [state document nextKey calls].
  edestruct perform_neutral as [HI' Hle]; [exact Hc|exact E|exact HI|].
  refine (conj HI' (conj _ (conj Hf _))); [lia|].
  exists (cs ++ [c]). rewrite Hcs, app_assoc. split; [reflexivity|].
  apply Forall_app. split; [assumption|]. constructor; [|constructor].
  destruct c; try exact I; discriminate.
Qed.

Lemma call_insert pk index x o P :
  Step base g0 (Model.keysOf x ++ P) P (call (insertNodeByKey pk index x o)).
Proof.
  intros tr [] tr' (HI & Hg & Hf & cs & Hcs & Hfr) H.
  unfold call in H. cbn [perform Model.collaborators] in H. unfold Model.perform in H.
  destruct (Model.performOnDocument _ (document (state tr)) (nextKey tr)) as [[d g]|] eqn:E;
    [|discriminate].
  inversion H; subst tr'. unfold InvT. cbn [state document nextKey calls].
  edestruct perform_insert as [HI' Eg]; [exact E|exact HI|]. subst g.
  refine (conj HI' (conj Hg (conj _ _))).
  - intros a Ha. apply Hf. rewrite occ_app. lia.
  - exists (cs ++ [insertNodeByKey pk index x o]). rewrite Hcs, app_assoc.
    split; [reflexivity|]. apply Forall_app. split; [assumption|].
    constructor; [|constructor]. cbn [freshInsert]. apply Forall_forall.
    intros a Ha. apply Hf. rewrite occ_app. apply occ_In in Ha. lia.
Qed.

Lemma step_bind {A B} P Q R (m : M A) (f : A -> M B) :
  Step base g0 P Q m -> (forall a, Step base g0 Q R (f a)) -> Step base g0 P R (bind m f).
Proof.
  intros Hm Hf tr b tr' HI H. unfold bind in H.
  destruct (m tr) as [[a t1]|] eqn:E; [|discriminate].
  eapply Hf; [eapply Hm; eassumption|eassumption].
Qed.

(** A bind after which the pending keys depend on the value bound. *)
Lemma step_bind_value {A B} P (Q : A -> list Key) R (m : M A) (f : A -> M B) :
  (forall tr a tr', InvT base g0 P tr -> m tr = Some (a, tr') -> InvT base g0 (Q a) tr') ->
  (forall a, Step base g0 (Q a) R (f a)) -> Step base g0 P R (bind m f).
Proof.
  intros Hm Hf tr b tr' HI H. unfold bind in H.
  destruct (m tr) as [[a t1]|] eqn:E; [|discriminate].
  eapply Hf; [eapply Hm; eassumption|eassumption].
Qed.

Lemma step_weaken {A} P P' Q (m : M A) :
  (forall tr, InvT base g0 P tr -> forall a, (occ P' a <= occ P a)%nat) ->
  Step base g0 P' Q m -> Step base g0 P Q m.
Proof.
  intros Hle Hm tr a tr' HI H. eapply Hm; [|eassumption].
  eapply InvT_weaken; [apply (Hle tr HI)|exact HI].
Qed.

Lemma keeps_ret {A} (a : A) : Keeps base g0 (ret a).
Proof. intros P tr x tr' HI [= <- <-]. exact HI. Qed.

Lemma keeps_throw {A} : Keeps base g0 (@throw A).
Proof. intros P tr x tr' HI [=]. Qed.

Lemma keeps_must {A} (o : option A) : Keeps base g0 (must o).
Proof. destruct o; [apply keeps_ret|apply keeps_throw]. Qed.

Lemma keeps_getDocument : Keeps base g0 getDocument.
Proof. intros P tr x tr' HI [= <- <-]. exact HI. Qed.

Lemma keeps_bind {A B} (m : M A) (f : A -> M B) :
  Keeps base g0 m -> (forall a, Keeps base g0 (f a)) -> Keeps base g0 (bind m f).
Proof. intros Hm Hf P. eapply step_bind; [apply Hm|intros a; apply Hf]. Qed.

Lemma keeps_when (b : bool) (m : M unit) : Keeps base g0 m -> Keeps base g0 (when b m).
Proof. destruct b; [auto|intros _; apply keeps_ret]. Qed.

Lemma keeps_forEachFrom {A} (l : list A) (f : A -> Z -> M unit) :
  (forall x i, Keeps base g0 (f x i)) -> forall i, Keeps base g0 (forEachFrom i l f).
Proof.
  intros Hf. induction l as [|x l IH]; intros i; cbn [forEachFrom].
  - apply keeps_ret.
  - apply keeps_bind; [apply Hf|intros _; apply IH].
Qed.

Lemma keeps_forEach {A} (l : list A) (f : A -> Z -> M unit) :
  (forall x i, Keeps base g0 (f x i)) -> Keeps base g0 (forEach l f).
Proof. intros Hf. now apply keeps_forEachFrom. Qed.

Ltac keeps_step0 :=
  cbv beta zeta;
  match goal with
  | |- Keeps _ _ (ret _) => apply keeps_ret
  | |- Keeps _ _ throw => apply keeps_throw
  | |- Keeps _ _ (must _) => apply keeps_must
  | |- Keeps _ _ getDocument => apply keeps_getDocument
  | |- Keeps _ _ (assertDescendant _ _) => apply keeps_must
  | |- Keeps _ _ (call _) => apply call_neutral; reflexivity
  | |- Keeps _ _ (bind _ _) => apply keeps_bind; [|intros ?]
  | |- Keeps _ _ (when _ _) => apply keeps_when
  | |- Keeps _ _ (forEach _ _) => apply keeps_forEach; intros ? ?
  | |- Keeps _ _ (if ?b then _ else _) => destruct b
  | |- Keeps _ _ (match ?x with _ => _ end) => destruct x
  end.

Lemma keeps_deleteAtRange (range : Range) (options : Options) :
  Keeps base g0 (deleteAtRange range options).
Proof. unfold deleteAtRange. repeat keeps_step0. Qed.

Ltac keeps_step :=
  first [ apply keeps_deleteAtRange | keeps_step0 ].

(** Inserting the nodes of a list one by one takes their keys from the
    pending ones. *)
Lemma insert_each (pk : Node -> Z -> Key) (ix : Node -> Z -> Z) (o : Options)
  (l : list Node) : forall i P,
  Step base g0 (flat_map Model.keysOf l ++ P) P
    (forEachFrom i l (fun x j => call (insertNodeByKey (pk x j) (ix x j) x o))).
Proof.
  induction l as [|x l IH]; intros i P; cbn [forEachFrom flat_map].
  - apply keeps_ret.
  - rewrite <- app_assoc. eapply step_bind; [apply call_insert|intros _; apply IH].
Qed.

Lemma step_bind_ret {A B} P Q (a : A) (f : A -> M B) :
  Step base g0 P Q (f a) -> Step base g0 P Q (bind (ret a) f).
Proof. intros H tr b tr' HI E. exact (H tr b tr' HI E). Qed.

Lemma step_bind_throw {A B} P Q (f : A -> M B) : Step base g0 P Q (bind throw f).
Proof. intros tr b tr' HI E. discriminate. Qed.

Lemma step_keeps {A} P (m : M A) : Keeps base g0 m -> Step base g0 P P m.
Proof. intros H. apply H. Qed.

Lemma regenerate_step (fragment : Node) tr f' tr' :
  InvT base g0 [] tr -> regenerateFragment fragment tr = Some (f', tr') ->
  InvT base g0 (flat_map Model.keysOf (nodes f')) tr'.
Proof.
  intros ([H1 H2] & Hg & Hf & Hc) H. unfold regenerateFragment in H.
  destruct (mapDescendants regenerateKey fragment (nextKey tr)) as [f1 g1] eqn:E.
  inversion H; subst f' tr'. clear H.
  destruct (regenerate_occ _ _ E) as (A1 & A2 & A3).
  unfold InvT, Inv. cbn [state document nextKey calls].
  refine (conj (conj _ _) (conj _ (conj _ Hc))).
  - intros a. specialize (H1 a). specialize (A1 a). rewrite occ_nil in H1.
    destruct (Nat.eq_dec (occ (flat_map Model.keysOf (nodes f1)) a) 0) as [|Hne]; [lia|].
    assert (nextKey tr <= a < g1)%N by (apply A2; lia).
    destruct (Nat.eq_dec (occ (Model.keysOf (document (state tr))) a) 0) as [|Hne']; [lia|].
    assert (a < nextKey tr)%N by (apply H2; rewrite occ_nil; lia). lia.
  - intros a Ha.
    destruct (Nat.eq_dec (occ (flat_map Model.keysOf (nodes f1)) a) 0) as [Hz|Hne].
    + assert (a < nextKey tr)%N by (apply H2; rewrite occ_nil; lia). lia.
    + assert (nextKey tr <= a < g1)%N by (apply A2; lia). lia.
  - lia.
  - intros a Ha. assert (nextKey tr <= a < g1)%N by (apply A2; lia). lia.
Qed.

Lemma InvT_pending_unique P tr : InvT base g0 P tr -> NoDup P.
Proof. intros ([H _] & _). apply NoDup_occ. intros a. specialize (H a). lia. Qed.

(** Steps over a bind whose first part changes no key. *)
Ltac pure_bind x :=
  eapply step_bind; [apply step_keeps; repeat keeps_step|intros x]; cbv beta zeta.

(** Steps over [x <- must o], keeping the value. *)
Ltac must_bind x E :=
  match goal with
  | |- Step _ _ _ _ (bind (must ?o) _) =>
      destruct o as [x|] eqn:E; cbn [must]; [apply step_bind_ret|apply step_bind_throw]
  end; cbv beta zeta.

Lemma insertFragmentAtRange_step (range : Range) (fragment : Node) (options : Options) :
  Step base g0 [] [] (insertFragmentAtRange range fragment options).
Proof.
  unfold insertFragmentAtRange. cbv zeta.
  pure_bind r1. destruct (node_length fragment =? 0); [apply step_keeps, keeps_ret|].
  eapply step_bind_value with (Q := fun f' => flat_map Model.keysOf (nodes f')).
  { intros tr f' tr'. apply regenerate_step. }
  intros f'. cbv beta.
  cbn [getBlocks getFurthest removeDescendant Model.collaborators].
  pure_bind d1. pure_bind st1. pure_bind sb1. pure_bind sc1.
  pure_bind par. pure_bind off.
  destruct (first (Model.getBlocks f')) as [fb|] eqn:Efb.
  2:{ (* no block in the fragment: the run throws before it inserts *)
      eapply step_bind with (Q := []).
      { eapply step_weaken with (P' := []); [intros; rewrite occ_nil; lia|].
        destruct (negb _); cbn [when]; [apply step_bind_throw|apply step_keeps, keeps_ret]. }
      intros _. pure_bind u. pure_bind d2. pure_bind st2.
      pure_bind sb2. pure_bind u2.
      eapply step_bind with (Q := []); [|intros _; apply step_keeps; repeat keeps_step].
      destruct (isEmpty _).
      - pure_bind u3. apply step_bind_throw.
      - apply step_bind_throw. }
  assert (Hfb : In fb (Model.descendants f')).
  { apply getBlocks_descendants. destruct (Model.getBlocks f'); [discriminate|].
    cbn in Efb. inversion Efb. now left. }
  eapply step_bind with (Q := Model.keysOf fb).
  { destruct (negb _); cbn [when].
    - apply step_bind_ret. must_bind f2 E.
      eapply step_weaken with (P' := flat_map Model.keysOf (nodes f2) ++ Model.keysOf fb).
      + intros tr HI a. rewrite occ_app.
        apply (fragment_pieces f' fb (InvT_pending_unique HI) Hfb E).
      + apply (insert_each (fun _ _ => key par)
                 (fun _ i => indexOf (nodes par) sb1 + i + 1)).
    - eapply step_weaken with (P' := Model.keysOf fb); [|apply step_keeps, keeps_ret].
      intros tr HI a. apply descendant_occ; [exact (InvT_pending_unique HI)|exact Hfb]. }
  intros _. pure_bind u. pure_bind d2. pure_bind st2.
  pure_bind sb2. pure_bind u2.
  eapply step_bind with (Q := []); [|intros _; apply step_keeps; repeat keeps_step].
  destruct (isEmpty _).
  - pure_bind u3. apply step_bind_ret.
    rewrite <- (app_nil_r (Model.keysOf fb)). apply call_insert.
  - apply step_bind_ret.
    eapply step_weaken with (P' := flat_map Model.keysOf (nodes fb) ++ []).
    + intros tr HI a. rewrite app_nil_r, (occ_keysOf fb). lia.
    + apply (insert_each (fun _ _ => key sb2)
               (fun _ i => indexOfOpt (nodes sb2)
                             (getHighestChild sb2 (key st2)) + i
                           + (if startOffset r1 =? 0 then 0 else 1))).
Qed.

End KeyInvariant.

Section KeyUniqueness.

#[local] Existing Instance Model.collaborators.

Import Examples.

(** The regeneration step by itself: every descendant of the fragment
    receives a key of its own, drawn from the generator then. *)
Lemma regenerateFragment_fresh (fragment f' : Node) (tr tr' : Transform) :
  regenerateFragment fragment tr = Some (f', tr') ->
  NoDup (map key (Model.descendants f'))
  /\ Forall (fun k => (nextKey tr <= k < nextKey tr')%N) (map key (Model.descendants f')).
Proof.
  unfold regenerateFragment.
  destruct (mapDescendants regenerateKey fragment (nextKey tr)) as [f1 g1] eqn:E.
  intros H. inversion H; subst f' tr'. clear H. cbn [nextKey].
  destruct (regenerate_occ _ _ E) as (A1 & A2 & _). rewrite descendants_keys. split.
  - now apply NoDup_occ.
  - apply Forall_forall. intros a Ha. apply A2. now apply occ_In.
Qed.

(** C2: on the model of the primitive layer, [insertFragmentAtRange]
    keeps the keys of the document unique, whatever the fragment, be it
    taken from the same document: if no key occurs twice in the
    document and all were issued by the generator, the same holds of
    the document it leaves; and every node it hands to
    [insertNodeByKey] carries only keys drawn from the generator during
    the call, the fragment's keys being regenerated before the first
    insertion. *)
Theorem insertFragmentAtRange_keeps_keys_unique (range : Range) (fragment : Node)
  (options : Options) (tr tr' : Transform) :
  Model.uniqueKeys (document (state tr)) ->
  Model.issuedBelow (nextKey tr) (Model.keysOf (document (state tr))) ->
  insertFragmentAtRange range fragment options tr = Some (tt, tr') ->
  Model.uniqueKeys (document (state tr'))
  /\ Model.issuedBelow (nextKey tr') (Model.keysOf (document (state tr')))
  /\ exists cs, calls tr' = calls tr ++ cs /\ Forall (freshInsert (nextKey tr)) cs.
Proof.
  intros Hu Hb H.
  assert (HI : InvT (calls tr) (nextKey tr) [] tr).
  { refine (conj _ (conj _ (conj _ _))).
    - apply Inv_nil. split; assumption.
    - lia.
    - intros a Ha. rewrite occ_nil in Ha. lia.
    - exists []. rewrite app_nil_r. split; [reflexivity|constructor]. }
  destruct (@insertFragmentAtRange_step (calls tr) (nextKey tr) range fragment options
              tr tt tr' HI H) as (HI' & _ & _ & Hc).
  apply Inv_nil in HI' as [Hu' Hb']. auto.
Qed.

Lemma insertFragmentAtRange_keys_witness :
  exists tr',
    insertFragmentAtRange caret three no_options at_caret = Some (tt, tr')
    /\ Model.uniqueKeys (document (state tr'))
    /\ reads (Some (tt, tr')) = Some ["oone"; "two"; "threene"; "two"; "three"]%string.
Proof.
  destruct (insertFragmentAtRange caret three no_options at_caret) as [[[] tr']|] eqn:E;
    [|discriminate].
  exists tr'. split; [reflexivity|]. split.
  - refine (proj1 (@insertFragmentAtRange_keeps_keys_unique caret three no_options
                     at_caret tr' _ _ E)).
    + unfold Model.uniqueKeys. cbn.
      repeat (constructor;
              [cbn; intros F; repeat (destruct F as [F|F]; [discriminate|]); exact F|]).
      constructor.
    + unfold Model.issuedBelow. cbn. repeat constructor.
  - vm_compute in E. inversion E. reflexivity.
Defined.

End KeyUniqueness.

(** ** Directional deletion *)

Section DirectionalFacts.

Context {C : Collaborators} {B : Boundaries}.

(** In a collapsed range anchor and focus coincide. *)
Lemma isCollapsed_eq (r : Range) :
  isCollapsed r = true -> anchorKey r = focusKey r /\ anchorOffset r = focusOffset r.
Proof.
  unfold isCollapsed. intros H. apply andb_true_iff in H as [H1 H2].
  split; [now apply N.eqb_eq|now apply Z.eqb_eq].
Qed.

Lemma isCollapsed_expanded (r : Range) : isCollapsed r = true -> isExpanded r = false.
Proof. unfold isExpanded. now intros ->. Qed.

(** Deletion within one leaf. *)
Lemma deleteAtRange_one_leaf (r : Range) (o : Options) (tr : Transform) :
  startKey r = endKey r ->
  deleteAtRange r o tr =
    if isCollapsed r then Some (tt, tr)
    else call (removeTextByKey (startKey r) (startOffset r) (endOffset r - startOffset r)
                 (with_normalize (normalize_or_true o))) tr.
Proof.
  intros H. unfold deleteAtRange. destruct (isCollapsed r); [reflexivity|].
  rewrite H, N.eqb_refl. reflexivity.
Qed.

(** Backward deletion with the caret inside a text leaf. *)
Lemma deleteBackwardAtRange_in_leaf (range : Range) (n : option Z)
  (options : Options) (tr : Transform) (text : Node) :
  let d := document (state tr) in
  let count := match n with Some n => n | None => 1 end in
  isCollapsed range = true ->
  voidNode (getClosestBlock d (startKey range)) = None ->
  voidNode (getClosestInline d (startKey range)) = None ->
  isAtStartOf range d = false ->
  getDescendant d (startKey range) = Some text ->
  isAtStartOf range text = false ->
  deleteBackwardAtRange range n options tr =
    if count =? 0 then Some (tt, tr)
    else call (removeTextByKey (focusKey range) (focusOffset range - count) count
                 (with_normalize (normalize_or_true options))) tr.
Proof.
  intros d count Hc Hb Hi Hd Ht Hs. subst d.
  unfold deleteBackwardAtRange. rewrite getDocument_bind.
  rewrite (isCollapsed_expanded _ Hc), Hb, Hi, Hd, (must_some _ _ Ht), Hs.
  apply isCollapsed_eq in Hc as [Hk Ho]. fold count.
  rewrite deleteAtRange_one_leaf by (cbn; congruence).
  unfold isCollapsed, startKey, endKey, startOffset, endOffset. cbn.
  rewrite Hk, Ho, N.eqb_refl. cbn [andb].
  destruct (Z.eqb_spec (focusOffset range) (focusOffset range - count)) as [E|E];
    destruct (Z.eqb_spec count 0) as [E0|E0]; try lia; [reflexivity|].
  replace (focusOffset range - (focusOffset range - count)) with count by lia.
  reflexivity.
Qed.

(** X1: with the caret inside a text leaf (no void block or inline
    around it, not at the start of the document nor of the leaf),
    [deleteBackwardAtRange] with count [n] makes exactly one call: it
    removes the [n] characters before the caret, from index
    [focusOffset - n], with the caller's normalize flag.  The index is
    not clamped, and with a count of 0 nothing is done. *)
Theorem deleteBackwardAtRange_within_leaf (range : Range) (n : option Z)
  (options : Options) (tr : Transform) (text : Node) :
  let d := document (state tr) in
  let count := match n with Some n => n | None => 1 end in
  isCollapsed range = true ->
  voidNode (getClosestBlock d (startKey range)) = None ->
  voidNode (getClosestInline d (startKey range)) = None ->
  isAtStartOf range d = false ->
  getDescendant d (startKey range) = Some text ->
  isAtStartOf range text = false ->
  deleteBackwardAtRange range n options tr =
    if count =? 0 then Some (tt, tr)
    else call (removeTextByKey (focusKey range) (focusOffset range - count) count
                 (with_normalize (normalize_or_true options))) tr.
Proof. exact (@deleteBackwardAtRange_in_leaf range n options tr text). Qed.

(** Forward deletion with the caret inside a text leaf. *)
Lemma deleteForwardAtRange_in_leaf (range : Range) (n : option Z)
  (options : Options) (tr : Transform) (text : Node) :
  let d := document (state tr) in
  let count := match n with Some n => n | None => 1 end in
  isCollapsed range = true ->
  voidNode (getClosestBlock d (startKey range)) = None ->
  voidNode (getClosestInline d (startKey range)) = None ->
  isAtEndOf range d = false ->
  getDescendant d (startKey range) = Some text ->
  isAtEndOf range text = false ->
  deleteForwardAtRange range n options tr =
    if count =? 0 then Some (tt, tr)
    else if isBackward range then
      call (removeTextByKey (focusKey range) (focusOffset range + count) (- count)
              (with_normalize (normalize_or_true options))) tr
    else
      call (removeTextByKey (focusKey range) (focusOffset range) count
              (with_normalize (normalize_or_true options))) tr.
Proof.
  intros d count Hc Hb Hi Hd Ht Hs. subst d.
  unfold deleteForwardAtRange. rewrite getDocument_bind.
  rewrite (isCollapsed_expanded _ Hc), Hb, Hi, Hd, (must_some _ _ Ht), Hs.
  apply isCollapsed_eq in Hc as [Hk Ho]. fold count.
  rewrite deleteAtRange_one_leaf
    by (unfold startKey, endKey; cbn; destruct (isBackward range); congruence).
  unfold isCollapsed, startKey, endKey, startOffset, endOffset. cbn.
  rewrite Hk, Ho, N.eqb_refl. cbn [andb].
  destruct (Z.eqb_spec (focusOffset range) (focusOffset range + count)) as [E|E];
    destruct (Z.eqb_spec count 0) as [E0|E0]; try lia; [reflexivity|].
  destruct (isBackward range).
  - replace (focusOffset range - (focusOffset range + count)) with (- count) by lia.
    reflexivity.
  - replace (focusOffset range + count - focusOffset range) with count by lia.
    reflexivity.
Qed.

(** X2: with the caret inside a text leaf (no void block or inline
    around it, not at the end of the document nor of the leaf),
    [deleteForwardAtRange] with count [n] makes exactly one call: it
    removes [n] characters from the caret on.  The range is extended by
    its focus only, the direction flag being left as it is: on a
    collapsed range flagged backward the call starts at
    [focusOffset + n] with length [- n]. *)
Theorem deleteForwardAtRange_within_leaf (range : Range) (n : option Z)
  (options : Options) (tr : Transform) (text : Node) :
  let d := document (state tr) in
  let count := match n with Some n => n | None => 1 end in
  isCollapsed range = true ->
  voidNode (getClosestBlock d (startKey range)) = None ->
  voidNode (getClosestInline d (startKey range)) = None ->
  isAtEndOf range d = false ->
  getDescendant d (startKey range) = Some text ->
  isAtEndOf range text = false ->
  deleteForwardAtRange range n options tr =
    if count =? 0 then Some (tt, tr)
    else if isBackward range then
      call (removeTextByKey (focusKey range) (focusOffset range + count) (- count)
              (with_normalize (normalize_or_true options))) tr
    else
      call (removeTextByKey (focusKey range) (focusOffset range) count
              (with_normalize (normalize_or_true options))) tr.
Proof. exact (@deleteForwardAtRange_in_leaf range n options tr text). Qed.

(** X3: before they look at the text, the two directional deletions do
    the same thing whatever their counts: on an expanded range both
    are [deleteAtRange] with the caller's normalize flag; on a
    collapsed range inside a void block both remove that block with
    one [removeNodeByKey]; failing that, inside a void inline both
    remove that inline; and failing that, at the start of the document
    [deleteBackwardAtRange], and at its end [deleteForwardAtRange],
    return the transform as it was. *)
Theorem directional_deletion_guards (range : Range) (n n' : option Z)
  (options : Options) (tr : Transform) :
  let d := document (state tr) in
  let o := with_normalize (normalize_or_true options) in
  let block := voidNode (getClosestBlock d (startKey range)) in
  let inline := voidNode (getClosestInline d (startKey range)) in
  (isExpanded range = true ->
     deleteBackwardAtRange range n options tr = deleteAtRange range o tr
     /\ deleteForwardAtRange range n' options tr = deleteAtRange range o tr)
  /\ (isExpanded range = false -> forall b, block = Some b ->
        deleteBackwardAtRange range n options tr = call (removeNodeByKey (key b) o) tr
        /\ deleteForwardAtRange range n' options tr = call (removeNodeByKey (key b) o) tr)
  /\ (isExpanded range = false -> block = None -> forall i, inline = Some i ->
        deleteBackwardAtRange range n options tr = call (removeNodeByKey (key i) o) tr
        /\ deleteForwardAtRange range n' options tr = call (removeNodeByKey (key i) o) tr)
  /\ (isExpanded range = false -> block = None -> inline = None ->
        (isAtStartOf range d = true ->
           deleteBackwardAtRange range n options tr = Some (tt, tr))
        /\ (isAtEndOf range d = true ->
             deleteForwardAtRange range n' options tr = Some (tt, tr))).
Proof.
  intros d o block inline. subst d o block inline.
  unfold deleteBackwardAtRange, deleteForwardAtRange. rewrite !getDocument_bind.
  refine (conj _ (conj _ (conj _ _))).
  - intros ->. split; reflexivity.
  - intros -> b ->. split; reflexivity.
  - intros -> -> i ->. split; reflexivity.
  - intros -> -> ->. split; intros ->; reflexivity.
Qed.

(** X4: at the boundary of a text leaf the count plays no part: with
    the range at the start of its leaf [deleteBackwardAtRange] does the
    same whatever [n] is, and so does [deleteForwardAtRange] with the
    range at the end of its leaf (one character of the neighbouring
    leaf, or none when that leaf is in another block, is what the
    range handed to [deleteAtRange] takes in). *)
Theorem directional_count_ignored_at_leaf_boundary (range : Range) (n n' : option Z)
  (options : Options) (tr : Transform) (text : Node) :
  let d := document (state tr) in
  getDescendant d (startKey range) = Some text ->
  (isAtStartOf range text = true ->
     deleteBackwardAtRange range n options tr = deleteBackwardAtRange range n' options tr)
  /\ (isAtEndOf range text = true ->
       deleteForwardAtRange range n options tr = deleteForwardAtRange range n' options tr).
Proof.
  intros d Ht. subst d.
  unfold deleteBackwardAtRange, deleteForwardAtRange. rewrite !getDocument_bind.
  split; intros Hs;
    destruct (isExpanded range); try reflexivity;
    destruct (voidNode (getClosestBlock _ _)); try reflexivity;
    destruct (voidNode (getClosestInline _ _)); try reflexivity;
    match goal with |- context [if ?b then ret tt else _] => destruct b end;
    try reflexivity;
    rewrite !(must_some _ _ Ht), Hs; reflexivity.
Qed.

(** X5: the character, word and line variants take their count from
    the state, not from the range they are given: the offset is
    [state.startOffset] and the text that of [state.startBlock].  With
    the caret inside a text leaf each makes the one call of the
    directional deletion with that count: the backward ones remove
    [count] characters before the focus offset of the range, the
    forward ones [count] characters from it on, where the count of the
    line variants is the state's start offset (backward) and the
    length of the state's start block less that offset (forward). *)
Theorem delete_to_boundary_within_leaf (range : Range) (options : Options)
  (tr : Transform) (text startBlock : Node) :
  let d := document (state tr) in
  let o := with_normalize (normalize_or_true options) in
  let offset := state_startOffset (state tr) in
  let removal index count :=
    if count =? 0 then Some (tt, tr)
    else call (removeTextByKey (focusKey range) index count o) tr in
  isCollapsed range = true ->
  isBackward range = false ->
  voidNode (getClosestBlock d (startKey range)) = None ->
  voidNode (getClosestInline d (startKey range)) = None ->
  getDescendant d (startKey range) = Some text ->
  state_startBlock (state tr) = Some startBlock ->
  (isAtStartOf range d = false -> isAtStartOf range text = false ->
     let char := getCharOffsetBackward (node_text startBlock) offset in
     let word := getWordOffsetBackward (node_text startBlock) offset in
     deleteCharBackwardAtRange range options tr = removal (focusOffset range - char) char
     /\ deleteWordBackwardAtRange range options tr = removal (focusOffset range - word) word
     /\ deleteLineBackwardAtRange range options tr
        = removal (focusOffset range - offset) offset)
  /\ (isAtEndOf range d = false -> isAtEndOf range text = false ->
      let char := getCharOffsetForward (node_text startBlock) offset in
      let word := getWordOffsetForward (node_text startBlock) offset in
      deleteCharForwardAtRange range options tr = removal (focusOffset range) char
      /\ deleteWordForwardAtRange range options tr = removal (focusOffset range) word
      /\ deleteLineForwardAtRange range options tr
         = removal (focusOffset range) (node_length startBlock - offset)).
Proof.
  intros d o offset removal Hc Hbw Hb Hi Ht Hsb. subst removal. cbv beta.
  unfold deleteCharBackwardAtRange, deleteWordBackwardAtRange, deleteLineBackwardAtRange,
    deleteCharForwardAtRange, deleteWordForwardAtRange, deleteLineForwardAtRange, getState.
  unfold bind. cbv zeta. rewrite Hsb. cbn [must]. unfold ret. split.
  - intros Hd Hs.
    rewrite !(@deleteBackwardAtRange_in_leaf range _ options tr text Hc Hb Hi Hd Ht Hs).
    repeat split.
  - intros Hd Hs.
    rewrite !(@deleteForwardAtRange_in_leaf range _ options tr text Hc Hb Hi Hd Ht Hs).
    rewrite Hbw. repeat split.
Qed.

(** X6: on an expanded range the six character, word and line variants
    delete the range, as [deleteAtRange] with the caller's normalize
    flag does; but all of them except [deleteLineBackwardAtRange] read
    the text or the length of [state.startBlock] first, and throw when
    the state has no start block. *)
Theorem directional_variants_on_expanded_range (range : Range) (options : Options)
  (tr : Transform) :
  let o := with_normalize (normalize_or_true options) in
  isExpanded range = true ->
  deleteLineBackwardAtRange range options tr = deleteAtRange range o tr
  /\ (state_startBlock (state tr) = None ->
       deleteCharBackwardAtRange range options tr = None
       /\ deleteWordBackwardAtRange range options tr = None
       /\ deleteCharForwardAtRange range options tr = None
       /\ deleteLineForwardAtRange range options tr = None
       /\ deleteWordForwardAtRange range options tr = None)
  /\ (forall b, state_startBlock (state tr) = Some b ->
       deleteCharBackwardAtRange range options tr = deleteAtRange range o tr
       /\ deleteWordBackwardAtRange range options tr = deleteAtRange range o tr
       /\ deleteCharForwardAtRange range options tr = deleteAtRange range o tr
       /\ deleteLineForwardAtRange range options tr = deleteAtRange range o tr
       /\ deleteWordForwardAtRange range options tr = deleteAtRange range o tr).
Proof.
  intros o He.
  unfold deleteLineBackwardAtRange, deleteCharBackwardAtRange, deleteWordBackwardAtRange,
    deleteCharForwardAtRange, deleteLineForwardAtRange, deleteWordForwardAtRange, getState.
  unfold bind. cbv zeta.
  split; [|split].
  - unfold deleteBackwardAtRange. rewrite getDocument_bind, He. reflexivity.
  - intros H. rewrite H. cbn [must]. repeat split.
  - intros b H. rewrite H. cbn [must]. unfold ret.
    unfold deleteBackwardAtRange, deleteForwardAtRange. rewrite !getDocument_bind, He.
    repeat split.
Qed.

(** X7: the eight directional deletions batch normalization: in every
    run each call but the last carries the do-not-normalize flag, so
    that normalization can only happen once, in the last call. *)
Theorem directional_deletions_batch_normalization (range : Range) (n : option Z)
  (options : Options) :
  Batched (deleteBackwardAtRange range n options)
  /\ Batched (deleteForwardAtRange range n options)
  /\ Batched (deleteCharBackwardAtRange range options)
  /\ Batched (deleteLineBackwardAtRange range options)
  /\ Batched (deleteWordBackwardAtRange range options)
  /\ Batched (deleteCharForwardAtRange range options)
  /\ Batched (deleteLineForwardAtRange range options)
  /\ Batched (deleteWordForwardAtRange range options).
Proof.
  split; [exact (batched_deleteBackwardAtRange range n options)|].
  split; [exact (batched_deleteForwardAtRange range n options)|].
  exact (batched_directional_variants range options).
Qed.

End DirectionalFacts.

(** ** Insertion and splitting at a caret *)

Section CaretFacts.

Context {C : Collaborators} {B : Boundaries}.

(** X9: a fragment without text is not inserted: [insertFragmentAtRange]
    then only deletes the range when it is expanded, with the
    do-not-normalize flag on every call, and returns the transform as
    it was when the range is collapsed; no key is drawn and the parent
    is not normalized, whatever the options. *)
Theorem insertFragmentAtRange_empty_fragment (range : Range) (fragment : Node)
  (options : Options) (tr : Transform) :
  node_length fragment = 0 ->
  insertFragmentAtRange range fragment options tr =
    if isExpanded range then deleteAtRange range OPTS tr else Some (tt, tr).
Proof.
  intros H. unfold insertFragmentAtRange. cbv zeta. rewrite H. cbn [Z.eqb].
  destruct (isExpanded range); [|reflexivity].
  unfold bind. destruct (deleteAtRange range OPTS tr) as [[[] tr']|]; reflexivity.
Qed.

(** X10: at a caret [insertInlineAtRange] does nothing when the parent
    of the leaf is void; otherwise it splits the leaf at the caret,
    inserts the inline right after the leaf's place in its parent
    (the index is that of the leaf before the split, plus one), both
    with the do-not-normalize flag, and normalizes the parent last
    unless the caller turned normalization off. *)
Theorem insertInlineAtRange_at_caret (range : Range) (inline : Node) (options : Options)
  (tr : Transform) (startText parent : Node) :
  let d := document (state tr) in
  isExpanded range = false ->
  getDescendant d (startKey range) = Some startText ->
  getParent d (startKey range) = Some parent ->
  insertInlineAtRange range inline options tr =
    if node_isVoid parent then Some (tt, tr)
    else callAll (splitNodeByKey (startKey range) (startOffset range) OPTS
                  :: insertNodeByKey (key parent) (indexOf (nodes parent) startText + 1)
                       inline OPTS
                  :: finish (normalize_or_true options) (key parent)) tr.
Proof.
  intros d He Ht Hp. unfold insertInlineAtRange. cbv zeta.
  rewrite He, bind_ret_l, getDocument_bind. unfold assertDescendant.
  fold d. rewrite Hp, (must_some _ _ Ht). cbn [must]. rewrite bind_ret_l.
  destruct (node_isVoid parent); [reflexivity|]. run_calls.
Qed.

Lemma splitBlockAtRange_caret (range : Range) (height : option nat) (options : Options)
  (tr : Transform) (text : Node) :
  isExpanded range = false ->
  getDescendant (document (state tr)) (startKey range) = Some text ->
  splitBlockAtRange range height options tr =
    (r <- climbBlocks (match height with Some h => h | None => 1%nat end)
            (document (state tr)) text
            (getClosestBlock (document (state tr)) (key text)) (startOffset range) ;;
     call (splitNodeByKey (key (fst r)) (snd r)
             (with_normalize (normalize_or_true options)))) tr.
Proof.
  intros He Ht. unfold splitBlockAtRange. cbv zeta.
  rewrite He, bind_ret_l, getDocument_bind. unfold assertDescendant.
  rewrite (must_some _ _ Ht). reflexivity.
Qed.

(** X11: at a caret [splitBlockAtRange] makes one call.  With height 0,
    or when no block encloses the leaf, it splits the leaf itself at
    the caret's offset; with the default height it splits the closest
    block of the leaf, at the caret's offset plus the offset of the
    leaf in that block. *)
Theorem splitBlockAtRange_at_caret (range : Range) (options : Options) (tr : Transform)
  (text : Node) :
  let d := document (state tr) in
  let o := with_normalize (normalize_or_true options) in
  isExpanded range = false ->
  getDescendant d (startKey range) = Some text ->
  splitBlockAtRange range (Some 0%nat) options tr
    = call (splitNodeByKey (key text) (startOffset range) o) tr
  /\ (getClosestBlock d (key text) = None ->
       forall height, splitBlockAtRange range height options tr
                      = call (splitNodeByKey (key text) (startOffset range) o) tr)
  /\ (forall block off,
       getClosestBlock d (key text) = Some block -> kind block = KBlock ->
       getOffset block (key text) = Some off ->
       splitBlockAtRange range None options tr
         = call (splitNodeByKey (key block) (startOffset range + off) o) tr).
Proof.
  intros d o He Ht. subst d. refine (conj _ (conj _ _)).
  - rewrite (@splitBlockAtRange_caret range _ options tr text He Ht). reflexivity.
  - intros Hb height. rewrite (@splitBlockAtRange_caret range _ options tr text He Ht), Hb.
    destruct height as [[|h]|]; reflexivity.
  - intros block off Hb Hk Ho.
    rewrite (@splitBlockAtRange_caret range _ options tr text He Ht), Hb.
    cbn [climbBlocks]. rewrite Hk. cbn [Kind_eqb].
    rewrite bind_assoc, (must_some _ _ Ho). reflexivity.
Qed.

Lemma splitInlineAtRange_caret (fuel : nat) (range : Range) (height : option nat)
  (options : Options) (tr : Transform) (text : Node) :
  isExpanded range = false ->
  getDescendant (document (state tr)) (startKey range) = Some text ->
  splitInlineAtRange fuel range height options tr =
    (r <- climbInlines fuel height 0 (document (state tr)) text
            (getClosestInline (document (state tr)) (key text)) (startOffset range) ;;
     match r with
     | Some (node, offset) =>
         call (splitNodeByKey (key node) offset
                 (with_normalize (normalize_or_true options))) ;;
         ret Finished
     | None => ret OutOfFuel
     end) tr.
Proof.
  intros He Ht. unfold splitInlineAtRange. cbv zeta.
  rewrite He, bind_ret_l, getDocument_bind. unfold assertDescendant.
  rewrite (must_some _ _ Ht). reflexivity.
Qed.

(** X12: at a caret [splitInlineAtRange] splits the leaf itself, at the
    caret's offset, when no inline encloses the leaf (whatever the
    height) and with height 0; and with the default, unbounded height
    and an inline around the leaf that no other inline encloses, it
    splits that inline at the caret's offset plus the offset of the
    leaf in it.  No fuel is needed for the first two, one unit for the
    last. *)
Theorem splitInlineAtRange_at_caret (fuel : nat) (range : Range) (options : Options)
  (tr : Transform) (text : Node) :
  let d := document (state tr) in
  let o := with_normalize (normalize_or_true options) in
  isExpanded range = false ->
  getDescendant d (startKey range) = Some text ->
  (getClosestInline d (key text) = None ->
   forall height, splitInlineAtRange fuel range height options tr
                  = (call (splitNodeByKey (key text) (startOffset range) o) ;;
                     ret Finished) tr)
  /\ splitInlineAtRange fuel range (Some 0%nat) options tr
      = (call (splitNodeByKey (key text) (startOffset range) o) ;; ret Finished) tr
  /\ (forall inline off,
       getClosestInline d (key text) = Some inline -> kind inline = KInline ->
       getOffset inline (key text) = Some off ->
       getClosestInline d (key inline) = None ->
       splitInlineAtRange (S fuel) range None options tr
         = (call (splitNodeByKey (key inline) (startOffset range + off) o) ;;
            ret Finished) tr).
Proof.
  intros d o He Ht. subst d. refine (conj _ (conj _ _)).
  - intros Hi height.
    rewrite (@splitInlineAtRange_caret _ range _ options tr text He Ht), Hi.
    destruct fuel; reflexivity.
  - rewrite (@splitInlineAtRange_caret _ range _ options tr text He Ht).
    destruct (getClosestInline _ (key text)) as [p|]; destruct fuel; cbn [climbInlines];
      cbn [belowHeight Nat.ltb Nat.leb]; rewrite ?andb_false_r; reflexivity.
  - intros inline off Hi Hk Ho Hn.
    rewrite (@splitInlineAtRange_caret _ range _ options tr text He Ht), Hi.
    cbn [climbInlines]. rewrite Hk.
    cbn [Kind_eqb belowHeight andb]. rewrite bind_assoc, (must_some _ _ Ho), Hn.
    destruct fuel; reflexivity.
Qed.

(** The loop of [splitInlineAtRange] does not run out of fuel when the
    fuel covers the turns that the height leaves. *)
Lemma climbInlines_bounded (fuel : nat) : forall (height h : nat) d node parent offset tr tr',
  (height <= h + fuel)%nat ->
  climbInlines fuel (Some height) h d node parent offset tr <> Some (None, tr').
Proof.
  induction fuel as [|fuel IH]; intros height h d node parent offset tr tr' Hle.
  - cbn [climbInlines]. destruct parent as [p|]; [|discriminate].
    replace (belowHeight h (Some height)) with false;
      [rewrite andb_false_r; discriminate|].
    symmetry. apply Nat.ltb_ge. lia.
  - cbn [climbInlines]. destruct parent as [p|]; [|discriminate].
    destruct (Kind_eqb (kind p) KInline && belowHeight h (Some height)) eqn:E;
      [|discriminate].
    unfold bind. destruct (must (getOffset p (key node)) tr) as [[o t1]|] eqn:Eo;
      [|discriminate].
    apply andb_true_iff in E as [_ E]. cbn [belowHeight] in E. apply Nat.ltb_lt in E.
    apply (IH height (S h)). lia.
Qed.

(** More fuel does not change the result of a loop that ended. *)
Lemma climbInlines_more_fuel (fuel : nat) : forall height h d node parent offset tr r tr' k,
  climbInlines fuel height h d node parent offset tr = Some (Some r, tr') ->
  climbInlines (fuel + k) height h d node parent offset tr = Some (Some r, tr').
Proof.
  induction fuel as [|fuel IH]; intros height h d node parent offset tr r tr' k H.
  - destruct k; [exact H|]. cbn [Nat.add]. cbn [climbInlines] in *.
    destruct parent as [p|]; [|exact H].
    destruct (Kind_eqb (kind p) KInline && belowHeight h height); [discriminate|exact H].
  - cbn [Nat.add]. cbn [climbInlines] in *. destruct parent as [p|]; [|exact H].
    destruct (Kind_eqb (kind p) KInline && belowHeight h height); [|exact H].
    unfold bind in *. destruct (must (getOffset p (key node)) tr) as [[o t1]|];
      [|discriminate].
    apply IH. exact H.
Qed.

Lemma bind_never {X Y} (m : M X) (f : X -> M Y) (y : Y) tr tr' :
  (forall a t, f a t <> Some (y, tr')) -> bind m f tr <> Some (y, tr').
Proof. intros H. unfold bind. destruct (m tr) as [[a t]|]; [apply H|discriminate]. Qed.

Lemma bind_impl {X Y} (m : M X) (f g : X -> M Y) (r : Y * Transform) tr :
  (forall a t, f a t = Some r -> g a t = Some r) ->
  bind m f tr = Some r -> bind m g tr = Some r.
Proof. intros H. unfold bind. destruct (m tr) as [[a t]|]; [apply H|discriminate]. Qed.

(** X13: the loop of [splitInlineAtRange] climbs at most [height]
    inlines: with a finite height [h], [h] units of fuel are always
    enough; and whatever the height, once the function has finished
    on some fuel it finishes with the same transform on any larger
    fuel, so that its result with the unbounded default height does not
    depend on the fuel. *)
Theorem splitInlineAtRange_fuel (range : Range) (options : Options) (tr tr' : Transform) :
  (forall h, splitInlineAtRange h range (Some h) options tr <> Some (OutOfFuel, tr'))
  /\ (forall fuel k height,
        splitInlineAtRange fuel range height options tr = Some (Finished, tr') ->
        splitInlineAtRange (fuel + k) range height options tr = Some (Finished, tr')).
Proof.
  split.
  - intros h. unfold splitInlineAtRange. cbv zeta.
    apply bind_never. intros r t1. apply bind_never. intros d t2.
    apply bind_never. intros node t3. unfold bind.
    destruct (climbInlines h (Some h) 0 d node _ _ t3) as [[[[n off]|] t4]|] eqn:E;
      [| |discriminate].
    + destruct (call _ t4) as [[[] t5]|]; discriminate.
    + exfalso. eapply (@climbInlines_bounded h h 0%nat); [|exact E]. lia.
  - intros fuel k height. unfold splitInlineAtRange. cbv zeta.
    apply bind_impl. intros r t1. apply bind_impl. intros d t2.
    apply bind_impl. intros node t3. unfold bind.
    destruct (climbInlines fuel _ _ _ _ _ _ t3) as [[[[n off]|] t4]|] eqn:E;
      [| |discriminate].
    + rewrite (climbInlines_more_fuel _ _ _ _ _ _ _ _ k E). auto.
    + intros H. inversion H.
Qed.

(** X14: with a collapsed range whose start key no node of the document
    carries, [insertBlockAtRange], [insertInlineAtRange],
    [insertFragmentAtRange] (for a fragment that has text),
    [splitBlockAtRange] and [splitInlineAtRange] throw. *)
Theorem missing_start_key_throws (range : Range) (node : Node) (height : option nat)
  (fuel : nat) (options : Options) (tr : Transform) :
  isExpanded range = false ->
  getDescendant (document (state tr)) (startKey range) = None ->
  insertBlockAtRange range node options tr = None
  /\ insertInlineAtRange range node options tr = None
  /\ (node_length node <> 0 -> insertFragmentAtRange range node options tr = None)
  /\ splitBlockAtRange range height options tr = None
  /\ splitInlineAtRange fuel range height options tr = None.
Proof.
  intros He Ht.
  unfold insertBlockAtRange, insertInlineAtRange, insertFragmentAtRange,
    splitBlockAtRange, splitInlineAtRange, assertDescendant. cbv zeta.
  rewrite He. refine (conj _ (conj _ (conj _ (conj _ _)))).
  - rewrite bind_ret_l, getDocument_bind, Ht. reflexivity.
  - rewrite bind_ret_l, getDocument_bind, Ht. reflexivity.
  - intros Hn. rewrite bind_ret_l. apply Z.eqb_neq in Hn. rewrite Hn.
    unfold bind at 1. unfold regenerateFragment.
    destruct (mapDescendants regenerateKey node (nextKey tr)) as [f c].
    rewrite getDocument_bind. cbn [state document]. rewrite Ht. reflexivity.
  - rewrite bind_ret_l, getDocument_bind, Ht. reflexivity.
  - rewrite bind_ret_l, getDocument_bind, Ht. reflexivity.
Qed.

End CaretFacts.

(** ** Wrapping and unwrapping *)

Section WrapFacts.

Context {C : Collaborators}.

(** X15: the wraps and the inline unwrap throw when there is nothing
    for them to work on: [wrapBlockAtRange] when the range spans no
    block; [wrapInlineAtRange] on a collapsed range that no inline
    encloses; [unwrapInlineAtRange] when no spanned leaf lies in an
    inline that matches the properties, and also when the first
    matching inline has no previous sibling. *)
Theorem nothing_to_wrap_throws (range : Range) (node : Node) (properties : Properties)
  (options : Options) (tr : Transform) :
  let d := document (state tr) in
  let inlines :=
    toOrderedSet []
      (map (fun text => getClosest d (key text) (matchesProperties KInline properties))
         (getTextsAtRange d range)) in
  (getBlocksAtRange d range = [] -> wrapBlockAtRange range node options tr = None)
  /\ (isCollapsed range = true -> getClosestInline d (startKey range) = None ->
      wrapInlineAtRange range node options tr = None)
  /\ (inlines = [] -> unwrapInlineAtRange range properties tr = None)
  /\ (forall i, first inlines = Some i -> getPreviousSibling d (key i) = None ->
      unwrapInlineAtRange range properties tr = None).
Proof.
  intros d inlines. refine (conj _ (conj _ (conj _ _))).
  - intros H. unfold wrapBlockAtRange. cbv zeta. rewrite getDocument_bind. fold d.
    rewrite H. reflexivity.
  - intros Hc H. unfold wrapInlineAtRange. rewrite getDocument_bind. fold d.
    cbv zeta. rewrite Hc, H. reflexivity.
  - intros H. unfold unwrapInlineAtRange. rewrite getDocument_bind. fold d.
    unfold getSelection, bind at 1. cbv zeta. fold inlines. rewrite H. reflexivity.
  - intros i Hi H. unfold unwrapInlineAtRange. rewrite getDocument_bind. fold d.
    unfold getSelection, bind at 1. cbv zeta. fold inlines.
    rewrite (must_some _ _ Hi), H. reflexivity.
Qed.

Lemma forEachFrom_must {A} (g : A -> Z -> Call) (l : list A) : forall i t,
  forEachFrom i (map Some l) (fun child j => c <- must child ;; call (g c j)) t
  = forEachFrom i l (fun c j => call (g c j)) t.
Proof.
  induction l as [|x l IH]; intros i t; [reflexivity|].
  cbn [map forEachFrom]. rewrite bind_assoc. cbn [must]. rewrite bind_ret_l.
  destruct (call (g x i) t) as [[[] t']|] eqn:E.
  - rewrite !(bind_some _ _ _ E). apply IH.
  - now rewrite !(bind_none _ _ _ E).
Qed.

Lemma last_opt_cons {A} (x : A) (l : list A) : exists y, last_opt (x :: l) = Some y.
Proof.
  unfold last_opt. cbn [rev]. destruct (rev l) as [|y r]; cbn; eauto.
Qed.

(** When the first child is matched and the last is not, some child is
    matched. *)
Lemma covers_first_only (l c : list Node) :
  osame (first l) (first c) = true -> osame (last_opt l) (last_opt c) = false ->
  exists lm, last_opt c = Some lm.
Proof.
  intros H1 H2. destruct c as [|x c]; [|apply last_opt_cons].
  exfalso. destruct l as [|y l]; [discriminate|]. discriminate.
Qed.

(** A loop of calls, and what follows it. *)
Lemma forEach_bind {A X} (g : A -> Z -> Call) (l : list A) (k : unit -> M X) t :
  bind (forEach l (fun x j => call (g x j))) k t = bind (callAll (mapi g l)) k t.
Proof. unfold bind. now rewrite forEach_calls. Qed.

(** X16: when every matching wrapper has its first or its last child
    among the children that are, or hold, a spanned block, so that no
    wrapper has to be split, [unwrapBlockAtRange] takes the wrappers in
    order and makes only moves and removals, all with the
    do-not-normalize flag: for a wrapper covered at both ends, every
    child goes to the wrapper's index plus its own and the wrapper is
    removed; for one covered at its end only, the children from the
    first matched one on go to the wrapper's index plus one plus their
    rank; for one covered at its start only, the children up to the
    last matched one go to the wrapper's index plus their rank.  Then
    the whole document is normalized unless the caller turned
    normalization off.  The parent and the index of every wrapper are
    those of the document as it was when the function was called: they
    are not read again after an earlier wrapper has been unwrapped. *)
Theorem unwrapBlockAtRange_without_split (range : Range) (properties : Properties)
  (options : Options) (tr : Transform) :
  let d := document (state tr) in
  let blocks := getBlocksAtRange d range in
  let wrappers :=
    toOrderedSet []
      (map (fun block => getClosest d (key block) (matchesProperties KBlock properties))
         blocks) in
  (forall w, In w wrappers -> coversFirst blocks w || coversLast blocks w = true) ->
  (forall w, In w wrappers -> getParent d (key w) <> None) ->
  unwrapBlockAtRange range properties options tr =
    callAll (flat_map (unwrapCalls d blocks) wrappers
             ++ (if normalize_or_true options then [normalizeDocument (Some SCHEMA)] else []))
      tr.
Proof.
  intros d blocks wrappers Hcov Hpar.
  unfold unwrapBlockAtRange. cbv zeta. rewrite getDocument_bind. fold d blocks wrappers.
  match goal with
  | |- bind (forEachVar wrappers d ?f) ?k tr = _ => set (body := f); set (rest := k)
  end.
  assert (Hbody : forall w t, In w wrappers ->
            body w d t = match callAll (unwrapCalls d blocks w) t with
                         | Some (_, t') => Some (d, t')
                         | None => None
                         end).
  { intros w t Hw. specialize (Hcov w Hw). specialize (Hpar w Hw).
    unfold body, unwrapCalls.
    destruct (getParent d (key w)) as [p|] eqn:Ep; [|congruence].
    rewrite (must_some _ _ eq_refl). cbv zeta.
    fold (matchedChildren blocks w). fold (coversFirst blocks w) (coversLast blocks w).
    destruct (coversFirst blocks w) eqn:E1; destruct (coversLast blocks w) eqn:E2;
      cbn [andb]; try discriminate.
    - rewrite forEach_bind, callAll_app. unfold bind.
      destruct (callAll (mapi _ (nodes w)) t) as [[[] t1]|]; [|reflexivity].
      rewrite callAll_one. destruct (call _ t1) as [[[] t2]|]; reflexivity.
    - destruct (@covers_first_only (nodes w) (matchedChildren blocks w) E1 E2) as [lm Hlm].
      rewrite Hlm.
      replace (map Some (takeUntil (fun n => osame (Some n) (Some lm)) (nodes w)) ++ [Some lm])
        with (map Some (takeUntil (fun n => osame (Some n) (Some lm)) (nodes w) ++ [lm]))
        by now rewrite map_app.
      unfold forEach. unfold bind at 1. rewrite forEachFrom_must, forEachFrom_calls.
      reflexivity.
    - now rewrite forEach_bind. }
  assert (Hloop : forall l t, (forall w, In w l -> In w wrappers) ->
            forEachVar l d body t =
              match callAll (flat_map (unwrapCalls d blocks) l) t with
              | Some (_, t') => Some (d, t')
              | None => None
              end).
  { induction l as [|w l IH]; intros t Hin; [reflexivity|].
    cbn [forEachVar flat_map]. rewrite callAll_app. unfold bind.
    rewrite Hbody by (apply Hin; now left).
    destruct (callAll (unwrapCalls d blocks w) t) as [[[] t1]|]; [|reflexivity].
    apply IH. intros x Hx. apply Hin. now right. }
  rewrite callAll_app. unfold bind. rewrite Hloop by auto.
  destruct (callAll (flat_map (unwrapCalls d blocks) wrappers) tr) as [[[] t]|];
    [|reflexivity].
  unfold rest. destruct (normalize_or_true options); cbn [when].
  - now rewrite callAll_one.
  - reflexivity.
Qed.

End WrapFacts.

(** ** What the functions never call *)

Section EmitFacts.

Context {C : Collaborators}.

Variable P : Call -> bool.

Lemma emits_ret {A} (a : A) : Emits P (ret a).
Proof. intros tr x tr' [= <- <-]. exists []. rewrite app_nil_r. auto. Qed.

Lemma emits_throw {A} : Emits P (@throw A).
Proof. intros tr x tr' [=]. Qed.

Lemma emits_must {A} (o : option A) : Emits P (must o).
Proof. destruct o; [apply emits_ret|apply emits_throw]. Qed.

Lemma emits_getDocument : Emits P getDocument.
Proof. intros tr x tr' [= <- <-]. exists []. rewrite app_nil_r. auto. Qed.

Lemma emits_getSelection : Emits P getSelection.
Proof. intros tr x tr' [= <- <-]. exists []. rewrite app_nil_r. auto. Qed.

Lemma emits_getState : Emits P getState.
Proof. intros tr x tr' [= <- <-]. exists []. rewrite app_nil_r. auto. Qed.

Lemma emits_regenerateFragment f : Emits P (regenerateFragment f).
Proof.
  intros tr x tr'. unfold regenerateFragment.
  destruct (mapDescendants regenerateKey f (nextKey tr)) as [f' c].
  intros [= <- <-]. exists []. cbn. rewrite app_nil_r. auto.
Qed.

Lemma emits_regenerateNode n : Emits P (regenerateNode n).
Proof.
  intros tr x tr'. unfold regenerateNode.
  destruct (regenerateKey n (nextKey tr)) as [n' c].
  intros [= <- <-]. exists []. cbn. rewrite app_nil_r. auto.
Qed.

Lemma emits_call c : P c = true -> Emits P (call c).
Proof. intros Hc tr [] tr' H. apply call_calls in H. exists [c]. auto. Qed.

Lemma emits_bind {A B} (m : M A) (f : A -> M B) :
  Emits P m -> (forall a, Emits P (f a)) -> Emits P (bind m f).
Proof.
  intros Hm Hf tr b tr' H. unfold bind in H.
  destruct (m tr) as [[a t1]|] eqn:E; [|discriminate].
  destruct (Hm _ _ _ E) as (cs1 & E1 & F1).
  destruct (Hf a _ _ _ H) as (cs2 & E2 & F2).
  exists (cs1 ++ cs2). rewrite E2, E1, app_assoc. split; [reflexivity|].
  apply Forall_app. auto.
Qed.

Lemma emits_when (b : bool) (m : M unit) : Emits P m -> Emits P (when b m).
Proof. destruct b; [auto|intros _; apply emits_ret]. Qed.

Lemma emits_forEachFrom {A} (l : list A) (f : A -> Z -> M unit) :
  (forall x i, Emits P (f x i)) -> forall i, Emits P (forEachFrom i l f).
Proof.
  intros Hf. induction l as [|x l IH]; intros i; cbn [forEachFrom].
  - apply emits_ret.
  - apply emits_bind; [apply Hf|intros _; apply IH].
Qed.

Lemma emits_forEach {A} (l : list A) (f : A -> Z -> M unit) :
  (forall x i, Emits P (f x i)) -> Emits P (forEach l f).
Proof. intros Hf. now apply emits_forEachFrom. Qed.

Lemma emits_forEachVar {A V} (l : list A) (f : A -> V -> M V) :
  (forall x v, Emits P (f x v)) -> forall v, Emits P (forEachVar l v f).
Proof.
  intros Hf. induction l as [|x l IH]; intros v; cbn [forEachVar].
  - apply emits_ret.
  - apply emits_bind; [apply Hf|intros v'; apply IH].
Qed.

Lemma emits_climbBlocks fuel : forall d node parent offset,
  Emits P (climbBlocks fuel d node parent offset).
Proof.
  induction fuel as [|fuel IH]; intros d node parent offset; cbn [climbBlocks].
  - destruct parent; apply emits_ret.
  - destruct parent as [p|]; [|apply emits_ret].
    destruct (Kind_eqb (kind p) KBlock); [|apply emits_ret].
    apply emits_bind; [apply emits_must|intros o; apply IH].
Qed.

Lemma emits_climbInlines fuel : forall height h d node parent offset,
  Emits P (climbInlines fuel height h d node parent offset).
Proof.
  induction fuel as [|fuel IH]; intros height h d node parent offset; cbn [climbInlines].
  - destruct parent as [p|]; [|apply emits_ret].
    destruct (_ && _); apply emits_ret.
  - destruct parent as [p|]; [|apply emits_ret].
    destruct (_ && _); [|apply emits_ret].
    apply emits_bind; [apply emits_must|intros o; apply IH].
Qed.

End EmitFacts.

(** One step of a proof that an operation emits only calls of a kind. *)
Ltac emits_step :=
  cbv beta zeta;
  match goal with
  | |- Emits _ (ret _) => apply emits_ret
  | |- Emits _ throw => apply emits_throw
  | |- Emits _ (must _) => apply emits_must
  | |- Emits _ getDocument => apply emits_getDocument
  | |- Emits _ getSelection => apply emits_getSelection
  | |- Emits _ getState => apply emits_getState
  | |- Emits _ (assertDescendant _ _) => apply emits_must
  | |- Emits _ (regenerateFragment _) => apply emits_regenerateFragment
  | |- Emits _ (regenerateNode _) => apply emits_regenerateNode
  | |- Emits _ (climbBlocks _ _ _ _ _) => apply emits_climbBlocks
  | |- Emits _ (climbInlines _ _ _ _ _ _ _) => apply emits_climbInlines
  | |- Emits _ (call _) => apply emits_call; reflexivity
  | |- Emits _ (bind _ _) => apply emits_bind; [|intros ?]
  | |- Emits _ (when _ _) => apply emits_when
  | |- Emits _ (forEach _ _) => apply emits_forEach; intros ? ?
  | |- Emits _ (forEachVar _ _ _) => apply emits_forEachVar; intros ? ?
  | |- Emits _ (if ?b then _ else _) => destruct b
  | |- Emits _ (match ?x with _ => _ end) => destruct x
  end.

(** Unfolds the functions of the file down to their calls. *)
Ltac unfold_operations :=
  unfold deleteCharBackwardAtRange, deleteLineBackwardAtRange, deleteWordBackwardAtRange,
    deleteCharForwardAtRange, deleteLineForwardAtRange, deleteWordForwardAtRange,
    deleteBackwardAtRange, deleteForwardAtRange,
    insertBlockAtRange, insertFragmentAtRange, insertInlineAtRange,
    setBlockAtRange, setInlineAtRange, splitBlockAtRange, splitInlineAtRange,
    toggleMarkAtRange, unwrapBlockAtRange, unwrapInlineAtRange,
    wrapBlockAtRange, wrapParent, wrapSiblings, wrapInlineAtRange,
    wrapTextAtRange, insertTextAtRange, addMarkAtRange, removeMarkAtRange, deleteAtRange.

Section NeverCalled.

Context {C : Collaborators} {B : Boundaries}.

(** X17: of the functions of the file only [unwrapInlineAtRange] calls
    the selection transforms: no run of any other function, whatever
    its arguments, issues [unsetSelection], [moveTo] or
    [extendForward]. *)
Theorem only_unwrapInline_moves_the_selection (op : Operation) :
  movesSelection op = false -> Emits notSelection (run op).
Proof.
  destruct op; intros H; try discriminate; cbn [run]; unfold_operations;
    repeat emits_step.
Qed.

(** X18: a node reaches the primitive layer only through the three
    insertions and the two wraps: no run of any other function of the
    file, whatever its arguments, issues [insertNodeByKey] or
    [wrapInlineByKey]. *)
Theorem nodes_come_from_insertions_and_wraps (op : Operation) :
  handsNode op = false -> Emits carriesNoNode (run op).
Proof.
  destruct op; intros H; try discriminate; cbn [run]; unfold_operations;
    repeat emits_step.
Qed.

(** X19: a run of [unwrapInlineAtRange] that returns ends with three
    calls: [moveTo] the end of the node before the first matching
    inline (anchor and focus alike), [extendForward] by the length the
    selection of the state had when the function was called, and
    [normalizeDocument] without a schema; no call before them is a
    normalization. *)
Theorem unwrapInlineAtRange_restores_selection (range : Range) (properties : Properties)
  (tr tr' : Transform) :
  let d := document (state tr) in
  let sel := selection (state tr) in
  let inlines :=
    toOrderedSet []
      (map (fun text => getClosest d (key text) (matchesProperties KInline properties))
         (getTextsAtRange d range)) in
  unwrapInlineAtRange range properties tr = Some (tt, tr') ->
  exists firstInline beginning cs,
    first inlines = Some firstInline
    /\ getPreviousSibling d (key firstInline) = Some beginning
    /\ calls tr' =
         calls tr ++ cs
         ++ [moveTo (key beginning) (node_length beginning)
               (key beginning) (node_length beginning);
             extendForward (endOffset sel - startOffset sel);
             normalizeDocument None]
    /\ Forall (fun c => notNormalization c = true) cs.
Proof.
  intros d sel inlines. unfold unwrapInlineAtRange.
  rewrite getDocument_bind. fold d. unfold getSelection, bind at 1. cbv zeta.
  fold sel inlines.
  destruct (first inlines) as [fi|] eqn:Efi; [|discriminate].
  rewrite (must_some _ _ eq_refl).
  destruct (getPreviousSibling d (key fi)) as [b|] eqn:Eb; [|discriminate].
  rewrite (must_some _ _ eq_refl).
  match goal with
  | |- bind (forEachVar inlines d ?f) _ tr = _ -> _ =>
      assert (Hloop : Emits notNormalization (forEachVar inlines d f))
  end.
  { repeat emits_step. }
  unfold bind at 1.
  match type of Hloop with Emits _ ?m => destruct (m tr) as [[v t1]|] eqn:E1 end;
    [|discriminate].
  destruct (Hloop _ _ _ E1) as (cs & Hcs & Hf).
  unfold bind.
  destruct (call (moveTo _ _ _ _) t1) as [[[] t2]|] eqn:E2; [|discriminate].
  destruct (call (extendForward _) t2) as [[[] t3]|] eqn:E3; [|discriminate].
  intros E4. exists fi, b, cs. refine (conj eq_refl (conj Eb (conj _ Hf))).
  rewrite (call_calls _ _ E4), (call_calls _ _ E3), (call_calls _ _ E2), Hcs.
  rewrite <- !app_assoc. reflexivity.
Qed.

End NeverCalled.

(** ** Key uniqueness under every function of the file *)

Section SetFacts.

Lemma setProperties_keys p x : Model.keysOf (Model.setProperties p x) = Model.keysOf x.
Proof. destruct x; reflexivity. Qed.

(** Setting properties changes no key. *)
Lemma perform_set k p o d g d' g' P :
  Model.performOnDocument (setNodeByKey k p o) d g = Some (d', g') ->
  Inv d g P -> Inv d' g' P /\ g' = g.
Proof.
  intros H HI. pose proof (Inv_unique HI) as Hnd. cbn [Model.performOnDocument] in H.
  destruct (Model.getDescendant d k) as [x|] eqn:E; [|discriminate].
  inversion H; subst d' g'. split; [|reflexivity].
  destruct (splice_occ k d Hnd E) as (rest & P1 & P2).
  destruct HI as [H1 H2].
  assert (He : forall a, occ (Model.keysOf (Model.splice k [Model.setProperties p x] d)) a
                         = occ (Model.keysOf d) a).
  { intros a. rewrite (P2 _ a), (P1 a). cbn [flat_map].
    rewrite app_nil_r, setProperties_keys. reflexivity. }
  split; intros a; rewrite (He a); auto.
Qed.

End SetFacts.

Section KeySafety.

#[local] Existing Instance Model.collaborators.

Variables (base : list Call) (g0 : N).

Lemma call_set k p o : Keeps base g0 (call (setNodeByKey k p o)).
Proof.
  intros P tr [] tr' (HI & Hg & Hf & cs & Hcs & Hfr) H.
  unfold call in H. cbn [perform Model.collaborators] in H. unfold Model.perform in H.
  destruct (Model.performOnDocument _ (document (state tr)) (nextKey tr)) as [[d g]|] eqn:E;
    [|discriminate].
  inversion H; subst tr'. unfold InvT. cbn [state document nextKey calls].
  edestruct perform_set as [HI' Eg]; [exact E|exact HI|]. subst g.
  refine (conj HI' (conj Hg (conj Hf _))).
  exists (cs ++ [setNodeByKey k p o]). rewrite Hcs, app_assoc.
  split; [reflexivity|]. apply Forall_app. split; [assumption|].
  constructor; [exact I|constructor].
Qed.

Lemma keeps_getState : Keeps base g0 getState.
Proof. intros P tr x tr' HI [= <- <-]. exact HI. Qed.

Lemma keeps_getSelection : Keeps base g0 getSelection.
Proof. intros P tr x tr' HI [= <- <-]. exact HI. Qed.

Lemma keeps_forEachVar {A V} (l : list A) (f : A -> V -> M V) :
  (forall x v, Keeps base g0 (f x v)) -> forall v, Keeps base g0 (forEachVar l v f).
Proof.
  intros Hf. induction l as [|x l IH]; intros v; cbn [forEachVar].
  - apply keeps_ret.
  - apply keeps_bind; [apply Hf|intros v'; apply IH].
Qed.

Lemma keeps_climbBlocks fuel : forall d node parent offset,
  Keeps base g0 (climbBlocks fuel d node parent offset).
Proof.
  induction fuel as [|fuel IH]; intros d node parent offset; cbn [climbBlocks].
  - destruct parent; apply keeps_ret.
  - destruct parent as [p|]; [|apply keeps_ret].
    destruct (Kind_eqb (kind p) KBlock); [|apply keeps_ret].
    apply keeps_bind; [apply keeps_must|intros o; apply IH].
Qed.

Lemma keeps_climbInlines fuel : forall height h d node parent offset,
  Keeps base g0 (climbInlines fuel height h d node parent offset).
Proof.
  induction fuel as [|fuel IH]; intros height h d node parent offset; cbn [climbInlines].
  - destruct parent as [p|]; [|apply keeps_ret].
    destruct (_ && _); apply keeps_ret.
  - destruct parent as [p|]; [|apply keeps_ret].
    destruct (_ && _); [|apply keeps_ret].
    apply keeps_bind; [apply keeps_must|intros o; apply IH].
Qed.

(** A regenerated node without children is pending with a key of its
    own, the one the generator was at. *)
Lemma regenerateNode_step (n : Node) P tr n' tr' :
  nodes n = [] -> InvT base g0 P tr -> regenerateNode n tr = Some (n', tr') ->
  InvT base g0 (Model.keysOf n' ++ P) tr'.
Proof.
  intros Hn ([H1 H2] & Hg & Hf & Hc) H. unfold regenerateNode in H.
  assert (E : n' = fst (regenerateKey n (nextKey tr))
              /\ tr' = {| state := state tr; calls := calls tr;
                          nextKey := snd (regenerateKey n (nextKey tr)) |}).
  { destruct (regenerateKey n (nextKey tr)) as [x c]. inversion H. auto. }
  destruct E as [-> ->]. clear H.
  assert (Ek : Model.keysOf (fst (regenerateKey n (nextKey tr))) = [nextKey tr]
               /\ snd (regenerateKey n (nextKey tr)) = N.succ (nextKey tr)).
  { destruct n as [k cs|kd k ty v dt ns]; cbn in *; [auto|]. subst ns. auto. }
  destruct Ek as [Ek Es]. rewrite Ek, Es.
  unfold InvT, Inv. cbn [state document nextKey calls app].
  assert (Hfresh : forall a, (occ (Model.keysOf (document (state tr))) a + occ P a > 0)%nat ->
                             a <> nextKey tr).
  { intros a Ha. apply H2 in Ha. lia. }
  refine (conj (conj _ _) (conj _ (conj _ Hc))).
  - intros a. rewrite occ_cons. specialize (H1 a). unfold occ1.
    destruct (N.eq_dec (nextKey tr) a) as [<-|]; [|lia].
    destruct (Nat.eq_dec (occ (Model.keysOf (document (state tr))) (nextKey tr)
                          + occ P (nextKey tr)) 0) as [|Hne]; [lia|].
    exfalso. apply (Hfresh (nextKey tr)); [lia|reflexivity].
  - intros a. rewrite occ_cons. unfold occ1. intros Ha.
    destruct (N.eq_dec (nextKey tr) a) as [<-|]; [lia|].
    assert (a < nextKey tr)%N by (apply H2; lia). lia.
  - lia.
  - intros a. rewrite occ_cons. unfold occ1. intros Ha.
    destruct (N.eq_dec (nextKey tr) a) as [<-|]; [lia|]. apply Hf. lia.
Qed.

Lemma clearNodes_nodes n : nodes (clearNodes n) = [].
Proof. destruct n; reflexivity. Qed.

(** A wrapper is regenerated and inserted: the pending keys are as
    before. *)
Lemma keeps_regenerate_insert {A} (n : Node) (pk : Node -> Key) (ix : Node -> Z) (o : Options)
  (rest : Node -> M A) :
  nodes n = [] -> (forall x, Keeps base g0 (rest x)) ->
  Keeps base g0 (node <- regenerateNode n ;;
                 call (insertNodeByKey (pk node) (ix node) node o) ;; rest node).
Proof.
  intros Hn Hr P.
  eapply step_bind_value with (Q := fun x => Model.keysOf x ++ P).
  { intros tr x tr'. now apply regenerateNode_step. }
  intros x. eapply step_bind; [apply call_insert|intros _; apply Hr].
Qed.

(** Two wrappers are regenerated, then inserted in that order. *)
Lemma keeps_regenerate_two {A} (n : Node) (pk1 pk2 : Node -> Node -> Key)
  (ix1 ix2 : Node -> Node -> Z) (o1 o2 : Options) (rest : Node -> Node -> M A) :
  nodes n = [] -> (forall x y, Keeps base g0 (rest x y)) ->
  Keeps base g0 (s <- regenerateNode n ;;
                 e <- regenerateNode n ;;
                 call (insertNodeByKey (pk1 s e) (ix1 s e) s o1) ;;
                 call (insertNodeByKey (pk2 s e) (ix2 s e) e o2) ;;
                 rest s e).
Proof.
  intros Hn Hr P.
  eapply step_bind_value with (Q := fun x => Model.keysOf x ++ P).
  { intros tr x tr'. now apply regenerateNode_step. }
  intros x.
  eapply step_bind_value with (Q := fun y => Model.keysOf y ++ Model.keysOf x ++ P).
  { intros tr y tr'. now apply regenerateNode_step. }
  intros y.
  eapply step_weaken with (P' := Model.keysOf x ++ Model.keysOf y ++ P).
  { intros tr _ a. rewrite !occ_app. lia. }
  eapply step_bind; [apply call_insert|intros _].
  eapply step_bind; [apply call_insert|intros _; apply Hr].
Qed.

Lemma call_insert_last pk ix x o :
  Step base g0 (Model.keysOf x) [] (call (insertNodeByKey pk ix x o)).
Proof. rewrite <- (app_nil_r (Model.keysOf x)) at 1. apply call_insert. Qed.

End KeySafety.

(** One step of a proof that an operation keeps the key invariant. *)
Ltac safe_step :=
  cbv beta zeta;
  match goal with
  | |- Keeps _ _ (ret _) => apply keeps_ret
  | |- Keeps _ _ throw => apply keeps_throw
  | |- Keeps _ _ (must _) => apply keeps_must
  | |- Keeps _ _ getDocument => apply keeps_getDocument
  | |- Keeps _ _ getState => apply keeps_getState
  | |- Keeps _ _ getSelection => apply keeps_getSelection
  | |- Keeps _ _ (assertDescendant _ _) => apply keeps_must
  | |- Keeps _ _ (climbBlocks _ _ _ _ _) => apply keeps_climbBlocks
  | |- Keeps _ _ (climbInlines _ _ _ _ _ _ _) => apply keeps_climbInlines
  | |- Keeps _ _ (call (setNodeByKey _ _ _)) => apply call_set
  | |- Keeps _ _ (call _) => apply call_neutral; reflexivity
  | |- Keeps _ _ (bind (regenerateNode _) (fun s => bind (regenerateNode _) _)) =>
      apply keeps_regenerate_two; [apply clearNodes_nodes|intros ? ?]
  | |- Keeps _ _ (bind (regenerateNode _) _) =>
      apply keeps_regenerate_insert; [apply clearNodes_nodes|intros ?]
  | |- Keeps _ _ (bind _ _) => apply keeps_bind; [|intros ?]
  | |- Keeps _ _ (when _ _) => apply keeps_when
  | |- Keeps _ _ (forEach _ _) => apply keeps_forEach; intros ? ?
  | |- Keeps _ _ (forEachVar _ _ _) => apply keeps_forEachVar; intros ? ?
  | |- Keeps _ _ (if ?b then _ else _) => destruct b
  | |- Keeps _ _ (match ?x with _ => _ end) => destruct x
  end.

(** Steps over a bind whose first part hands no node over. *)
Ltac safe_bind x :=
  eapply step_bind;
  [apply step_keeps; unfold_operations; repeat safe_step|intros x]; cbv beta zeta.

Section KeySafeOperations.

#[local] Existing Instance Model.collaborators.

Context {B : Boundaries}.

Variables (base : list Call) (g0 : N).

Lemma keeps_wrapInlineAtRange (range : Range) (inline : Node) (options : Options) :
  isExpanded range = true -> Keeps base g0 (wrapInlineAtRange range inline options).
Proof.
  intros H. unfold wrapInlineAtRange.
  apply keeps_bind; [apply keeps_getDocument|intros d]. cbv zeta.
  unfold isExpanded in H. apply negb_true_iff in H. rewrite H.
  repeat safe_step.
Qed.

Lemma keySafe_step (op : Operation) : keySafe op = true -> Step base g0 [] [] (run op).
Proof.
  destruct op; intros H; try discriminate; cbn [run];
    try (apply insertFragmentAtRange_step);
    try (apply step_keeps, keeps_wrapInlineAtRange; exact H);
    apply step_keeps; unfold_operations; repeat safe_step.
Qed.

Lemma runAll_step (ops : list Operation) :
  Forall (fun op => keySafe op = true) ops -> Step base g0 [] [] (runAll ops).
Proof.
  unfold runAll, forEach. generalize 0.
  induction ops as [|op ops IH]; intros i H; cbn [forEachFrom].
  - apply step_keeps, keeps_ret.
  - inversion H; subst. eapply step_bind; [apply keySafe_step; assumption|].
    intros _. apply IH. assumption.
Qed.

Lemma insertBlockAtRange_step (range : Range) (block : Node) (options : Options) :
  Step base g0 (Model.keysOf block) [] (insertBlockAtRange range block options).
Proof.
  unfold insertBlockAtRange. cbv zeta.
  safe_bind r. safe_bind d. safe_bind st. safe_bind sb. safe_bind par.
  eapply step_bind with (Q := []); [|intros _; apply step_keeps; repeat safe_step].
  destruct (node_isVoid sb); [apply call_insert_last|].
  destruct (isEmpty sb); [safe_bind u; apply call_insert_last|].
  destruct (isAtStartOf r sb); [apply call_insert_last|].
  destruct (isAtEndOf r sb); [apply call_insert_last|].
  safe_bind o. safe_bind u. apply call_insert_last.
Qed.

Lemma insertInlineAtRange_step (range : Range) (inline : Node) (options : Options) :
  Step base g0 (Model.keysOf inline) [] (insertInlineAtRange range inline options).
Proof.
  unfold insertInlineAtRange. cbv zeta.
  safe_bind r. safe_bind d. safe_bind st. safe_bind par.
  destruct (node_isVoid par).
  - eapply step_weaken with (P' := []); [intros; rewrite occ_nil; lia|].
    apply step_keeps, keeps_ret.
  - safe_bind u.
    eapply step_bind; [apply call_insert_last|intros _; apply step_keeps; repeat safe_step].
Qed.

Lemma wrapBlockAtRange_step (range : Range) (block : Node) (options : Options) :
  Step base g0 (Model.keysOf block) [] (wrapBlockAtRange range block options).
Proof.
  unfold wrapBlockAtRange. cbv zeta.
  safe_bind d. safe_bind par. safe_bind r.
  eapply step_weaken with (P' := Model.keysOf (clearNodes block)).
  { intros tr _ a. rewrite (occ_keysOf block), (occ_keysOf (clearNodes block)).
    rewrite clearNodes_nodes. destruct block; cbn; lia. }
  eapply step_bind; [apply call_insert_last|intros _; apply step_keeps; repeat safe_step].
Qed.

End KeySafeOperations.

Section KeySafeTheorems.

#[local] Existing Instance Model.collaborators.

Context {B : Boundaries}.

Lemma InvT_start (tr : Transform) :
  Model.uniqueKeys (document (state tr)) ->
  Model.issuedBelow (nextKey tr) (Model.keysOf (document (state tr))) ->
  InvT (calls tr) (nextKey tr) [] tr.
Proof.
  intros Hu Hb. refine (conj _ (conj _ (conj _ _))).
  - apply Inv_nil. split; assumption.
  - lia.
  - intros a Ha. rewrite occ_nil in Ha. lia.
  - exists []. rewrite app_nil_r. split; [reflexivity|constructor].
Qed.

(** X20: on the model of the primitive layer, any sequence of calls of
    the functions of the file keeps the keys of the document unique
    and issued by the generator, whatever the arguments, as long as it
    leaves out the three functions that insert a node as the caller
    gives it ([insertBlockAtRange], [insertInlineAtRange],
    [wrapBlockAtRange]) and [wrapInlineAtRange] on a collapsed range:
    the other functions hand over no node, or regenerate its keys
    first. *)
Theorem key_safe_operations_keep_keys_unique (ops : list Operation) (tr tr' : Transform) :
  Forall (fun op => keySafe op = true) ops ->
  Model.uniqueKeys (document (state tr)) ->
  Model.issuedBelow (nextKey tr) (Model.keysOf (document (state tr))) ->
  runAll ops tr = Some (tt, tr') ->
  Model.uniqueKeys (document (state tr'))
  /\ Model.issuedBelow (nextKey tr') (Model.keysOf (document (state tr'))).
Proof.
  intros Hs Hu Hb H.
  destruct (@runAll_step _ (calls tr) (nextKey tr) ops Hs tr tt tr' (@InvT_start tr Hu Hb) H)
    as (HI & _).
  now apply Inv_nil in HI.
Qed.

Lemma InvT_given (tr : Transform) (node : Node) :
  Model.uniqueKeys (document (state tr)) ->
  Model.issuedBelow (nextKey tr) (Model.keysOf (document (state tr))) ->
  NoDup (Model.keysOf node) ->
  Model.issuedBelow (nextKey tr) (Model.keysOf node) ->
  (forall k, In k (Model.keysOf node) -> ~ In k (Model.keysOf (document (state tr)))) ->
  InvT (calls tr) 0 (Model.keysOf node) tr.
Proof.
  unfold Model.uniqueKeys, Model.issuedBelow.
  intros Hu Hb Hn Hbn Hd. refine (conj (conj _ _) (conj _ (conj _ _))).
  - intros a. apply NoDup_occ with (a := a) in Hu. apply NoDup_occ with (a := a) in Hn.
    destruct (Nat.eq_dec (occ (Model.keysOf node) a) 0) as [|Hne]; [lia|].
    destruct (Nat.eq_dec (occ (Model.keysOf (document (state tr))) a) 0) as [|Hne']; [lia|].
    exfalso. apply (Hd a); apply occ_In; lia.
  - intros a Ha.
    destruct (Nat.eq_dec (occ (Model.keysOf node) a) 0) as [Hz|Hne].
    + rewrite Forall_forall in Hb. apply Hb, occ_In. lia.
    + rewrite Forall_forall in Hbn. apply Hbn, occ_In. lia.
  - lia.
  - intros a _. lia.
  - exists []. rewrite app_nil_r. split; [reflexivity|constructor].
Qed.

(** X21: on the model of the primitive layer, [insertBlockAtRange],
    [insertInlineAtRange] and [wrapBlockAtRange], which hand the node
    they are given to [insertNodeByKey] without regenerating its keys,
    keep the keys of the document unique and issued by the generator
    when the keys of that node are distinct, issued by the generator
    and carried by no node of the document. *)
Theorem given_node_with_new_keys_keeps_keys_unique (range : Range) (node : Node)
  (options : Options) (tr tr' : Transform) :
  Model.uniqueKeys (document (state tr)) ->
  Model.issuedBelow (nextKey tr) (Model.keysOf (document (state tr))) ->
  NoDup (Model.keysOf node) ->
  Model.issuedBelow (nextKey tr) (Model.keysOf node) ->
  (forall k, In k (Model.keysOf node) -> ~ In k (Model.keysOf (document (state tr)))) ->
  insertBlockAtRange range node options tr = Some (tt, tr')
  \/ insertInlineAtRange range node options tr = Some (tt, tr')
  \/ wrapBlockAtRange range node options tr = Some (tt, tr') ->
  Model.uniqueKeys (document (state tr'))
  /\ Model.issuedBelow (nextKey tr') (Model.keysOf (document (state tr'))).
Proof.
  intros Hu Hb Hn Hbn Hd H.
  pose proof (@InvT_given tr node Hu Hb Hn Hbn Hd) as HI.
  assert (HI' : InvT (calls tr) 0 [] tr').
  { destruct H as [H|[H|H]].
    - exact (@insertBlockAtRange_step (calls tr) 0%N range node options tr tt tr' HI H).
    - exact (@insertInlineAtRange_step (calls tr) 0%N range node options tr tt tr' HI H).
    - exact (@wrapBlockAtRange_step (calls tr) 0%N range node options tr tt tr' HI H). }
  destruct HI' as (HI' & _). now apply Inv_nil in HI'.
Qed.

End KeySafeTheorems.

(** ** Inline wrapping, call by call *)

Section WrapInlineFacts.

Context {C : Collaborators}.

Lemma regenerateNode_run (n : Node) (t : Transform) :
  regenerateNode n t =
    Some (fst (regenerateKey n (nextKey t)),
          {| state := state t; calls := calls t; nextKey := N.succ (nextKey t) |}).
Proof. unfold regenerateNode. destruct n; reflexivity. Qed.

Lemma regenerateNode_bind {A} (n : Node) (f : Node -> M A) (t : Transform) :
  bind (regenerateNode n) f t =
    f (fst (regenerateKey n (nextKey t)))
      {| state := state t; calls := calls t; nextKey := N.succ (nextKey t) |}.
Proof. unfold bind. now rewrite regenerateNode_run. Qed.

(** A run of calls followed by more calls. *)
Lemma callAll_then cs1 cs2 (m : M unit) t :
  (forall t', m t' = callAll cs2 t') ->
  bind (callAll cs1) (fun _ => m) t = callAll (cs1 ++ cs2) t.
Proof.
  intros H. rewrite callAll_app. unfold bind.
  destruct (callAll cs1 t) as [[[] t']|]; [apply H|reflexivity].
Qed.

Lemma forEach_then {A} (g : A -> Z -> Call) (l : list A) cs2 (m : M unit) t :
  (forall t', m t' = callAll cs2 t') ->
  bind (forEach l (fun x j => call (g x j))) (fun _ => m) t = callAll (mapi g l ++ cs2) t.
Proof.
  intros H. rewrite <- (@callAll_then (mapi g l) cs2 m t H). unfold bind.
  now rewrite forEach_calls.
Qed.

Lemma call_then c cs2 (m : M unit) t :
  (forall t', m t' = callAll cs2 t') ->
  bind (call c) (fun _ => m) t = callAll (c :: cs2) t.
Proof.
  intros H. rewrite callAll_cons. unfold bind.
  destruct (call c t) as [[[] t']|]; [apply H|reflexivity].
Qed.

(** X24: across two blocks with no spanned block between them,
    [wrapInlineAtRange] splits the start child and the end child at
    the ends of the range, then draws two keys and inserts two copies
    of the inline without its children: one in the start block at the
    index the start child had before the split minus one, one in the
    end block at the index the end child had; it moves into the first
    the children of the start block from that index plus one on, into
    the second the children of the end block up to that index, every
    call with the do-not-normalize flag, and normalizes the two blocks
    last unless the caller turned normalization off. *)
Theorem wrapInlineAtRange_across_blocks (range : Range) (inline : Node) (options : Options)
  (tr tr2 : Transform) (startBlock0 endBlock0 startChild endChild : Node)
  (startOff endOff : Z) (startBlock endBlock : Node) :
  let d := document (state tr) in
  isCollapsed range = false ->
  getClosestBlock d (startKey range) = Some startBlock0 ->
  getClosestBlock d (endKey range) = Some endBlock0 ->
  getHighestChild startBlock0 (startKey range) = Some startChild ->
  getHighestChild endBlock0 (endKey range) = Some endChild ->
  offsetUnder startChild (startKey range) (startOffset range) = Some startOff ->
  offsetUnder endChild (endKey range) (endOffset range) = Some endOff ->
  same startBlock0 endBlock0 = false ->
  slice 1 (-1) (getBlocksAtRange d range) = [] ->
  callAll [splitNodeByKey (key startChild) startOff OPTS;
           splitNodeByKey (key endChild) endOff OPTS] tr = Some (tt, tr2) ->
  getDescendant (document (state tr2)) (key startBlock0) = Some startBlock ->
  getDescendant (document (state tr2)) (key endBlock0) = Some endBlock ->
  let startIndex := indexOf (nodes startBlock0) startChild in
  let endIndex := indexOf (nodes endBlock0) endChild in
  let startNode := fst (regenerateKey (clearNodes inline) (nextKey tr2)) in
  let endNode := fst (regenerateKey (clearNodes inline) (N.succ (nextKey tr2))) in
  wrapInlineAtRange range inline options tr =
    callAll ([insertNodeByKey (key startBlock) (startIndex - 1) startNode OPTS;
              insertNodeByKey (key endBlock) endIndex endNode OPTS]
             ++ mapi (fun child i => moveNodeByKey (key child) (key startNode) i OPTS)
                  (sliceFrom (startIndex + 1) (nodes startBlock))
             ++ mapi (fun child i => moveNodeByKey (key child) (key endNode) i OPTS)
                  (slice 0 (endIndex + 1) (nodes endBlock))
             ++ (if normalize_or_true options
                 then [normalizeNodeByKey (key startBlock) SCHEMA;
                       normalizeNodeByKey (key endBlock) SCHEMA]
                 else []))
      {| state := state tr2; calls := calls tr2;
         nextKey := N.succ (N.succ (nextKey tr2)) |}.
Proof.
  intros d Hc Hsb0 Heb0 Hsc Hec Hso Heo Hsame Hmid Hsplit Hsb Heb
    startIndex endIndex startNode endNode.
  unfold wrapInlineAtRange. rewrite getDocument_bind. fold d. cbv zeta.
  rewrite Hc, (must_some _ _ Hsb0), (must_some _ _ Heb0), (must_some _ _ Hsc),
    (must_some _ _ Hec), (must_some _ _ Hso), (must_some _ _ Heo), Hsame, Hmid.
  rewrite callAll_cons in Hsplit. unfold bind in Hsplit.
  destruct (call (splitNodeByKey (key startChild) startOff OPTS) tr)
    as [[[] t1]|] eqn:E1; [|discriminate].
  rewrite callAll_one in Hsplit.
  rewrite (bind_some _ _ _ E1), (bind_some _ _ _ Hsplit).
  rewrite getDocument_bind, (must_some _ _ Hsb), (must_some _ _ Heb).
  rewrite !regenerateNode_bind. cbn [nextKey state calls].
  fold startIndex endIndex startNode endNode.
  cbn [app]. apply call_then. intros t3. apply call_then. intros t4.
  apply forEach_then. intros t5. apply forEach_then. intros t6.
  cbn [forEach forEachFrom]. unfold ret, bind.
  destruct (normalize_or_true options); cbn [when].
  - unfold bind. rewrite callAll_cons. unfold bind.
    destruct (call _ t6) as [[[] t7]|]; [|reflexivity].
    rewrite callAll_one. destruct (call _ t7) as [[[] t8]|]; reflexivity.
  - reflexivity.
Qed.

(** X25: within one block [wrapInlineAtRange] splits the end child
    first, unless the range ends at its end, then the start child,
    unless the range starts at its start; on the document it reads
    again it draws one key, inserts a copy of the inline without its
    children at the index of the first wrapped child, moves into it,
    in order, the children from that one up to the one that holds the
    end of the range, every call with the do-not-normalize flag, and
    normalizes the block last unless the caller turned normalization
    off. *)
Theorem wrapInlineAtRange_within_block (range : Range) (inline : Node) (options : Options)
  (tr tr2 : Transform) (startBlock0 endBlock0 startChild0 endChild0 : Node)
  (startOff endOff : Z) (startBlock startChild endInner : Node) :
  let d := document (state tr) in
  isCollapsed range = false ->
  getClosestBlock d (startKey range) = Some startBlock0 ->
  getClosestBlock d (endKey range) = Some endBlock0 ->
  getHighestChild startBlock0 (startKey range) = Some startChild0 ->
  getHighestChild endBlock0 (endKey range) = Some endChild0 ->
  offsetUnder startChild0 (startKey range) (startOffset range) = Some startOff ->
  offsetUnder endChild0 (endKey range) (endOffset range) = Some endOff ->
  same startBlock0 endBlock0 = true ->
  callAll ((if endOff =? node_length endChild0 then []
            else [splitNodeByKey (key endChild0) endOff OPTS])
           ++ (if startOff =? 0 then []
               else [splitNodeByKey (key startChild0) startOff OPTS])) tr
    = Some (tt, tr2) ->
  let d2 := document (state tr2) in
  getClosestBlock d2 (startKey range) = Some startBlock ->
  getHighestChild startBlock (startKey range) = Some startChild ->
  let startInner := if startOff =? 0 then Some startChild
                    else getNextSibling d2 (key startChild) in
  (if N.eqb (startKey range) (endKey range) then startInner
   else getHighestChild startBlock (endKey range)) = Some endInner ->
  let node := fst (regenerateKey (clearNodes inline) (nextKey tr2)) in
  let inlines :=
    takeUntil (fun n => same n endInner)
      (skipUntil (fun n => osame (Some n) startInner) (nodes startBlock))
    ++ [endInner] in
  wrapInlineAtRange range inline options tr =
    callAll (insertNodeByKey (key startBlock) (indexOfOpt (nodes startBlock) startInner)
               node OPTS
             :: mapi (fun child i => moveNodeByKey (key child) (key node) i OPTS) inlines
             ++ finish (normalize_or_true options) (key startBlock))
      {| state := state tr2; calls := calls tr2; nextKey := N.succ (nextKey tr2) |}.
Proof.
  intros d Hc Hsb0 Heb0 Hsc Hec Hso Heo Hsame Hsplit d2 Hsb Hsc2 startInner Hei node inlines.
  unfold wrapInlineAtRange. rewrite getDocument_bind. fold d. cbv zeta.
  rewrite Hc, (must_some _ _ Hsb0), (must_some _ _ Heb0), (must_some _ _ Hsc),
    (must_some _ _ Hec), (must_some _ _ Hso), (must_some _ _ Heo), Hsame.
  assert (Hpre : forall (k : M unit),
            bind (when (negb (endOff =? node_length endChild0))
                    (call (splitNodeByKey (key endChild0) endOff OPTS)))
              (fun _ => bind (when (negb (startOff =? 0))
                                (call (splitNodeByKey (key startChild0) startOff OPTS)))
                          (fun _ => k)) tr = k tr2).
  { intros k. rewrite callAll_app in Hsplit. unfold bind in Hsplit.
    destruct (endOff =? node_length endChild0); cbn [negb when].
    - rewrite callAll_nil in Hsplit. rewrite bind_ret_l.
      destruct (startOff =? 0); cbn [negb when].
      + rewrite callAll_nil in Hsplit. inversion Hsplit. reflexivity.
      + rewrite callAll_one in Hsplit. now rewrite (bind_some _ _ _ Hsplit).
    - rewrite callAll_one in Hsplit.
      destruct (call (splitNodeByKey (key endChild0) endOff OPTS) tr)
        as [[[] t1]|] eqn:E1; [|discriminate].
      rewrite (bind_some _ _ _ E1).
      destruct (startOff =? 0); cbn [negb when].
      + rewrite callAll_nil in Hsplit. inversion Hsplit. reflexivity.
      + rewrite callAll_one in Hsplit. now rewrite (bind_some _ _ _ Hsplit). }
  rewrite Hpre. rewrite getDocument_bind. fold d2.
  rewrite (must_some _ _ Hsb), Hsc2.
  assert (Hin : forall {A} (f : option Node -> M A) t,
            bind (if startOff =? 0 then ret (Some startChild)
                  else (c <- must (Some startChild) ;; ret (getNextSibling d2 (key c)))) f t
            = f startInner t).
  { intros A f t. subst startInner. destruct (startOff =? 0); reflexivity. }
  rewrite Hin. fold startInner. rewrite Hei.
  rewrite regenerateNode_bind. cbn [nextKey state calls]. fold node.
  apply call_then. intros t3.
  replace (map Some (takeUntil (fun n => osame (Some n) (Some endInner))
                       (skipUntil (fun n => osame (Some n) startInner) (nodes startBlock)))
           ++ [Some endInner]) with (map Some inlines)
    by (subst inlines; now rewrite map_app).
  unfold forEach. unfold bind at 1. rewrite forEachFrom_must.
  fold (forEach inlines (fun c j => call (moveNodeByKey (key c) (key node) j OPTS))).
  rewrite forEach_calls, callAll_app. unfold bind.
  destruct (callAll _ t3) as [[[] t4]|]; [|reflexivity].
  apply when_finish.
Qed.

End WrapInlineFacts.

(** ** Deletion within a block, and text wrapping *)

Section BlockFacts.

Context {C : Collaborators}.

(** X22: on an expanded range whose ends are in different leaves of
    one block, [deleteAtRange] splits the two children of the common
    ancestor at the ends of the range and then, on the document it
    reads again, removes the children after the start child up to and
    including the end child, every call with the do-not-normalize
    flag; nothing is moved and no block is removed; the ancestor is
    normalized last unless the caller turned normalization off. *)
Theorem deleteAtRange_within_one_block (range : Range) (options : Options)
  (tr tr2 : Transform) (ancestor0 startChild0 endChild0 : Node) (startOff endOff : Z)
  (ancestor startChild endChild startBlock nextText endBlock : Node) :
  isCollapsed range = false ->
  startKey range <> endKey range ->
  getCommonAncestor (document (state tr)) (startKey range) (endKey range) = Some ancestor0 ->
  getHighestChild ancestor0 (startKey range) = Some startChild0 ->
  getHighestChild ancestor0 (endKey range) = Some endChild0 ->
  offsetIn startChild0 (startKey range) (startOffset range) = Some startOff ->
  offsetIn endChild0 (endKey range) (endOffset range) = Some endOff ->
  callAll [splitNodeByKey (key startChild0) startOff OPTS;
           splitNodeByKey (key endChild0) endOff OPTS] tr = Some (tt, tr2) ->
  let document := document (state tr2) in
  getCommonAncestor document (startKey range) (endKey range) = Some ancestor ->
  getHighestChild ancestor (startKey range) = Some startChild ->
  getHighestChild ancestor (endKey range) = Some endChild ->
  getClosestBlock document (startKey range) = Some startBlock ->
  getNextText document (endKey range) = Some nextText ->
  getClosestBlock document (key nextText) = Some endBlock ->
  key startBlock = key endBlock ->
  let middles := slice (indexOf (nodes ancestor) startChild + 1)
                       (indexOf (nodes ancestor) endChild + 1) (nodes ancestor) in
  deleteAtRange range options tr =
    callAll (map (fun child => removeNodeByKey (key child) OPTS) middles
             ++ finish (normalize_or_true options) (key ancestor)) tr2.
Proof.
  intros H E Ha0 Hs0 He0 Hso Heo Hsplit document Ha Hs He Hsb Hnt Heb Hne middles.
  unfold deleteAtRange. rewrite H.
  apply N.eqb_neq in E. rewrite E, getDocument_bind.
  rewrite (must_some _ _ Ha0), (must_some _ _ Hs0), (must_some _ _ He0).
  rewrite (must_some _ _ Hso), (must_some _ _ Heo).
  rewrite callAll_cons in Hsplit. unfold bind in Hsplit.
  destruct (call (splitNodeByKey (key startChild0) startOff OPTS) tr)
    as [[[] t1]|] eqn:E1; [|discriminate].
  rewrite callAll_one in Hsplit.
  rewrite (bind_some _ _ _ E1), (bind_some _ _ _ Hsplit).
  rewrite getDocument_bind. fold document.
  rewrite (must_some _ _ Ha), (must_some _ _ Hs), (must_some _ _ He).
  fold middles.
  rewrite !callAll_app.
  assert (Hm : when (negb (size middles =? 0))
                 (forEach middles (fun child _ => call (removeNodeByKey (key child) OPTS))) tr2
               = callAll (map (fun child => removeNodeByKey (key child) OPTS) middles) tr2).
  { destruct middles as [|m ms]; [reflexivity|].
    replace (negb (size (m :: ms) =? 0)) with true
      by (symmetry; apply negb_true_iff, Z.eqb_neq; unfold size; cbn [List.length]; lia).
    cbn [when]. rewrite forEach_calls. unfold mapi. now rewrite mapiFrom_const. }
  destruct (callAll (map (fun child => removeNodeByKey (key child) OPTS) middles) tr2)
    as [[[] t3]|] eqn:E3.
  2:{ now rewrite (bind_none _ _ _ E3), (bind_none _ _ _ Hm). }
  rewrite (bind_some _ _ _ E3), (bind_some _ _ _ Hm).
  rewrite (must_some _ _ Hsb), (must_some _ _ Hnt), (must_some _ _ Heb).
  apply N.eqb_eq in Hne. rewrite Hne. cbn [negb when]. rewrite bind_ret_l.
  apply when_finish.
Qed.

(** X23: [wrapTextAtRange] never normalizes, whatever the options: it
    calls [insertTextAtRange] with a flag that is always given and on
    ranges that are always collapsed, so that every call it issues is
    an [insertTextByKey] without marks that carries the
    do-not-normalize flag. *)
Theorem wrapTextAtRange_never_normalizes (range : Range) (prefix : string)
  (suffix : option string) (options : Options) :
  Emits quietPlainText (wrapTextAtRange range prefix suffix options).
Proof.
  unfold wrapTextAtRange, insertTextAtRange. cbv zeta. cbn [normalize with_normalize].
  rewrite isExpanded_collapseToStart.
  replace (isExpanded (if startKey range =? endKey range
                       then moveForward (string_length prefix) (collapseToEnd range)
                       else collapseToEnd range)%N) with false.
  2:{ destruct (N.eqb _ _);
        [rewrite isExpanded_moveForward|]; now rewrite isExpanded_collapseToEnd. }
  cbn [when]. repeat emits_step.
Qed.

End BlockFacts.

(** ** Further runs on the model *)

Section FurtherRuns.

#[local] Existing Instance Model.collaborators.
#[local] Existing Instance Model.boundaries.

Import Examples.


Lemma deleteBackwardAtRange_within_leaf_witness :
  deleteBackwardAtRange caret None no_options at_caret
  = call (removeTextByKey 2%N 0 1 (with_normalize true)) at_caret.
Proof.
  exact (@deleteBackwardAtRange_within_leaf _ caret None no_options at_caret
           (Text 2%N (plain "one")) eq_refl eq_refl eq_refl eq_refl eq_refl eq_refl).
Defined.

Lemma deleteForwardAtRange_within_leaf_witness :
  deleteForwardAtRange caret (Some 2) no_options at_caret
  = call (removeTextByKey 2%N 1 2 (with_normalize true)) at_caret.
Proof.
  exact (@deleteForwardAtRange_within_leaf _ caret (Some 2) no_options at_caret
           (Text 2%N (plain "one")) eq_refl eq_refl eq_refl eq_refl eq_refl eq_refl).
Defined.

Lemma directional_deletion_guards_witness :
  (deleteBackwardAtRange wide None no_options at_wide
   = deleteAtRange wide (with_normalize true) at_wide
   /\ deleteForwardAtRange wide (Some 3) no_options at_wide
      = deleteAtRange wide (with_normalize true) at_wide)
  /\ (deleteBackwardAtRange in_image None no_options at_image
      = call (removeNodeByKey 1%N (with_normalize true)) at_image
      /\ deleteForwardAtRange in_image (Some 3) no_options at_image
         = call (removeNodeByKey 1%N (with_normalize true)) at_image).
Proof.
  split.
  - exact (proj1 (@directional_deletion_guards _ wide None (Some 3) no_options at_wide)
             eq_refl).
  - exact (proj1 (proj2 (@directional_deletion_guards _ in_image None (Some 3) no_options
                           at_image))
             eq_refl (image 1%N [Text 2%N []]) eq_refl).
Defined.

Lemma directional_count_ignored_witness :
  deleteBackwardAtRange at_start_of_two (Some 5) no_options at_caret
  = deleteBackwardAtRange at_start_of_two None no_options at_caret.
Proof.
  exact (proj1 (@directional_count_ignored_at_leaf_boundary _ at_start_of_two (Some 5) None
                  no_options at_caret (Text 4%N (marked bold "two")) eq_refl) eq_refl).
Defined.

Lemma delete_to_boundary_witness :
  deleteLineBackwardAtRange caret no_options at_caret
  = call (removeTextByKey 2%N 0 1 (with_normalize true)) at_caret
  /\ deleteLineForwardAtRange caret no_options at_caret
     = call (removeTextByKey 2%N 1 2 (with_normalize true)) at_caret.
Proof.
  pose proof (@delete_to_boundary_within_leaf _ _ caret no_options at_caret
                (Text 2%N (plain "one")) (paragraph 1%N [Text 2%N (plain "one")])
                eq_refl eq_refl eq_refl eq_refl eq_refl eq_refl) as [Hb Hf].
  split.
  - exact (proj2 (proj2 (Hb eq_refl eq_refl))).
  - exact (proj2 (proj2 (Hf eq_refl eq_refl))).
Defined.

Lemma directional_variants_witness :
  deleteLineBackwardAtRange wide no_options at_wide
  = deleteAtRange wide (with_normalize true) at_wide.
Proof.
  exact (proj1 (@directional_variants_on_expanded_range _ _ wide no_options at_wide eq_refl)).
Defined.

Lemma insertFragmentAtRange_empty_witness :
  insertFragmentAtRange caret container no_options at_caret = Some (tt, at_caret).
Proof.
  exact (@insertFragmentAtRange_empty_fragment _ caret container no_options at_caret eq_refl).
Defined.

Lemma insertInlineAtRange_at_caret_witness :
  insertInlineAtRange caret link no_options at_caret
  = callAll [splitNodeByKey 2%N 1 OPTS; insertNodeByKey 1%N 1 link OPTS;
             normalizeNodeByKey 1%N SCHEMA] at_caret.
Proof.
  exact (@insertInlineAtRange_at_caret _ caret link no_options at_caret
           (Text 2%N (plain "one")) (paragraph 1%N [Text 2%N (plain "one")])
           eq_refl eq_refl eq_refl).
Defined.

Lemma splitBlockAtRange_at_caret_witness :
  splitBlockAtRange caret None no_options at_caret
  = call (splitNodeByKey 1%N 1 (with_normalize true)) at_caret.
Proof.
  exact (proj2 (proj2 (@splitBlockAtRange_at_caret _ caret no_options at_caret
                         (Text 2%N (plain "one")) eq_refl eq_refl))
           (paragraph 1%N [Text 2%N (plain "one")]) 0 eq_refl eq_refl eq_refl).
Defined.

Lemma splitInlineAtRange_at_caret_witness :
  splitInlineAtRange 1 inside_link None no_options at_link
  = (call (splitNodeByKey 3%N 1 (with_normalize true)) ;; ret Finished) at_link.
Proof.
  exact (proj2 (proj2 (@splitInlineAtRange_at_caret _ 0 inside_link no_options at_link
                         (Text 4%N (plain "b")) eq_refl eq_refl))
           (Elem KInline 3%N "link" false [] [Text 4%N (plain "b")]) 0
           eq_refl eq_refl eq_refl eq_refl).
Defined.

Lemma splitInlineAtRange_fuel_witness :
  exists tr',
    splitInlineAtRange 1 inside_link None no_options at_link = Some (Finished, tr')
    /\ splitInlineAtRange (1 + 7) inside_link None no_options at_link = Some (Finished, tr').
Proof.
  destruct (splitInlineAtRange 1 inside_link None no_options at_link) as [[[|] tr']|] eqn:E.
  - exists tr'. split; [reflexivity|].
    exact (proj2 (@splitInlineAtRange_fuel _ inside_link no_options at_link tr')
             1%nat 7%nat None E).
  - vm_compute in E. discriminate.
  - vm_compute in E. discriminate.
Defined.

Lemma missing_start_key_witness :
  insertBlockAtRange nowhere three no_options at_caret = None
  /\ insertInlineAtRange nowhere three no_options at_caret = None
  /\ insertFragmentAtRange nowhere three no_options at_caret = None
  /\ splitBlockAtRange nowhere None no_options at_caret = None
  /\ splitInlineAtRange 3 nowhere None no_options at_caret = None.
Proof.
  destruct (@missing_start_key_throws _ nowhere three None 3%nat no_options at_caret)
    as (H1 & H2 & H3 & H4 & H5); [reflexivity|reflexivity|].
  refine (conj H1 (conj H2 (conj (H3 _) (conj H4 H5)))). discriminate.
Defined.

Lemma nothing_to_wrap_witness :
  wrapInlineAtRange caret link no_options at_caret = None
  /\ unwrapInlineAtRange wide links at_wide = None.
Proof.
  split.
  - exact (proj1 (proj2 (@nothing_to_wrap_throws _ caret link links no_options at_caret))
             eq_refl eq_refl).
  - exact (proj1 (proj2 (proj2 (@nothing_to_wrap_throws _ wide link links no_options
                                  at_wide))) eq_refl).
Defined.


(** Both quotes are unwrapped with the indexes of the document they
    were found in: the second one's children land at index 1 and 2,
    between "a" and "b". *)
Lemma unwrapBlockAtRange_without_split_witness :
  unwrapBlockAtRange all_four quotes no_options at_quotes
  = callAll [moveNodeByKey 2%N 0%N 0 OPTS; moveNodeByKey 4%N 0%N 1 OPTS;
             removeNodeByKey 1%N OPTS;
             moveNodeByKey 7%N 0%N 1 OPTS; moveNodeByKey 9%N 0%N 2 OPTS;
             removeNodeByKey 6%N OPTS;
             normalizeDocument (Some SCHEMA)] at_quotes
  /\ reads (unwrapBlockAtRange all_four quotes no_options at_quotes)
     = Some ["a"; "c"; "d"; "b"]%string.
Proof.
  split; [|vm_compute; reflexivity].
  refine (@unwrapBlockAtRange_without_split _ all_four quotes no_options at_quotes _ _).
  - intros w Hw. vm_compute in Hw. destruct Hw as [<-|[<-|[]]]; reflexivity.
  - intros w Hw. vm_compute in Hw. destruct Hw as [<-|[<-|[]]]; discriminate.
Defined.

(** A wrapper covered at its end only keeps its first child: the
    matched one goes after it. *)
Example unwrapBlockAtRange_suffix :
  issued (unwrapBlockAtRange (range 5%N 0 5%N 1) quotes OPTS) at_quotes
    = Some [moveNodeByKey 4%N 0%N 1 OPTS]
  /\ option_map (fun x => map key (nodes (document (state (snd x)))))
       (unwrapBlockAtRange (range 5%N 0 5%N 1) quotes OPTS at_quotes)
     = Some [1%N; 4%N; 6%N].
Proof. split; vm_compute; reflexivity. Qed.

Lemma only_unwrapInline_moves_the_selection_witness :
  Emits notSelection (run (WrapInlineAtRange wide link no_options)).
Proof.
  exact (@only_unwrapInline_moves_the_selection _ _ (WrapInlineAtRange wide link no_options)
           eq_refl).
Defined.

Lemma nodes_come_from_insertions_and_wraps_witness :
  Emits carriesNoNode (run (UnwrapInlineAtRange in_link links)).
Proof.
  exact (@nodes_come_from_insertions_and_wraps _ _ (UnwrapInlineAtRange in_link links)
           eq_refl).
Defined.

Lemma unwrapInlineAtRange_restores_selection_witness :
  exists tr' cs,
    unwrapInlineAtRange in_link links at_link = Some (tt, tr')
    /\ calls tr' = calls at_link ++ cs
                   ++ [moveTo 2%N 1 2%N 1; extendForward 1; normalizeDocument None].
Proof.
  destruct (unwrapInlineAtRange in_link links at_link) as [[[] tr']|] eqn:E.
  2:{ vm_compute in E. discriminate. }
  destruct (@unwrapInlineAtRange_restores_selection _ in_link links at_link tr' E)
    as (fi & b & cs & Hfi & Hb & Hc & _).
  vm_compute in Hfi. inversion Hfi; subst fi.
  vm_compute in Hb. inversion Hb; subst b.
  exists tr', cs. split; [reflexivity|exact Hc].
Defined.

Lemma key_safe_operations_witness :
  exists tr',
    runAll [DeleteBackwardAtRange caret None no_options;
            WrapInlineAtRange wide link no_options;
            InsertFragmentAtRange caret three no_options;
            SplitBlockAtRange caret None no_options] at_caret = Some (tt, tr')
    /\ Model.uniqueKeys (document (state tr')).
Proof.
  destruct (runAll [DeleteBackwardAtRange caret None no_options;
                    WrapInlineAtRange wide link no_options;
                    InsertFragmentAtRange caret three no_options;
                    SplitBlockAtRange caret None no_options] at_caret)
    as [[[] tr']|] eqn:E.
  2:{ vm_compute in E. discriminate. }
  exists tr'. split; [reflexivity|].
  refine (proj1 (@key_safe_operations_keep_keys_unique _ _ at_caret tr' _ _ _ E)).
  - repeat constructor.
  - unfold Model.uniqueKeys. cbn.
    repeat (constructor;
            [cbn; intros F; repeat (destruct F as [F|F]; [discriminate|]); exact F|]).
    constructor.
  - unfold Model.issuedBelow. cbn. repeat constructor.
Defined.

Lemma given_node_witness :
  exists tr',
    insertBlockAtRange caret container no_options at_caret_late = Some (tt, tr')
    /\ Model.uniqueKeys (document (state tr')).
Proof.
  destruct (insertBlockAtRange caret container no_options at_caret_late)
    as [[[] tr']|] eqn:E.
  2:{ vm_compute in E. discriminate. }
  exists tr'. split; [reflexivity|].
  refine (proj1 (@given_node_with_new_keys_keeps_keys_unique caret container no_options
                   at_caret_late tr' _ _ _ _ _ (or_introl E))).
  - unfold Model.uniqueKeys. cbn.
    repeat (constructor;
            [cbn; intros F; repeat (destruct F as [F|F]; [discriminate|]); exact F|]).
    constructor.
  - unfold Model.issuedBelow. cbn. repeat constructor.
  - cbn. repeat constructor. intros [].
  - unfold Model.issuedBelow. cbn. repeat constructor.
  - cbn. intros k [<-|[]] F. repeat (destruct F as [F|F]; [discriminate|]). exact F.
Defined.

Lemma deleteAtRange_within_one_block_witness :
  deleteAtRange whole_paragraph no_options at_whole_paragraph
  = callAll [removeNodeByKey 6%N OPTS; removeNodeByKey 3%N OPTS; removeNodeByKey 5%N OPTS;
             normalizeNodeByKey 1%N SCHEMA] linked_after_splits.
Proof.
  refine (@deleteAtRange_within_one_block _ whole_paragraph no_options at_whole_paragraph
            linked_after_splits
            (paragraph 1%N [Text 2%N (plain "a");
                            Elem KInline 3%N "link" false [] [Text 4%N (plain "b")];
                            Text 5%N (plain "c")])
            (Text 2%N (plain "a")) (Text 5%N (plain "c")) 0 1
            (paragraph 1%N [Text 2%N []; Text 6%N (plain "a");
                            Elem KInline 3%N "link" false [] [Text 4%N (plain "b")];
                            Text 5%N (plain "c"); Text 7%N []])
            (Text 2%N []) (Text 5%N (plain "c"))
            (paragraph 1%N [Text 2%N []; Text 6%N (plain "a");
                            Elem KInline 3%N "link" false [] [Text 4%N (plain "b")];
                            Text 5%N (plain "c"); Text 7%N []])
            (Text 7%N [])
            (paragraph 1%N [Text 2%N []; Text 6%N (plain "a");
                            Elem KInline 3%N "link" false [] [Text 4%N (plain "b")];
                            Text 5%N (plain "c"); Text 7%N []])
            eq_refl _ eq_refl eq_refl eq_refl eq_refl eq_refl eq_refl
            eq_refl eq_refl eq_refl eq_refl eq_refl eq_refl eq_refl).
  discriminate.
Defined.

Lemma wrapInlineAtRange_across_blocks_witness :
  wrapInlineAtRange second_halves link no_options at_second_halves
  = callAll [insertNodeByKey 1%N (-1) (Elem KInline 7%N "link" false [] []) OPTS;
             insertNodeByKey 3%N 0 (Elem KInline 8%N "link" false [] []) OPTS;
             moveNodeByKey 5%N 7%N 0 OPTS; moveNodeByKey 4%N 8%N 0 OPTS;
             normalizeNodeByKey 1%N SCHEMA; normalizeNodeByKey 3%N SCHEMA]
      {| state := state abc_def_split; calls := calls abc_def_split; nextKey := 9%N |}.
Proof.
  exact (@wrapInlineAtRange_across_blocks _ second_halves link no_options at_second_halves
           abc_def_split
           (paragraph 1%N [Text 2%N (plain "abc")]) (paragraph 3%N [Text 4%N (plain "def")])
           (Text 2%N (plain "abc")) (Text 4%N (plain "def")) 1 2
           (paragraph 1%N [Text 2%N (plain "a"); Text 5%N (plain "bc")])
           (paragraph 3%N [Text 4%N (plain "de"); Text 6%N (plain "f")])
           eq_refl eq_refl eq_refl eq_refl eq_refl eq_refl eq_refl eq_refl eq_refl
           eq_refl eq_refl eq_refl).
Defined.

Lemma wrapInlineAtRange_within_block_witness :
  wrapInlineAtRange inside_one link no_options at_inside_one
  = callAll [insertNodeByKey 1%N 1 (Elem KInline 9%N "link" false [] []) OPTS;
             moveNodeByKey 8%N 9%N 0 OPTS; normalizeNodeByKey 1%N SCHEMA]
      {| state := state three_split; calls := calls three_split; nextKey := 10%N |}.
Proof.
  exact (@wrapInlineAtRange_within_block _ inside_one link no_options at_inside_one
           three_split
           (paragraph 1%N [Text 2%N (plain "one")]) (paragraph 1%N [Text 2%N (plain "one")])
           (Text 2%N (plain "one")) (Text 2%N (plain "one")) 1 2
           (paragraph 1%N [Text 2%N (plain "o"); Text 8%N (plain "n"); Text 7%N (plain "e")])
           (Text 2%N (plain "o")) (Text 8%N (plain "n"))
           eq_refl eq_refl eq_refl eq_refl eq_refl eq_refl eq_refl eq_refl eq_refl
           eq_refl eq_refl eq_refl).
Defined.

(** Backspace at the start of "def" joins the two blocks; inside a
    leaf it takes one character. *)
Example deleteBackwardAtRange_joins_blocks :
  reads (deleteBackwardAtRange (range 4%N 0 4%N 0) None no_options
           (start abc_def (range 4%N 0 4%N 0) 5%N)) = Some ["abcdef"%string]
  /\ reads (deleteBackwardAtRange caret None no_options at_caret)
     = Some ["ne"; "two"; "three"]%string.
Proof. split; vm_compute; reflexivity. Qed.

End FurtherRuns.
